(** * d3-x3d: the vertical and the multi-series 3D bar charts

    A shallow embedding of [src/chart/barChartVertical.js] (both charts of
    that file: [barChartVertical] and [barChartMultiSeries]).

    - The closed-over variables of a chart ([width], [height], ...,
      [colorScale]) are a record that every accessor and [init] pass on.
    - The DOM fragment a chart builds is a tree of elements; a d3 selection
      of freshly created elements is the list of those elements.
    - [dataTransform] and [component] are modules of the repository that
      the two charts import; [d3] is an external library.  What the charts
      need from them is either modelled (the state of a d3 scale, the
      summary of a dataset) or taken as a parameter (the rounding of [nice],
      the rendering of a sub-component). *)

From Stdlib Require Import QArith Qround.
From stdpp Require Import gmap strings list pretty.

Open Scope Z_scope.

(** [x .> f] is the method call [x.f(..)] of a fluent interface. *)
Notation "x .> f" := (f x) (at level 45, left associativity, only parsing).

(** ** JavaScript numbers

    Finite numbers are exact rationals; [NaN] is what arithmetic on
    [undefined] gives. *)

Inductive number :=
  | Num (q : Q)
  | NaN.

Definition number_sub (a b : number) : number :=
  match a, b with
  | Num x, Num y => Num (x - y)
  | _, _ => NaN
  end.

(** [a[i]] of an array of numbers, used in arithmetic: a missing element is
    [undefined], which arithmetic turns into [NaN]. *)
Definition number_at (a : list number) (i : nat) : number :=
  default NaN (a !! i).

(** ** d3 scales

    A scale object is the state its setters write.  [scaleBand],
    [scaleLinear] and [scaleOrdinal] are the states of a newly created
    scale. *)

Module d3.

Record band := Band {
  band_domain : list string;
  band_range : number * number;
  band_round : bool;
  band_padding : Q
}.

Record linear := Linear {
  linear_domain : list number;
  linear_range : list number
}.

Record ordinal := Ordinal {
  ordinal_domain : list string;
  ordinal_range : list string
}.

(** A positional scale, as handed to [xScale], [yScale] and [zScale]. *)
Inductive scale :=
  | OfBand (s : band)
  | OfLinear (s : linear).

(** The domain of a band or ordinal scale is a set kept in insertion
    order: the setter pushes a value only when it is not there yet. *)
Definition domain_push (dom : list string) (d : string) : list string :=
  if bool_decide (d ∈ dom) then dom else dom ++ [d].

Definition implicit_domain (keys : list string) : list string :=
  foldl domain_push [] keys.

Definition scaleBand : band :=
  {| band_domain := []; band_range := (Num 0, Num 1);
     band_round := false; band_padding := 0 |}.

Definition bandDomain (keys : list string) (s : band) : band :=
  {| band_domain := implicit_domain keys; band_range := band_range s;
     band_round := band_round s; band_padding := band_padding s |}.

Definition bandRange (r : number * number) (s : band) : band :=
  {| band_domain := band_domain s; band_range := r;
     band_round := band_round s; band_padding := band_padding s |}.

Definition bandRangeRound (r : number * number) (s : band) : band :=
  {| band_domain := band_domain s; band_range := r;
     band_round := true; band_padding := band_padding s |}.

Definition bandPadding (p : Q) (s : band) : band :=
  {| band_domain := band_domain s; band_range := band_range s;
     band_round := band_round s; band_padding := p |}.

Definition scaleLinear : linear :=
  {| linear_domain := [Num 0; Num 1]; linear_range := [Num 0; Num 1] |}.

Definition linearDomain (d : list number) (s : linear) : linear :=
  {| linear_domain := d; linear_range := linear_range s |}.

Definition linearRange (r : list number) (s : linear) : linear :=
  {| linear_domain := linear_domain s; linear_range := r |}.

(** [nice()] rounds the domain of a linear scale outwards to tick values.
    The rounding itself is d3's; it is a parameter here. *)
Class Nice := nice_domain : list number → list number.

Definition linearNice `{Nice} (s : linear) : linear :=
  {| linear_domain := nice_domain (linear_domain s);
     linear_range := linear_range s |}.

Definition scaleOrdinal : ordinal :=
  {| ordinal_domain := []; ordinal_range := [] |}.

Definition ordinalDomain (keys : list string) (s : ordinal) : ordinal :=
  {| ordinal_domain := implicit_domain keys;
     ordinal_range := ordinal_range s |}.

Definition ordinalRange (r : list string) (s : ordinal) : ordinal :=
  {| ordinal_domain := ordinal_domain s; ordinal_range := r |}.

(** The getters [scale.domain()] and [scale.range()]. *)
Definition range (s : scale) : list number :=
  match s with
  | OfBand b => [fst (band_range b); snd (band_range b)]
  | OfLinear l => linear_range l
  end.

Inductive domain_of :=
  | Keys (ks : list string)
  | Numbers (ns : list number).

Definition domain (s : scale) : domain_of :=
  match s with
  | OfBand b => Keys (band_domain b)
  | OfLinear l => Numbers (linear_domain l)
  end.

End d3.

(** ** The chart data

    An ordered collection of series, each with a key and an ordered
    collection of key/value pairs. *)

Record point := Point { pkey : string; value : Q }.
Record series := Series { key : string; values : list point }.
Definition dataset := list series.

(** What d3 binds to an element ([__data__]): the chart data, or the name of
    a layer. *)
Inductive bound_data :=
  | Dataset (d : dataset)
  | Text (s : string).

(** ** dataTransform *)

Module dataTransform.

Record summary_of := Summary {
  rowKeys : list string;
  columnKeys : list string;
  maxValue : number
}.

(** The keys of a list, each once, in the order of first appearance. *)
Definition unique (keys : list string) : list string :=
  foldl (λ seen k, if bool_decide (k ∈ seen) then seen else seen ++ [k])
        [] keys.

Definition larger (m : option Q) (v : Q) : option Q :=
  match m with
  | None => Some v
  | Some w => if Qle_bool v w then Some w else Some v
  end.

(** Modelled from the spec: [dataTransform(data).summary()] is not among
    the sources.  The spec's data summarizer "computes unique row keys,
    unique column keys, and the maximum value": the row keys are the keys
    of the series, the column keys the keys of their values, and the
    maximum ranges over every value of every series.  A dataset with no
    value has no maximum; the number is then [NaN]. *)
Definition summary (data : dataset) : summary_of :=
  {| rowKeys := unique (key <$> data);
     columnKeys := unique (pkey <$> (data ≫= values));
     maxValue := from_option Num NaN
                   (foldl larger None (value <$> (data ≫= values))) |}.

(** Modelled from the spec: what is bound to the scene goes to
    [dataTransform] as it is.  "Missing or malformed dataset fields
    propagate as [...] runtime exceptions at the call site": only a dataset
    has a summary. *)
Definition summarize (data : option bound_data) : option summary_of :=
  match data with
  | Some (Dataset d) => Some (summary d)
  | _ => None
  end.

End dataTransform.

(** ** The document

    An element has a tag, attributes (the [class] attribute among them),
    the datum d3 binds to it ([__data__]) and children. *)

#[warnings="-register-all"]
Inductive Node :=
  Elem { tag : string;
         attrs : gmap string string;
         bound : option bound_data;
         children : list Node }.

(** How a call ends: it returns, or an exception leaves it. *)
Inductive completion :=
  | Normal
  | Throw.

Definition set_attr (name value : string) (n : Node) : Node :=
  Elem (tag n) (<[name := value]> (attrs n)) (bound n) (children n).

Definition set_bound (d : option bound_data) (n : Node) : Node :=
  Elem (tag n) (attrs n) d (children n).

Definition adopt (parent child : Node) : Node :=
  Elem (tag parent) (attrs parent) (bound parent) (children parent ++ [child]).

(** The tokens of the [class] attribute. *)
Definition classes (n : Node) : list string :=
  String.words (default "" (attrs n !! "class")).

Definition has_class (name : string) (n : Node) : bool :=
  bool_decide (name ∈ classes n).

(** [classList.add(name)]. *)
Definition add_class (name : string) (n : Node) : Node :=
  let tokens := d3.implicit_domain (classes n) in
  set_attr "class" (String.concat " " (d3.domain_push tokens name)) n.

(** Every proper descendant, in document order. *)
Fixpoint descendants (n : Node) : list Node :=
  match n with
  | Elem _ _ _ cs => flat_map (λ c, c :: descendants c) cs
  end.

(** The first element of [cs], counted from [i], in which [f] finds a path,
    with that path. *)
Section FirstAmong.
Context {A : Type} (f : A → option (list nat)).

Fixpoint first_among (cs : list A) (i : nat) : option (list nat) :=
  match cs with
  | [] => None
  | c :: cs' =>
      match f c with
      | Some path => Some (i :: path)
      | None => first_among cs' (S i)
      end
  end.
End FirstAmong.

(** The path (child indices) from [n] to its first proper descendant, in
    document order, that satisfies [p]. *)
Fixpoint find_first (p : Node → bool) (n : Node) : option (list nat) :=
  match n with
  | Elem _ _ _ cs =>
      first_among (λ c, if p c then Some [] else find_first p c) cs 0%nat
  end.

Fixpoint lookup_at (path : list nat) (n : Node) : option Node :=
  match path with
  | [] => Some n
  | i :: path' => children n !! i ≫= lookup_at path'
  end.

Fixpoint alter_at (f : Node → Node) (path : list nat) (n : Node) : Node :=
  match path with
  | [] => f n
  | i :: path' =>
      Elem (tag n) (attrs n) (bound n) (alter (alter_at f path') i (children n))
  end.

(** ** d3 selections

    A selection of elements that the chart has just created is the list of
    those elements; the elements are put under their parents when the chart
    is done with them. *)

Module d3_selection.

(** [selection.append(tag)]: one new child per element, which inherits
    the datum of its parent. *)
Definition append (name : string) (s : list Node) : list Node :=
  (λ parent, Elem name ∅ (bound parent) []) <$> s.

Definition attr (name value : string) (s : list Node) : list Node :=
  set_attr name value <$> s.

(** [selection.classed(name, true)]. *)
Definition classed (name : string) (s : list Node) : list Node :=
  add_class name <$> s.

(** [selection.selectAll(tag).data(values).enter().append(tag)
      .attr("class", d => d)]: the data are joined by index to the
    descendants with that tag; each datum beyond them enters as a new
    child, bound to the datum and classed by it. *)
Definition entering (name : string) (values : list string) (parent : Node)
  : list string :=
  drop (length (filter (λ c, tag c = name) (descendants parent))) values.

Definition enter_append_classed (name : string) (values : list string)
    (s : list Node) : list Node :=
  (λ parent,
     foldl adopt parent
       ((λ d, Elem name {[ "class" := d ]} (Some (Text d)) [])
          <$> entering name values parent)) <$> s.

(** The elements go under their parents. *)
Definition attach (parents new : list Node) : list Node :=
  zip_with adopt parents new.

End d3_selection.

(** ** The sub-components

    [component.axis()], [component.bars()], ... return a configurable
    object; each setter returns the object, and calling the object on a
    selection renders it there. *)

Module component.

Inductive arg :=
  | AScale (s : option d3.scale)
  | AString (s : string)
  | ANumber (n : number)
  | AVector (v : list Q)
  | AColors (c : list string).

(** A configured sub-component: the constructor it came from and the
    setter calls made on it, in order. *)
Record instance := Configured {
  kind : string;
  settings : list (string * arg)
}.

Definition set (name : string) (a : arg) (c : instance) : instance :=
  Configured (kind c) (settings c ++ [(name, a)]).

Definition axis : instance := Configured "axis" [].
Definition axisThreePlane : instance := Configured "axisThreePlane" [].
Definition bars : instance := Configured "bars" [].
Definition barsMultiSeries : instance := Configured "barsMultiSeries" [].
Definition viewpoint : instance := Configured "viewpoint" [].

Definition scale (s : option d3.scale) := set "scale" (AScale s).
Definition xScale (s : option d3.scale) := set "xScale" (AScale s).
Definition yScale (s : option d3.scale) := set "yScale" (AScale s).
Definition zScale (s : option d3.scale) := set "zScale" (AScale s).
Definition dir (d : string) := set "dir" (AString d).
Definition tickDir (d : string) := set "tickDir" (AString d).
Definition tickSize (n : number) := set "tickSize" (ANumber n).
Definition colors (c : list string) := set "colors" (AColors c).
Definition quickView (v : string) := set "quickView" (AString v).
Definition centerOfRotation (v : list Q) := set "centerOfRotation" (AVector v).

(** Modelled from the spec: the sub-components are not among the sources.
    The spec has them as "configuration objects that mutate an attached
    DOM subtree", whose failures surface "as runtime exceptions at the
    call site".  What a configured sub-component does to the element it
    is called on is a parameter: the element as it leaves it, and how the
    call ends.  Scales are values here: a sub-component reads the scales it
    is given and does not write to them. *)
Class Render := render : instance → Node → Node * completion.

(** A sub-component may rewrite the attributes, the datum and the subtree
    of the element; the element stays the element it was. *)
Definition run `{Render} (c : instance) (n : Node) : Node * completion :=
  let (n', k) := render c n in
  (Elem (tag n) (attrs n') (bound n') (children n'), k).

End component.

(** ** Rendering: the scenes under construction and what was handed out *)

Record dom := Dom {
  scenes : list Node;
  handed : list component.instance
}.

(** What a call of a chart leaves behind: the variables, the elements of
    the selection with what was appended to them, the sub-components that
    were called, and how the call ended. *)
Record rendering (V : Type) := Rendering {
  vars_after : V;
  document : list Node;
  called : list component.instance;
  ended : completion
}.
Arguments Rendering {V} _ _ _ _.
Arguments vars_after {V} _.
Arguments document {V} _.
Arguments called {V} _.
Arguments ended {V} _.

(** A step of rendering reads and writes the variables of the chart and the
    scenes; [None] is an exception, which leaves both as they were when it
    was thrown. *)
Definition M (V A : Type) : Type := V → dom → V * dom * option A.

Definition ret {V A} (a : A) : M V A := λ v d, (v, d, Some a).

Definition bind {V A B} (m : M V A) (k : A → M V B) : M V B :=
  λ v d,
    match m v d with
    | (v', d', Some a) => k a v' d'
    | (v', d', None) => (v', d', None)
    end.

Notation "x <- m ;; k" := (bind m (λ x, k))
  (at level 100, m at next level, right associativity, only parsing).
Notation "m ;; k" := (bind m (λ _, k))
  (at level 100, right associativity, only parsing).

Definition throw {V A} : M V A := λ v d, (v, d, None).

Definition get {V} : M V V := λ v d, (v, d, Some v).

(** A step that only touches the scenes. *)
Definition on_dom {V A} (f : dom → dom * option A) : M V A :=
  λ v d, let (d', r) := f d in (v, d', r).

(** A step that only touches the variables, and may throw. *)
Definition on_vars {V} (f : V → option V) : M V unit :=
  λ v d, match f v with Some v' => (v', d, Some tt) | None => (v, d, None) end.

Section Calls.
Context `{component.Render}.

(** Render [c] on the elements of a selection, one after the other; an
    exception ends the call. *)
Fixpoint call_each (c : component.instance) (s : list Node)
  : list Node * completion :=
  match s with
  | [] => ([], Normal)
  | n :: rest =>
      match component.run c n with
      | (n', Throw) => (n' :: rest, Throw)
      | (n', Normal) =>
          let (rest', k) := call_each c rest in (n' :: rest', k)
      end
  end.

Definition completed (k : completion) : option unit :=
  match k with Normal => Some tt | Throw => None end.

(** [scene.call(c)]. *)
Definition call {V} (c : component.instance) : M V unit :=
  on_dom (λ d,
    let (s', k) := call_each c (scenes d) in
    (Dom s' (handed d ++ [c]), completed k)).

(** [scene.append(tag)] with attributes: a new last child in each scene. *)
Definition append_child {V} (name : string) (a : gmap string string)
  : M V unit :=
  on_dom (λ d,
    (Dom ((λ s, adopt s (Elem name a (bound s) [])) <$> scenes d) (handed d),
     Some tt)).

(** [scene.select(".name")]: in each scene the first descendant of that
    class, which takes over the datum of the scene when the scene has
    one.  The result says where that descendant is, scene by scene. *)
Definition select_in (name : string) (s : Node) : Node * option (list nat) :=
  match find_first (has_class name) s with
  | None => (s, None)
  | Some path =>
      (match bound s with
       | Some d => alter_at (set_bound (Some d)) path s
       | None => s
       end, Some path)
  end.

Definition select {V} (name : string) : M V (list (option (list nat))) :=
  on_dom (λ d,
    let r := select_in name <$> scenes d in
    (Dom (fst <$> r) (handed d), Some (snd <$> r))).

(** [.datum(data)] on the result of a [select]. *)
Definition datum_at (data : option bound_data) (s : Node)
    (where_ : option (list nat)) : Node :=
  match where_ with
  | Some path => alter_at (set_bound data) path s
  | None => s
  end.

Fixpoint datum_each (data : option bound_data) (s : list Node)
    (sub : list (option (list nat))) : list Node :=
  match s, sub with
  | n :: rest, w :: sub' => datum_at data n w :: datum_each data rest sub'
  | _, _ => s
  end.

Definition datum {V} (data : option bound_data)
    (sub : list (option (list nat))) : M V (list (option (list nat))) :=
  on_dom (λ d, (Dom (datum_each data (scenes d) sub) (handed d), Some sub)).

(** [.call(c)] on the result of a [select]. *)
Definition run_at (c : component.instance) (s : Node)
    (where_ : option (list nat)) : Node * completion :=
  match where_ with
  | Some path =>
      match lookup_at path s with
      | Some target =>
          let (target', k) := component.run c target in
          (alter_at (λ _, target') path s, k)
      | None => (s, Normal)
      end
  | None => (s, Normal)
  end.

Fixpoint call_each_at (c : component.instance) (s : list Node)
    (sub : list (option (list nat))) : list Node * completion :=
  match s, sub with
  | n :: rest, w :: sub' =>
      match run_at c n w with
      | (n', Throw) => (n' :: rest, Throw)
      | (n', Normal) =>
          let (rest', k) := call_each_at c rest sub' in (n' :: rest', k)
      end
  | _, _ => (s, Normal)
  end.

Definition call_at {V} (c : component.instance)
    (sub : list (option (list nat))) : M V unit :=
  on_dom (λ d,
    let (s', k) := call_each_at c (scenes d) sub in
    (Dom s' (handed d ++ [c]), completed k)).

(** [scene.each(function(data) { body })]: the body runs once per scene,
    with the datum of that scene. *)
Fixpoint each_from {V} (body : option bound_data → M V unit) (idx : list nat)
  : M V unit :=
  match idx with
  | [] => ret tt
  | i :: rest =>
      (data <- on_dom (λ d, (d, Some (scenes d !! i ≫= bound))) ;;
       body data ;;
       each_from body rest)
  end.

Definition each {V} (body : option bound_data → M V unit) : M V unit :=
  λ v d, each_from body (seq 0 (length (scenes d))) v d.

End Calls.

(** ** Accessors

    Every accessor is one function: without arguments it returns the
    variable, with an argument it assigns it and returns an object, which is
    [this] for some accessors and the chart [my] for the others. *)

Inductive object :=
  | Chart
  | Other (id : nat).

Inductive returned (A : Type) :=
  | Value (a : A)
  | Ref (o : object).
Arguments Value {A} a.
Arguments Ref {A} o.

Definition accessor {V A} (read : V → A) (write : A → V → V)
    (result : object) (arguments : list A) (v : V) : V * returned A :=
  match arguments with
  | [] => (v, Value (read v))
  | _x :: _ => (write _x v, Ref result)
  end.

Record xyz := Xyz { x : Q; y : Q; z : Q }.

(** ** barChartVertical *)

Module barChartVertical.
Import d3_selection.

(** The variables that the chart closes over.  [width] and [height] are
    whole numbers of pixels, [classed] has no accessor, and a scale that is
    [None] is [undefined]. *)
Record vars := Vars {
  width : Z;
  height : Z;
  dimensions : xyz;
  colors : list string;
  classed : string;
  debug : bool;
  xScale : option d3.scale;
  yScale : option d3.scale;
  colorScale : option d3.ordinal
}.

(** The variables of a chart that [barChartVertical()] has just made. *)
Definition barChartVertical : vars :=
  {| width := 500;
     height := 500;
     dimensions := Xyz 40 40 40;
     colors := ["green"; "red"; "yellow"; "steelblue"; "orange"];
     classed := "x3dBarChartVertical";
     debug := false;
     xScale := None;
     yScale := None;
     colorScale := None |}.

Definition set_width (v : Z) (s : vars) : vars :=
  Vars v (height s) (dimensions s) (colors s) (classed s) (debug s)
       (xScale s) (yScale s) (colorScale s).
Definition set_height (v : Z) (s : vars) : vars :=
  Vars (width s) v (dimensions s) (colors s) (classed s) (debug s)
       (xScale s) (yScale s) (colorScale s).
Definition set_dimensions (v : xyz) (s : vars) : vars :=
  Vars (width s) (height s) v (colors s) (classed s) (debug s)
       (xScale s) (yScale s) (colorScale s).
Definition set_colors (v : list string) (s : vars) : vars :=
  Vars (width s) (height s) (dimensions s) v (classed s) (debug s)
       (xScale s) (yScale s) (colorScale s).
Definition set_debug (v : bool) (s : vars) : vars :=
  Vars (width s) (height s) (dimensions s) (colors s) (classed s) v
       (xScale s) (yScale s) (colorScale s).
Definition set_xScale (v : option d3.scale) (s : vars) : vars :=
  Vars (width s) (height s) (dimensions s) (colors s) (classed s) (debug s)
       v (yScale s) (colorScale s).
Definition set_yScale (v : option d3.scale) (s : vars) : vars :=
  Vars (width s) (height s) (dimensions s) (colors s) (classed s) (debug s)
       (xScale s) v (colorScale s).
Definition set_colorScale (v : option d3.ordinal) (s : vars) : vars :=
  Vars (width s) (height s) (dimensions s) (colors s) (classed s) (debug s)
       (xScale s) (yScale s) v.

Section Chart.
Context `{d3.Nice} `{component.Render}.

(** [init(data)].  [None]: [dataTransform] threw. *)
Definition init (data : option bound_data) (s : vars) : option vars :=
  summarized ← dataTransform.summarize data;
  let columnKeys := dataTransform.columnKeys summarized in
  let maxValue := dataTransform.maxValue summarized in
  let extent := [Num 0; maxValue] in
  let s :=
    match xScale s with
    | None =>
        set_xScale
          (Some (d3.OfBand
             (d3.scaleBand .> d3.bandDomain columnKeys
                .> d3.bandRangeRound (Num 0, Num (x (dimensions s)))
                .> d3.bandPadding 0.5)))
          s
    | Some _ => s
    end in
  let s :=
    match yScale s with
    | None =>
        set_yScale
          (Some (d3.OfLinear
             (d3.scaleLinear .> d3.linearDomain extent
                .> d3.linearRange [Num 0; Num (y (dimensions s))]
                .> d3.linearNice)))
          s
    | Some _ => s
    end in
  let s :=
    match colorScale s with
    | None =>
        set_colorScale
          (Some (d3.scaleOrdinal .> d3.ordinalDomain columnKeys
                   .> d3.ordinalRange (colors s)))
          s
    | Some _ => s
    end in
  Some s.

(** The body of [scene.each(function(data) { ... })] after [init]:
    the sub-components are made from the variables and called on the
    layers. *)
Definition draw (s : vars) (data : option bound_data) : M vars unit :=
  let xAxis :=
    component.axis .> component.scale (xScale s)
      .> component.dir "x" .> component.tickDir "y" in
  range <- match yScale s with
           | Some scale => ret (d3.range scale)
           | None => throw
           end ;;
  let yAxis :=
    component.axis .> component.scale (yScale s)
      .> component.dir "y" .> component.tickDir "x"
      .> component.tickSize
           (number_sub (number_at range 1) (number_at range 0)) in
  let chart :=
    component.bars .> component.xScale (xScale s)
      .> component.yScale (yScale s) .> component.colors (colors s) in
  sub <- select "xAxis" ;;
  call_at xAxis sub ;;
  sub <- select "yAxis" ;;
  call_at yAxis sub ;;
  sub <- select "chart" ;;
  sub <- datum data sub ;;
  call_at chart sub.

(** The body of [scene.each(function(data) { ... })]. *)
Definition each_scene (data : option bound_data) : M vars unit :=
  on_vars (init data) ;;
  s <- get ;;
  draw s data.

(** [my(selection)]. *)
Definition my (selection : list Node) (s : vars) : rendering vars :=
  let x3d :=
    selection .> append "x3d"
      .> attr "width" (pretty (width s) +:+ "px")
      .> attr "height" (pretty (height s) +:+ "px") in
  let x3d :=
    if debug s
    then x3d .> attr "showLog" "true" .> attr "showStat" "true"
    else x3d in
  let scene := x3d .> append "scene" in
  let layers := ["xAxis"; "yAxis"; "chart"] in
  let scene :=
    scene .> d3_selection.classed (classed s)
      .> enter_append_classed "group" layers in
  let viewpoint := component.viewpoint .> component.quickView "left" in
  let '(s', d, r) :=
    (call viewpoint ;; each each_scene) s (Dom scene []) in
  {| vars_after := s';
     document := attach selection (attach x3d (scenes d));
     called := handed d;
     ended := match r with Some _ => Normal | None => Throw end |}.

(** The accessors [my.width], ..., [my.debug]. *)
Definition my_width (this : object) := accessor width set_width this.
Definition my_height (this : object) := accessor height set_height this.
Definition my_dimensions (this : object) :=
  accessor dimensions set_dimensions this.
Definition my_xScale (this : object) := accessor xScale set_xScale Chart.
Definition my_yScale (this : object) := accessor yScale set_yScale Chart.
Definition my_colorScale (this : object) :=
  accessor colorScale set_colorScale Chart.
Definition my_colors (this : object) := accessor colors set_colors Chart.
Definition my_debug (this : object) := accessor debug set_debug Chart.

End Chart.
End barChartVertical.

(** ** barChartMultiSeries *)

Module barChartMultiSeries.
Import d3_selection.

(** The variables that the chart closes over, as in [barChartVertical], with
    [zScale]. *)
Record vars := Vars {
  width : Z;
  height : Z;
  dimensions : xyz;
  colors : list string;
  classed : string;
  debug : bool;
  xScale : option d3.scale;
  yScale : option d3.scale;
  zScale : option d3.scale;
  colorScale : option d3.ordinal
}.

(** The variables of a chart that [barChartMultiSeries()] has just made. *)
Definition barChartMultiSeries : vars :=
  {| width := 500;
     height := 500;
     dimensions := Xyz 40 40 40;
     colors := ["green"; "red"; "yellow"; "steelblue"; "orange"];
     classed := "x3dBarChartMultiSeries";
     debug := false;
     xScale := None;
     yScale := None;
     zScale := None;
     colorScale := None |}.

Definition set_width (v : Z) (s : vars) : vars :=
  Vars v (height s) (dimensions s) (colors s) (classed s) (debug s)
       (xScale s) (yScale s) (zScale s) (colorScale s).
Definition set_height (v : Z) (s : vars) : vars :=
  Vars (width s) v (dimensions s) (colors s) (classed s) (debug s)
       (xScale s) (yScale s) (zScale s) (colorScale s).
Definition set_dimensions (v : xyz) (s : vars) : vars :=
  Vars (width s) (height s) v (colors s) (classed s) (debug s)
       (xScale s) (yScale s) (zScale s) (colorScale s).
Definition set_colors (v : list string) (s : vars) : vars :=
  Vars (width s) (height s) (dimensions s) v (classed s) (debug s)
       (xScale s) (yScale s) (zScale s) (colorScale s).
Definition set_debug (v : bool) (s : vars) : vars :=
  Vars (width s) (height s) (dimensions s) (colors s) (classed s) v
       (xScale s) (yScale s) (zScale s) (colorScale s).
Definition set_xScale (v : option d3.scale) (s : vars) : vars :=
  Vars (width s) (height s) (dimensions s) (colors s) (classed s) (debug s)
       v (yScale s) (zScale s) (colorScale s).
Definition set_yScale (v : option d3.scale) (s : vars) : vars :=
  Vars (width s) (height s) (dimensions s) (colors s) (classed s) (debug s)
       (xScale s) v (zScale s) (colorScale s).
Definition set_zScale (v : option d3.scale) (s : vars) : vars :=
  Vars (width s) (height s) (dimensions s) (colors s) (classed s) (debug s)
       (xScale s) (yScale s) v (colorScale s).
Definition set_colorScale (v : option d3.ordinal) (s : vars) : vars :=
  Vars (width s) (height s) (dimensions s) (colors s) (classed s) (debug s)
       (xScale s) (yScale s) (zScale s) v.

(** The attributes of the light that [my] appends to the scene. *)
Definition directionallight : gmap string string :=
  <["shadowintensity" := "0"]>
    (<["intensity" := "0.4"]>
       (<["on" := "true"]> (<["direction" := "1 0 -1"]> ∅))).

Section Chart.
Context `{d3.Nice} `{component.Render}.

(** [init(data)].  [None]: [dataTransform] threw.  In the branch of
    [yScale] the scale is an expression statement: it is built and
    dropped. *)
Definition init (data : option bound_data) (s : vars) : option vars :=
  summarized ← dataTransform.summarize data;
  let rowKeys := dataTransform.rowKeys summarized in
  let columnKeys := dataTransform.columnKeys summarized in
  let maxValue := dataTransform.maxValue summarized in
  let extent := [Num 0; maxValue] in
  let s :=
    match xScale s with
    | None =>
        set_xScale
          (Some (d3.OfBand
             (d3.scaleBand .> d3.bandDomain columnKeys
                .> d3.bandRangeRound (Num 0, Num (x (dimensions s)))
                .> d3.bandPadding 0.5)))
          s
    | Some _ => s
    end in
  let s :=
    match yScale s with
    | None =>
        let _ :=
          d3.scaleLinear .> d3.linearDomain extent
            .> d3.linearRange [Num 0; Num (y (dimensions s))]
            .> d3.linearNice in
        s
    | Some _ => s
    end in
  let s :=
    match zScale s with
    | None =>
        set_zScale
          (Some (d3.OfBand
             (d3.scaleBand .> d3.bandDomain rowKeys
                .> d3.bandRange (Num 0, Num (z (dimensions s)))
                .> d3.bandPadding 0.7)))
          s
    | Some _ => s
    end in
  let s :=
    match colorScale s with
    | None =>
        set_colorScale
          (Some (d3.scaleOrdinal .> d3.ordinalDomain columnKeys
                   .> d3.ordinalRange (colors s)))
          s
    | Some _ => s
    end in
  Some s.

(** The body of [scene.each(data => { ... })] after [init]: the
    sub-components are made from the variables and called on the
    layers. *)
Definition draw (s : vars) (data : option bound_data) : M vars unit :=
  let axis :=
    component.axisThreePlane .> component.xScale (xScale s)
      .> component.yScale (yScale s) .> component.zScale (zScale s) in
  let chart :=
    component.barsMultiSeries .> component.xScale (xScale s)
      .> component.yScale (yScale s) .> component.zScale (zScale s)
      .> component.colors (colors s) in
  sub <- select "axis" ;;
  call_at axis sub ;;
  sub <- select "chart" ;;
  sub <- datum data sub ;;
  call_at chart sub.

(** The body of [scene.each(data => { ... })]. *)
Definition each_scene (data : option bound_data) : M vars unit :=
  on_vars (init data) ;;
  s <- get ;;
  draw s data.

(** [my(selection)]. *)
Definition my (selection : list Node) (s : vars) : rendering vars :=
  let x3d :=
    selection .> append "x3d"
      .> attr "width" (pretty (width s) +:+ "px")
      .> attr "height" (pretty (height s) +:+ "px") in
  let x3d :=
    if debug s
    then x3d .> attr "showLog" "true" .> attr "showStat" "true"
    else x3d in
  let scene := x3d .> append "scene" in
  let layers := ["axis"; "chart"] in
  let scene :=
    scene .> d3_selection.classed (classed s)
      .> enter_append_classed "group" layers in
  let viewpoint :=
    component.viewpoint
      .> component.centerOfRotation
           [x (dimensions s) / 2; y (dimensions s) / 2;
            z (dimensions s) / 2]%Q in
  let '(s', d, r) :=
    (call viewpoint ;;
     append_child "directionallight" directionallight ;;
     each each_scene) s (Dom scene []) in
  {| vars_after := s';
     document := attach selection (attach x3d (scenes d));
     called := handed d;
     ended := match r with Some _ => Normal | None => Throw end |}.

(** The accessors [my.width], ..., [my.debug]. *)
Definition my_width (this : object) := accessor width set_width this.
Definition my_height (this : object) := accessor height set_height this.
Definition my_dimensions (this : object) :=
  accessor dimensions set_dimensions this.
Definition my_xScale (this : object) := accessor xScale set_xScale Chart.
Definition my_yScale (this : object) := accessor yScale set_yScale Chart.
Definition my_zScale (this : object) := accessor zScale set_zScale Chart.
Definition my_colorScale (this : object) :=
  accessor colorScale set_colorScale Chart.
Definition my_colors (this : object) := accessor colors set_colors Chart.
Definition my_debug (this : object) := accessor debug set_debug Chart.

End Chart.
End barChartMultiSeries.

(** ** A reading of [nice] and of the sub-components

    The two parameters, made concrete: d3's rounding of a linear domain,
    computed on exact rationals, and sub-components that put one element
    per datum under the element they are called on. *)

Module concrete.

(** [floor(log10(q))] for a positive [q]. *)
Fixpoint magnitude_up (fuel : nat) (q : Q) : Z :=
  match fuel with
  | O => 0
  | S fuel' =>
      if Qle_bool 10 q then 1 + magnitude_up fuel' (q / 10)%Q else 0
  end.

Fixpoint magnitude_down (fuel : nat) (q : Q) : Z :=
  match fuel with
  | O => 0
  | S fuel' =>
      if Qle_bool 1 q then 0 else magnitude_down fuel' (q * 10)%Q - 1
  end.

Definition magnitude (q : Q) : Z :=
  let fuel := (Z.to_nat (Z.log2 (Z.abs (Qnum q))) + Pos.to_nat (Pos.size (Qden q)) + 1)%nat in
  if Qle_bool 1 q then magnitude_up fuel q else magnitude_down fuel q.

Definition power10 (p : Z) : Q :=
  if Z.leb 0 p then inject_Z (10 ^ p) else (/ inject_Z (10 ^ (- p)))%Q.

(** d3-array's [tickIncrement(start, stop, 10)]: a positive result is the
    step, a negative one the inverse of the step; [None] when the numbers
    are not apart (the logarithm is then not finite). *)
Definition tickIncrement (start stop : Q) : option Q :=
  let step := ((stop - start) / 10)%Q in
  if Qle_bool step 0 then None
  else
    let power := magnitude step in
    let error := (step / power10 power)%Q in
    let factor : Q :=
      (if Qle_bool 50 (error * error) then 10
       else if Qle_bool 10 (error * error) then 5
       else if Qle_bool 2 (error * error) then 2
       else 1)%Q in
    Some (if Z.leb 0 power
          then Qred (factor * power10 power)
          else Qred (- power10 (- power) / factor)).

Definition round_out (step start stop : Q) : Q * Q :=
  if Qle_bool 0 step
  then (Qred (inject_Z (Qfloor (start / step)) * step),
        Qred (inject_Z (Qceiling (stop / step)) * step))%Q
  else (Qred (inject_Z (Qceiling (start * step)) / step),
        Qred (inject_Z (Qfloor (stop * step)) / step))%Q.

(** d3-scale's [linear.nice()] on an ascending domain of two numbers: the
    ends are rounded outwards twice, the second time with the step of the
    rounded ends.  Any other domain is left as it is here. *)
Definition nice (domain : list number) : list number :=
  match domain with
  | [Num start; Num stop] =>
      match tickIncrement start stop with
      | None => domain
      | Some step =>
          let (start', stop') := round_out step start stop in
          match tickIncrement start' stop' with
          | None => domain
          | Some step' =>
              let (a, b) := round_out step' start' stop' in [Num a; Num b]
          end
      end
  | _ => domain
  end.

(** A sub-component that leaves a mark of its kind on the element and,
    when the element is bound to a dataset, one child per value. *)
Definition paint (c : component.instance) (n : Node) : Node * completion :=
  let marks :=
    match bound n with
    | Some (Dataset d) =>
        (λ p, Elem "shape" {[ "class" := pkey p ]} (bound n) [])
          <$> (d ≫= values)
    | _ => []
    end in
  (Elem (tag n) (<["rendered" := component.kind c]> (attrs n)) (bound n)
        (children n ++ marks),
   Normal).

#[export] Instance nice_instance : d3.Nice := nice.
#[export] Instance paint_instance : component.Render := paint.

Definition quarters : dataset :=
  [Series "A" [Point "q1" 10; Point "q2" 20]].

Definition container (data : option bound_data) : Node :=
  Elem "div" {[ "id" := "chartholder" ]} data [].

(** Sub-components of which the viewpoint throws. *)
Definition no_viewpoint (c : component.instance) (n : Node)
  : Node * completion :=
  if bool_decide (component.kind c = "viewpoint") then (n, Throw)
  else paint c n.

End concrete.

(** ** Statements about rendering steps *)

(** From a state in [P], the step [m] ends in [Q], which also sees what the
    step returned ([None]: it threw). *)
Definition hoare {V A} (P : V → dom → Prop) (m : M V A)
    (Q : option A → V → dom → Prop) : Prop :=
  ∀ v d, P v d → Q (m v d).2 (m v d).1.1 (m v d).1.2.

(** [I] holds after the step whenever it held before, thrown or not. *)
Definition keeps {V A} (I : V → dom → Prop) (m : M V A) : Prop :=
  hoare I m (λ _, I).

(** The step neither reads nor writes the variables. *)
Definition dom_only {V A} (m : M V A) : Prop :=
  ∀ v d,
    (m v d).1.1 = v ∧
    ∀ v', (m v' d).1.2 = (m v d).1.2 ∧ (m v' d).2 = (m v d).2.

(** An accessor gives back what it was given, and the call that gives it
    returns the chart. *)
Definition round_trips {V A} (acc : object → list A → V → V * returned A)
  : Prop :=
  ∀ (v : A) (s : V),
    (acc Chart [v] s).2 = Ref Chart ∧
    acc Chart [] (acc Chart [v] s).1 = ((acc Chart [v] s).1, Value v).

(** The elements that [my] makes before it calls a sub-component: one
    [x3d] element per element of the selection, and one [scene] per [x3d],
    which holds one group per layer. *)
Definition x3d_attrs (width height : Z) (debug : bool) : gmap string string :=
  let sized :=
    <["height" := pretty height +:+ "px"]>
      (<["width" := pretty width +:+ "px"]> ∅) in
  if debug
  then <["showStat" := "true"]> (<["showLog" := "true"]> sized)
  else sized.

Definition x3d_elements (width height : Z) (debug : bool)
    (selection : list Node) : list Node :=
  (λ c, Elem "x3d" (x3d_attrs width height debug) (bound c) []) <$> selection.

Definition layer_group (name : string) : Node :=
  Elem "group" {[ "class" := name ]} (Some (Text name)) [].

Definition scaffold (classed : string) (layers : list string)
    (x3d : list Node) : list Node :=
  (λ e, Elem "scene" {[ "class" := classed ]} (bound e) (layer_group <$> layers))
    <$> x3d.

Definition finish {V} (selection x3d : list Node) (out : V * dom * option unit)
  : rendering V :=
  let '(s', d, r) := out in
  {| vars_after := s';
     document := d3_selection.attach selection (d3_selection.attach x3d (scenes d));
     called := handed d;
     ended := match r with Some _ => Normal | None => Throw end |}.

(** Every sub-component that was called satisfies [P]. *)
Definition logged {V} (P : component.instance → Prop) : V → dom → Prop :=
  λ _ d, Forall P (handed d).

(** Whenever the sub-component [c] was given a scale for the direction
    [axis] (by the setter [name], or as the [scale] of an axis of that
    direction) the scale was [v]. *)
Definition hands (axis name : string) (v : option d3.scale)
    (c : component.instance) : Prop :=
  (∀ w, (name, component.AScale w) ∈ component.settings c → w = v) ∧
  (∀ w, ("scale", component.AScale w) ∈ component.settings c →
        ("dir", component.AString axis) ∈ component.settings c → w = v).

(** Run from related variables, the step ends in related variables, with
    the same scenes and the same result. *)
Definition related {V A} (R : V → V → Prop) (m : M V A) : Prop :=
  ∀ v1 v2 d,
    R v1 v2 →
    R (m v1 d).1.1 (m v2 d).1.1 ∧
    (m v1 d).1.2 = (m v2 d).1.2 ∧
    (m v1 d).2 = (m v2 d).2.

(** The variables of two charts are the same but for [colorScale]. *)
Definition vertical_but_colorScale (a b : barChartVertical.vars) : Prop :=
  barChartVertical.set_colorScale None a = barChartVertical.set_colorScale None b.

Definition multi_but_colorScale (a b : barChartMultiSeries.vars) : Prop :=
  barChartMultiSeries.set_colorScale None a =
  barChartMultiSeries.set_colorScale None b.

(** Whenever the sub-component [c] was given colours, it was given [v]. *)
Definition given_colors (v : list string) (c : component.instance) : Prop :=
  ∀ a, ("colors", a) ∈ component.settings c → a = component.AColors v.

(** [init] has nothing left to set in the variables [v]. *)
Definition settled {V} (init : option bound_data → V → option V) (v : V)
  : Prop :=
  ∀ data v', init data v = Some v' → v' = v.

(** The rendering of call number [n] (from 0) of a chart on a selection,
    each call starting from the variables the call before has left. *)
Fixpoint again {V} (my : V → rendering V) (n : nat) (s : V) : rendering V :=
  match n with
  | O => my s
  | S n' => again my n' (vars_after (my s))
  end.

(** The classes of the groups under an element, in document order, and the
    number of elements under it. *)
Definition group_names (n : Node) : list (list string) :=
  classes <$> filter (λ c, tag c = "group") (descendants n).

Definition primitives (n : Node) : nat := length (descendants n).

(** The light that the multi-series chart appends to a scene, and the scenes
    whose last child is that light and that have no other light among their
    children. *)
Definition light (data : option bound_data) : Node :=
  Elem "directionallight" barChartMultiSeries.directionallight data [].

Definition no_light (cs : list Node) : Prop :=
  Forall (λ c, tag c ≠ "directionallight") cs.

Definition lit (sc : Node) : Prop :=
  ∃ cs data, children sc = cs ++ [light data] ∧ no_light cs.

(** A path that does not start at the last child. *)
Definition before_last (sc : Node) (w : option (list nat)) : Prop :=
  match w with
  | Some (i :: _) => (S i < length (children sc))%nat
  | Some [] => False
  | None => True
  end.

(** Invariants of the scenes: every scene has its light; the paths of a
    sub-selection stay clear of it; the scenes are [n]; the first
    sub-component that was called is [c]. *)
Definition all_lit {V} : V → dom → Prop :=
  λ _ d, Forall lit (scenes d).

Definition lit_clear {V} (sub : list (option (list nat))) : V → dom → Prop :=
  λ _ d, Forall lit (scenes d) ∧ Forall2 before_last (scenes d) sub.

Definition as_many {V} (n : nat) : V → dom → Prop :=
  λ _ d, length (scenes d) = n.

Definition first_called {V} (c : component.instance) : V → dom → Prop :=
  λ _ d, head (handed d) = Some c.

(** The body of [scene.each] in both charts: [init], then the drawing from
    the variables that [init] has left. *)
Definition scene_body `{component.Render} {V}
    (init : option bound_data → V → option V)
    (draw : V → option bound_data → M V unit)
    (data : option bound_data) : M V unit :=
  on_vars (init data) ;; s <- get ;; draw s data.

(** Two states of the variables of a chart with the same configuration:
    all but the scales. *)
Definition vertical_same_configuration (a b : barChartVertical.vars) : Prop :=
  barChartVertical.width b = barChartVertical.width a ∧
  barChartVertical.height b = barChartVertical.height a ∧
  barChartVertical.dimensions b = barChartVertical.dimensions a ∧
  barChartVertical.colors b = barChartVertical.colors a ∧
  barChartVertical.classed b = barChartVertical.classed a ∧
  barChartVertical.debug b = barChartVertical.debug a.

Definition multi_same_configuration (a b : barChartMultiSeries.vars) : Prop :=
  barChartMultiSeries.width b = barChartMultiSeries.width a ∧
  barChartMultiSeries.height b = barChartMultiSeries.height a ∧
  barChartMultiSeries.dimensions b = barChartMultiSeries.dimensions a ∧
  barChartMultiSeries.colors b = barChartMultiSeries.colors a ∧
  barChartMultiSeries.classed b = barChartMultiSeries.classed a ∧
  barChartMultiSeries.debug b = barChartMultiSeries.debug a.

(** The sub-components that the body of [scene.each] makes from the
    variables [v], in the order in which it calls them. *)
Definition vertical_components (v : barChartVertical.vars)
  : list component.instance :=
  let range := from_option d3.range [] (barChartVertical.yScale v) in
  [ component.axis .> component.scale (barChartVertical.xScale v)
      .> component.dir "x" .> component.tickDir "y";
    component.axis .> component.scale (barChartVertical.yScale v)
      .> component.dir "y" .> component.tickDir "x"
      .> component.tickSize
           (number_sub (number_at range 1) (number_at range 0));
    component.bars .> component.xScale (barChartVertical.xScale v)
      .> component.yScale (barChartVertical.yScale v)
      .> component.colors (barChartVertical.colors v) ].

Definition multi_components (v : barChartMultiSeries.vars)
  : list component.instance :=
  [ component.axisThreePlane .> component.xScale (barChartMultiSeries.xScale v)
      .> component.yScale (barChartMultiSeries.yScale v)
      .> component.zScale (barChartMultiSeries.zScale v);
    component.barsMultiSeries
      .> component.xScale (barChartMultiSeries.xScale v)
      .> component.yScale (barChartMultiSeries.yScale v)
      .> component.zScale (barChartMultiSeries.zScale v)
      .> component.colors (barChartMultiSeries.colors v) ].

(** When the step returns, it has called the sub-components [cs], in that
    order, and no other. *)
Definition adds {V A} (cs : list component.instance) (m : M V A) : Prop :=
  ∀ v d, is_Some (m v d).2 → handed (m v d).1.2 = handed d ++ cs.

(** An element that is bound to chart data; a path that leads below the
    element it starts from; scenes that are [n] and all bound to chart
    data. *)
Definition carries_data (n : Node) : Prop :=
  ∃ ds, bound n = Some (Dataset ds).

Definition inner (w : option (list nat)) : Prop := w ≠ Some [].

Definition data_scenes {V} (n : nat) : V → dom → Prop :=
  λ _ d, length (scenes d) = n ∧ Forall carries_data (scenes d).

(** The variables of two charts are the same but for [width], [height] and
    [debug]. *)
Definition vertical_but_canvas (a b : barChartVertical.vars) : Prop :=
  barChartVertical.set_width 0
    (barChartVertical.set_height 0 (barChartVertical.set_debug false a)) =
  barChartVertical.set_width 0
    (barChartVertical.set_height 0 (barChartVertical.set_debug false b)).

Definition multi_but_canvas (a b : barChartMultiSeries.vars) : Prop :=
  barChartMultiSeries.set_width 0
    (barChartMultiSeries.set_height 0 (barChartMultiSeries.set_debug false a)) =
  barChartMultiSeries.set_width 0
    (barChartMultiSeries.set_height 0 (barChartMultiSeries.set_debug false b)).

(** The variables of two charts, which have an x-scale and a y-scale, are
    the same but for [dimensions]. *)
Definition vertical_but_dimensions (a b : barChartVertical.vars) : Prop :=
  barChartVertical.set_dimensions (Xyz 0 0 0) a =
    barChartVertical.set_dimensions (Xyz 0 0 0) b ∧
  is_Some (barChartVertical.xScale a) ∧
  is_Some (barChartVertical.yScale a).

(** The scenes have the tags [ts], in that order. *)
Definition tagged {V} (ts : list string) : V → dom → Prop :=
  λ _ d, tag <$> scenes d = ts.

(** The scene [sc] has the layers [names]: its first children are groups,
    one per name and in the order of the names, each with its name among
    its classes. *)
Definition layered (names : list string) (sc : Node) : Prop :=
  ∀ k name, names !! k = Some name →
    ∃ g, children sc !! k = Some g ∧ tag g = "group" ∧ name ∈ classes g.

(** Invariants of the scenes: every scene is a [scene] element with the
    layers [names]; the paths of a sub-selection lead below the scenes. *)
Definition all_layered {V} (names : list string) : V → dom → Prop :=
  λ _ d, Forall (λ sc, tag sc = "scene" ∧ layered names sc) (scenes d).

Definition layered_inner {V} (names : list string)
    (sub : list (option (list nat))) : V → dom → Prop :=
  λ _ d,
    Forall (λ sc, tag sc = "scene" ∧ layered names sc) (scenes d) ∧
    Forall inner sub.

Create HintDb steps.

(** * Properties *)

Section Steps.
Context {V : Type}.

Lemma hoare_weaken {A} (P P' : V → dom → Prop) (m : M V A)
    (Q Q' : option A → V → dom → Prop) :
  hoare P' m Q' →
  (∀ v d, P v d → P' v d) →
  (∀ r v d, Q' r v d → Q r v d) →
  hoare P m Q.
Proof. intros Hm HP HQ v d Hv. apply HQ, Hm, HP, Hv. Qed.

Lemma hoare_ret {A} (a : A) (P : V → dom → Prop) :
  hoare P (ret a) (λ r v d, r = Some a ∧ P v d).
Proof. intros v d Hv. simpl. auto. Qed.

Lemma hoare_throw {A} (P : V → dom → Prop) :
  hoare P (throw (A := A)) (λ r v d, r = None ∧ P v d).
Proof. intros v d Hv. simpl. auto. Qed.

Lemma hoare_get (P : V → dom → Prop) :
  hoare P get (λ r v d, r = Some v ∧ P v d).
Proof. intros v d Hv. simpl. auto. Qed.

Lemma hoare_bind {A B} (P : V → dom → Prop) (m : M V A) (k : A → M V B)
    (Q1 : option A → V → dom → Prop) (Q : option B → V → dom → Prop) :
  hoare P m Q1 →
  (∀ a, hoare (Q1 (Some a)) (k a) Q) →
  (∀ v d, Q1 None v d → Q None v d) →
  hoare P (bind m k) Q.
Proof.
  intros Hm Hk Hthrow v d Hv. specialize (Hm v d Hv). unfold bind.
  destruct (m v d) as [[v' d'] [a|]]; simpl in *.
  - apply Hk, Hm.
  - apply Hthrow, Hm.
Qed.

Lemma bind_assoc {A B C} (m : M V A) (k : A → M V B) (k' : B → M V C) v d :
  bind (bind m k) k' v d = bind m (λ a, bind (k a) k') v d.
Proof.
  unfold bind. destruct (m v d) as [[v' d'] [a|]]; reflexivity.
Qed.

Lemma keeps_bind {A B} (I : V → dom → Prop) (m : M V A) (k : A → M V B) :
  keeps I m → (∀ a, keeps I (k a)) → keeps I (bind m k).
Proof. intros Hm Hk. eapply hoare_bind; [exact Hm | exact Hk | auto]. Qed.

Lemma keeps_ret {A} (I : V → dom → Prop) (a : A) : keeps I (ret a).
Proof. intros v d Hv. exact Hv. Qed.

Lemma keeps_throw {A} (I : V → dom → Prop) : keeps I (throw (A := A)).
Proof. intros v d Hv. exact Hv. Qed.

Lemma keeps_get (I : V → dom → Prop) : keeps I get.
Proof. intros v d Hv. exact Hv. Qed.

Lemma dom_only_on_dom {A} (f : dom → dom * option A) :
  dom_only (V := V) (on_dom f).
Proof. intros v d. unfold on_dom. by destruct (f d). Qed.

Lemma dom_only_ret {A} (a : A) : dom_only (V := V) (ret a).
Proof. by intros v d. Qed.

Lemma dom_only_throw {A} : dom_only (V := V) (throw (A := A)).
Proof. by intros v d. Qed.

Lemma dom_only_bind {A B} (m : M V A) (k : A → M V B) :
  dom_only m → (∀ a, dom_only (k a)) → dom_only (bind m k).
Proof.
  intros Hm Hk v d. unfold bind.
  destruct (Hm v d) as [Hv Hd].
  destruct (m v d) as [[v1 d1] r1] eqn:E1; simpl in *; subst v1.
  split.
  - destruct r1 as [a|]; [apply Hk | done].
  - intros v'. specialize (Hd v'). destruct (Hm v' d) as [Hv' _].
    destruct (m v' d) as [[v2 d2] r2]; simpl in *.
    destruct Hd as [-> ->]. subst v2.
    destruct r1 as [a|]; [| done].
    apply Hk.
Qed.

(** A step on the scenes alone gives the same scenes and result whatever
    the variables are, and leaves the variables. *)
Lemma dom_only_run {A} (m : M V A) (v v' : V) (d : dom) :
  dom_only m →
  m v' d = (v', (m v d).1.2, (m v d).2).
Proof.
  intros Hm. destruct (Hm v d) as [_ Hd]. destruct (Hd v') as [H1 H2].
  destruct (Hm v' d) as [Hv' _].
  destruct (m v' d) as [[v2 d2] r2]; simpl in *. by subst.
Qed.

Lemma dom_only_keeps_vars {A} (m : M V A) (P : V → Prop) :
  dom_only m → keeps (λ v _, P v) m.
Proof. intros Hm v d Hv. destruct (Hm v d) as [-> _]. exact Hv. Qed.

End Steps.

Section CallSteps.
Context `{component.Render} {V : Type}.

Lemma call_dom_only c : dom_only (V := V) (call c).
Proof. apply dom_only_on_dom. Qed.

Lemma append_child_dom_only name a : dom_only (V := V) (append_child name a).
Proof. apply dom_only_on_dom. Qed.

Lemma select_dom_only name : dom_only (V := V) (select name).
Proof. apply dom_only_on_dom. Qed.

Lemma datum_dom_only data sub : dom_only (V := V) (datum data sub).
Proof. apply dom_only_on_dom. Qed.

Lemma call_at_dom_only c sub : dom_only (V := V) (call_at c sub).
Proof. apply dom_only_on_dom. Qed.

Lemma keeps_each_from (I : V → dom → Prop) body idx :
  (∀ data, keeps I (body data)) → keeps I (each_from body idx).
Proof.
  intros Hbody. induction idx as [|i idx IH]; simpl.
  - apply keeps_ret.
  - apply keeps_bind.
    + intros v d Hv. exact Hv.
    + intros data. apply keeps_bind; [apply Hbody | intros _; exact IH].
Qed.

Lemma keeps_each (I : V → dom → Prop) body :
  (∀ data, keeps I (body data)) → keeps I (each body).
Proof. intros Hbody v d Hv. unfold each. by apply keeps_each_from. Qed.

Lemma keeps_and {A} (I J : V → dom → Prop) (m : M V A) :
  keeps I m → keeps J m → keeps (λ v d, I v d ∧ J v d) m.
Proof. intros HI HJ v d [Hi Hj]. split; [by apply HI | by apply HJ]. Qed.

Lemma keeps_on_vars (I : V → dom → Prop) (f : V → option V) :
  (∀ v v' d, f v = Some v' → I v d → I v' d) → keeps I (on_vars f).
Proof.
  intros Hf v d Hv. unfold on_vars.
  destruct (f v) eqn:E; simpl; eauto.
Qed.

(** The scenes stay as many as they are. *)
Lemma call_each_length c s : length (call_each c s).1 = length s.
Proof.
  induction s as [|n s IH]; simpl; [done |].
  destruct (component.run c n) as [n' []]; simpl; [| done].
  destruct (call_each c s); simpl in *. by rewrite IH.
Qed.

Lemma call_each_at_length c s sub : length (call_each_at c s sub).1 = length s.
Proof.
  revert sub. induction s as [|n s IH]; intros [|w sub]; simpl; try done.
  destruct (run_at c n w) as [n' []]; simpl; [| done].
  specialize (IH sub). destruct (call_each_at c s sub); simpl in *.
  by rewrite IH.
Qed.

Lemma datum_each_length data s sub : length (datum_each data s sub) = length s.
Proof.
  revert sub. induction s as [|n s IH]; intros [|w sub]; simpl; try done.
  by rewrite IH.
Qed.

Lemma as_many_call n c : keeps (V := V) (as_many n) (call c).
Proof.
  intros v d Hd. unfold call, on_dom, as_many in *.
  pose proof (call_each_length c (scenes d)) as Hl.
  destruct (call_each c (scenes d)); simpl in *. congruence.
Qed.

Lemma as_many_call_at n c sub : keeps (V := V) (as_many n) (call_at c sub).
Proof.
  intros v d Hd. unfold call_at, on_dom, as_many in *.
  pose proof (call_each_at_length c (scenes d) sub) as Hl.
  destruct (call_each_at c (scenes d) sub); simpl in *. congruence.
Qed.

Lemma as_many_append_child n name a : keeps (V := V) (as_many n) (append_child name a).
Proof. intros v d Hd. unfold as_many in *. simpl. by rewrite length_fmap. Qed.

Lemma as_many_select n name : keeps (V := V) (as_many n) (select name).
Proof. intros v d Hd. unfold as_many in *. simpl. by rewrite !length_fmap. Qed.

Lemma as_many_datum n data sub : keeps (V := V) (as_many n) (datum data sub).
Proof.
  intros v d Hd. unfold as_many in *. simpl. by rewrite datum_each_length.
Qed.

Section Logged.
Variable P : component.instance → Prop.

Lemma logged_call c : P c → keeps (V := V) (logged P) (call c).
Proof.
  intros Hc v d Hd. unfold call, on_dom, logged in *.
  destruct (call_each c (scenes d)); simpl.
  apply Forall_app. split; [exact Hd | by constructor].
Qed.

Lemma logged_call_at c sub : P c → keeps (V := V) (logged P) (call_at c sub).
Proof.
  intros Hc v d Hd. unfold call_at, on_dom, logged in *.
  destruct (call_each_at c (scenes d) sub); simpl.
  apply Forall_app. split; [exact Hd | by constructor].
Qed.

Lemma logged_append_child name a :
  keeps (V := V) (logged P) (append_child name a).
Proof. intros v d Hd. exact Hd. Qed.

Lemma logged_select name : keeps (V := V) (logged P) (select name).
Proof. intros v d Hd. exact Hd. Qed.

Lemma logged_datum data sub : keeps (V := V) (logged P) (datum data sub).
Proof. intros v d Hd. exact Hd. Qed.

End Logged.

End CallSteps.

#[local] Hint Resolve call_dom_only append_child_dom_only select_dom_only
  datum_dom_only call_at_dom_only dom_only_ret dom_only_throw : steps.

Ltac dom_only_steps :=
  repeat first
    [ apply dom_only_bind; [| intros ? ]
    | solve [ eauto with steps ]
    | match goal with |- dom_only (match ?x with _ => _ end) => destruct x end ].

Section Accessors.
Context {V A : Type}.

(** An accessor made of a reader and a writer that agree round-trips. *)
Lemma accessor_round_trips (read : V → A) (write : A → V → V) :
  (∀ v s, read (write v s) = v) →
  round_trips (λ this, accessor read write this) ∧
  round_trips (λ _, accessor read write Chart).
Proof. intros Hrw. split; intros v s; simpl; by rewrite Hrw. Qed.

End Accessors.

(** C3: on either chart, for every accessor ([width], [height],
    [dimensions], [xScale], [yScale], [zScale], [colorScale], [colors],
    [debug]) and every value, the call with the value on the chart returns
    the chart, and the call without arguments that follows returns that
    value. *)
Theorem accessors_round_trip :
  (round_trips barChartVertical.my_width ∧
   round_trips barChartVertical.my_height ∧
   round_trips barChartVertical.my_dimensions ∧
   round_trips barChartVertical.my_xScale ∧
   round_trips barChartVertical.my_yScale ∧
   round_trips barChartVertical.my_colorScale ∧
   round_trips barChartVertical.my_colors ∧
   round_trips barChartVertical.my_debug) ∧
  (round_trips barChartMultiSeries.my_width ∧
   round_trips barChartMultiSeries.my_height ∧
   round_trips barChartMultiSeries.my_dimensions ∧
   round_trips barChartMultiSeries.my_xScale ∧
   round_trips barChartMultiSeries.my_yScale ∧
   round_trips barChartMultiSeries.my_zScale ∧
   round_trips barChartMultiSeries.my_colorScale ∧
   round_trips barChartMultiSeries.my_colors ∧
   round_trips barChartMultiSeries.my_debug).
Proof.
  split; repeat split;
    solve [ eapply (proj1 (accessor_round_trips _ _ _))
          | eapply (proj2 (accessor_round_trips _ _ _)) ].
  Unshelve. all: by intros v []. 
Qed.

(** C4: on a chart that was just made, every accessor called without
    arguments returns the default: 500 for [width] and [height], 40 in each
    of the three dimensions, the five colours, [false] for [debug], and
    [undefined] for every scale. *)
Theorem accessors_default :
  let v := barChartVertical.barChartVertical in
  let m := barChartMultiSeries.barChartMultiSeries in
  let palette := ["green"; "red"; "yellow"; "steelblue"; "orange"] in
  (barChartVertical.my_width Chart [] v = (v, Value 500) ∧
   barChartVertical.my_height Chart [] v = (v, Value 500) ∧
   barChartVertical.my_dimensions Chart [] v = (v, Value (Xyz 40 40 40)) ∧
   barChartVertical.my_colors Chart [] v = (v, Value palette) ∧
   barChartVertical.my_debug Chart [] v = (v, Value false) ∧
   barChartVertical.my_xScale Chart [] v = (v, Value None) ∧
   barChartVertical.my_yScale Chart [] v = (v, Value None) ∧
   barChartVertical.my_colorScale Chart [] v = (v, Value None)) ∧
  (barChartMultiSeries.my_width Chart [] m = (m, Value 500) ∧
   barChartMultiSeries.my_height Chart [] m = (m, Value 500) ∧
   barChartMultiSeries.my_dimensions Chart [] m = (m, Value (Xyz 40 40 40)) ∧
   barChartMultiSeries.my_colors Chart [] m = (m, Value palette) ∧
   barChartMultiSeries.my_debug Chart [] m = (m, Value false) ∧
   barChartMultiSeries.my_xScale Chart [] m = (m, Value None) ∧
   barChartMultiSeries.my_yScale Chart [] m = (m, Value None) ∧
   barChartMultiSeries.my_zScale Chart [] m = (m, Value None) ∧
   barChartMultiSeries.my_colorScale Chart [] m = (m, Value None)).
Proof. repeat split. Qed.

(** ** The elements a chart makes *)

Lemma foldl_adopt (parent : Node) (new : list Node) :
  foldl adopt parent new =
  Elem (tag parent) (attrs parent) (bound parent) (children parent ++ new).
Proof.
  revert parent. induction new as [|n new IH]; intros parent; simpl.
  - destruct parent; simpl. by rewrite app_nil_r.
  - rewrite IH. simpl. by rewrite <- app_assoc.
Qed.

Lemma x3d_elements_eq (w h : Z) (debug : bool) (selection : list Node) :
  (let x3d :=
     selection .> d3_selection.append "x3d"
       .> d3_selection.attr "width" (pretty w +:+ "px")
       .> d3_selection.attr "height" (pretty h +:+ "px") in
   if debug
   then x3d .> d3_selection.attr "showLog" "true"
            .> d3_selection.attr "showStat" "true"
   else x3d) = x3d_elements w h debug selection.
Proof.
  unfold d3_selection.append, d3_selection.attr, x3d_elements, x3d_attrs.
  destruct debug; rewrite <- !list_fmap_compose; reflexivity.
Qed.

Lemma scaffold_eq (cls : string) (layers : list string) (x3d : list Node) :
  x3d .> d3_selection.append "scene" .> d3_selection.classed cls
      .> d3_selection.enter_append_classed "group" layers
  = scaffold cls layers x3d.
Proof.
  unfold d3_selection.append, d3_selection.classed,
    d3_selection.enter_append_classed, scaffold.
  rewrite <- !list_fmap_compose. apply list_fmap_ext. intros _ e _. simpl.
  rewrite foldl_adopt. unfold d3_selection.entering. simpl.
  rewrite drop_0. reflexivity.
Qed.

Section VerticalRender.
Import barChartVertical.
Context `{d3.Nice} `{component.Render}.

Lemma vertical_my_eq (selection : list Node) (s : vars) :
  my selection s =
  let x3d := x3d_elements (width s) (height s) (debug s) selection in
  finish selection x3d
    ((call (component.viewpoint .> component.quickView "left") ;;
      each each_scene) s
       (Dom (scaffold (classed s) ["xAxis"; "yAxis"; "chart"] x3d) [])).
Proof.
  unfold my. cbv zeta. rewrite x3d_elements_eq, scaffold_eq. reflexivity.
Qed.

Lemma vertical_draw_dom_only s data : dom_only (draw s data).
Proof. unfold draw. dom_only_steps. Qed.

(** An invariant of the variables that [init] keeps holds after [my],
    and what holds of the viewpoint and of the sub-components that [draw]
    calls holds of every sub-component that [my] called. *)
Lemma vertical_my_inv (I : vars → Prop) (P : component.instance → Prop)
    (selection : list Node) (s : vars) :
  (∀ data v v', init data v = Some v' → I v → I v') →
  P (component.viewpoint .> component.quickView "left") →
  (∀ v data, I v → keeps (logged P) (draw v data)) →
  I s →
  I (vars_after (my selection s)) ∧ Forall P (called (my selection s)).
Proof.
  intros Hinit Hvp Hdraw Hs. rewrite vertical_my_eq. cbv zeta.
  match goal with |- context [finish _ _ (?m s ?d)] =>
    assert (keeps (λ v0 d0, I v0 ∧ logged P v0 d0) m) as Hm;
      [| assert (I s ∧ logged P s d) as H1 by (split; [done | constructor]);
         specialize (Hm s d H1);
         destruct (m s d) as [[v' d'] r]; exact Hm ]
  end.
  apply keeps_bind.
  { apply keeps_and; [apply dom_only_keeps_vars, call_dom_only |].
    by apply logged_call. }
  intros _. apply keeps_each. intros data. unfold each_scene.
  apply keeps_bind.
  - apply keeps_on_vars. intros v v' d Hv [Hi Hl]. split; [eauto | exact Hl].
  - intros _ v d [Hv Hd]. unfold bind, get. split.
    + by apply (dom_only_keeps_vars _ I (vertical_draw_dom_only v data) v d).
    + by apply (Hdraw v data Hv v d).
Qed.

Lemma vertical_my_keeps (I : vars → Prop) (selection : list Node) (s : vars) :
  (∀ data v v', init data v = Some v' → I v → I v') →
  I s → I (vars_after (my selection s)).
Proof.
  intros Hinit Hs.
  apply (vertical_my_inv I (λ _, True)); [done | done | | done].
  intros v data _ v0 d _. unfold logged. apply Forall_forall. done.
Qed.

End VerticalRender.

Section MultiRender.
Import barChartMultiSeries.
Context `{d3.Nice} `{component.Render}.

Lemma multi_my_eq (selection : list Node) (s : vars) :
  my selection s =
  let x3d := x3d_elements (width s) (height s) (debug s) selection in
  finish selection x3d
    ((call (component.viewpoint
              .> component.centerOfRotation
                   [x (dimensions s) / 2; y (dimensions s) / 2;
                    z (dimensions s) / 2]%Q) ;;
      append_child "directionallight" directionallight ;;
      each each_scene) s
       (Dom (scaffold (classed s) ["axis"; "chart"] x3d) [])).
Proof.
  unfold my. cbv zeta. rewrite x3d_elements_eq, scaffold_eq. reflexivity.
Qed.

Lemma multi_draw_dom_only s data : dom_only (draw s data).
Proof. unfold draw. dom_only_steps. Qed.

Lemma multi_my_inv (I : vars → Prop) (P : component.instance → Prop)
    (selection : list Node) (s : vars) :
  (∀ data v v', init data v = Some v' → I v → I v') →
  P (component.viewpoint
       .> component.centerOfRotation
            [x (dimensions s) / 2; y (dimensions s) / 2;
             z (dimensions s) / 2]%Q) →
  (∀ v data, I v → keeps (logged P) (draw v data)) →
  I s →
  I (vars_after (my selection s)) ∧ Forall P (called (my selection s)).
Proof.
  intros Hinit Hvp Hdraw Hs. rewrite multi_my_eq. cbv zeta.
  match goal with |- context [finish _ _ (?m s ?d)] =>
    assert (keeps (λ v0 d0, I v0 ∧ logged P v0 d0) m) as Hm;
      [| assert (I s ∧ logged P s d) as H1 by (split; [done | constructor]);
         specialize (Hm s d H1);
         destruct (m s d) as [[v' d'] r]; exact Hm ]
  end.
  apply keeps_bind.
  { apply keeps_and; [apply dom_only_keeps_vars, call_dom_only |].
    by apply logged_call. }
  intros _. apply keeps_bind.
  { apply keeps_and; [apply dom_only_keeps_vars, append_child_dom_only |].
    apply logged_append_child. }
  intros _. apply keeps_each. intros data. unfold each_scene.
  apply keeps_bind.
  - apply keeps_on_vars. intros v v' d Hv [Hi Hl]. split; [eauto | exact Hl].
  - intros _ v d [Hv Hd]. unfold bind, get. split.
    + by apply (dom_only_keeps_vars _ I (multi_draw_dom_only v data) v d).
    + by apply (Hdraw v data Hv v d).
Qed.

Lemma multi_my_keeps (I : vars → Prop) (selection : list Node) (s : vars) :
  (∀ data v v', init data v = Some v' → I v → I v') →
  I s → I (vars_after (my selection s)).
Proof.
  intros Hinit Hs.
  apply (multi_my_inv I (λ _, True)); [done | done | | done].
  intros v data _ v0 d _. unfold logged. apply Forall_forall. done.
Qed.

Lemma multi_init_yScale data s s' :
  init data s = Some s' → yScale s' = yScale s.
Proof.
  unfold init. destruct (dataTransform.summarize data); simpl; [| done].
  intros [= <-].
  by destruct s as [? ? ? ? ? ? [?|] [?|] [?|] [?|]].
Qed.

End MultiRender.

(** C1: in the multi-series chart, when the caller has supplied no y-scale,
    [init] leaves [yScale] undefined: the getter [my.yScale()] returns
    [undefined] after [init] has run, and after a whole call of the chart.
    [init] does run: on a dataset it returns. *)
Theorem multi_yScale_stays_undefined `{d3.Nice} `{component.Render}
    (s : barChartMultiSeries.vars) :
  barChartMultiSeries.yScale s = None →
  (∀ d, ∃ s', barChartMultiSeries.init (Some (Dataset d)) s = Some s') ∧
  (∀ data s', barChartMultiSeries.init data s = Some s' →
     barChartMultiSeries.my_yScale Chart [] s' = (s', Value None)) ∧
  (∀ selection,
     let s' := vars_after (barChartMultiSeries.my selection s) in
     barChartMultiSeries.my_yScale Chart [] s' = (s', Value None)).
Proof.
  intros Hy. split; [| split].
  - intros d. unfold barChartMultiSeries.init. simpl. eauto.
  - intros data s' Hinit. unfold barChartMultiSeries.my_yScale. simpl.
    by rewrite (multi_init_yScale _ _ _ Hinit), Hy.
  - intros selection s'. unfold barChartMultiSeries.my_yScale. simpl.
    f_equal. f_equal. subst s'.
    apply (multi_my_keeps (λ v, barChartMultiSeries.yScale v = None)); [| done].
    intros data v v' Hinit Hv. by rewrite (multi_init_yScale _ _ _ Hinit).
Qed.

Ltac logged_steps :=
  repeat first
    [ apply keeps_bind; [| intros ? ]
    | apply logged_select
    | apply logged_datum
    | apply logged_append_child
    | apply keeps_ret
    | apply keeps_throw
    | apply logged_call_at
    | apply logged_call ].

Ltac hands_settings :=
  split; intros ?; cbn;
  rewrite ?elem_of_cons, ?elem_of_nil; intuition congruence.

Section Supplied.
Context `{d3.Nice} `{component.Render}.

Lemma vertical_init_keeps data (s s' : barChartVertical.vars) :
  barChartVertical.init data s = Some s' →
  (∀ v, barChartVertical.xScale s = Some v →
        barChartVertical.xScale s' = Some v) ∧
  (∀ v, barChartVertical.yScale s = Some v →
        barChartVertical.yScale s' = Some v) ∧
  (∀ v, barChartVertical.colorScale s = Some v →
        barChartVertical.colorScale s' = Some v).
Proof.
  unfold barChartVertical.init.
  destruct (dataTransform.summarize data); simpl; [| done].
  intros [= <-].
  destruct s as [? ? ? ? ? ? [?|] [?|] [?|]]; simpl; done.
Qed.

Lemma multi_init_keeps data (s s' : barChartMultiSeries.vars) :
  barChartMultiSeries.init data s = Some s' →
  (∀ v, barChartMultiSeries.xScale s = Some v →
        barChartMultiSeries.xScale s' = Some v) ∧
  (∀ v, barChartMultiSeries.yScale s = Some v →
        barChartMultiSeries.yScale s' = Some v) ∧
  (∀ v, barChartMultiSeries.zScale s = Some v →
        barChartMultiSeries.zScale s' = Some v) ∧
  (∀ v, barChartMultiSeries.colorScale s = Some v →
        barChartMultiSeries.colorScale s' = Some v).
Proof.
  unfold barChartMultiSeries.init.
  destruct (dataTransform.summarize data); simpl; [| done].
  intros [= <-].
  destruct s as [? ? ? ? ? ? [?|] [?|] [?|] [?|]]; simpl; done.
Qed.

Lemma vertical_draw_hands_x v data sc :
  barChartVertical.xScale v = Some sc →
  keeps (logged (hands "x" "xScale" (Some sc))) (barChartVertical.draw v data).
Proof.
  intros Hx. unfold barChartVertical.draw. rewrite Hx.
  destruct (barChartVertical.yScale v); logged_steps; hands_settings.
Qed.

Lemma vertical_draw_hands_y v data sc :
  barChartVertical.yScale v = Some sc →
  keeps (logged (hands "y" "yScale" (Some sc))) (barChartVertical.draw v data).
Proof.
  intros Hy. unfold barChartVertical.draw. rewrite Hy.
  logged_steps; hands_settings.
Qed.

Lemma multi_draw_hands_x v data sc :
  barChartMultiSeries.xScale v = Some sc →
  keeps (logged (hands "x" "xScale" (Some sc)))
        (barChartMultiSeries.draw v data).
Proof.
  intros Hx. unfold barChartMultiSeries.draw. rewrite Hx.
  logged_steps; hands_settings.
Qed.

Lemma multi_draw_hands_y v data sc :
  barChartMultiSeries.yScale v = Some sc →
  keeps (logged (hands "y" "yScale" (Some sc)))
        (barChartMultiSeries.draw v data).
Proof.
  intros Hy. unfold barChartMultiSeries.draw. rewrite Hy.
  logged_steps; hands_settings.
Qed.

Lemma multi_draw_hands_z v data sc :
  barChartMultiSeries.zScale v = Some sc →
  keeps (logged (hands "z" "zScale" (Some sc)))
        (barChartMultiSeries.draw v data).
Proof.
  intros Hz. unfold barChartMultiSeries.draw. rewrite Hz.
  logged_steps; hands_settings.
Qed.

End Supplied.

(** C2: a scale that the caller has supplied before the chart is called is
    the scale of the chart after the call, for [xScale], [yScale], [zScale]
    and [colorScale] of either chart: the branch of [init] that derives a
    scale leaves it.  Every sub-component called during that call that was
    given a scale for that direction was given the supplied one. *)
Theorem supplied_scale_is_kept `{d3.Nice} `{component.Render}
    (selection : list Node) :
  (∀ s : barChartVertical.vars,
     let r := barChartVertical.my selection s in
     (∀ sc, barChartVertical.xScale s = Some sc →
        barChartVertical.xScale (vars_after r) = Some sc ∧
        Forall (hands "x" "xScale" (Some sc)) (called r)) ∧
     (∀ sc, barChartVertical.yScale s = Some sc →
        barChartVertical.yScale (vars_after r) = Some sc ∧
        Forall (hands "y" "yScale" (Some sc)) (called r)) ∧
     (∀ sc, barChartVertical.colorScale s = Some sc →
        barChartVertical.colorScale (vars_after r) = Some sc)) ∧
  (∀ s : barChartMultiSeries.vars,
     let r := barChartMultiSeries.my selection s in
     (∀ sc, barChartMultiSeries.xScale s = Some sc →
        barChartMultiSeries.xScale (vars_after r) = Some sc ∧
        Forall (hands "x" "xScale" (Some sc)) (called r)) ∧
     (∀ sc, barChartMultiSeries.yScale s = Some sc →
        barChartMultiSeries.yScale (vars_after r) = Some sc ∧
        Forall (hands "y" "yScale" (Some sc)) (called r)) ∧
     (∀ sc, barChartMultiSeries.zScale s = Some sc →
        barChartMultiSeries.zScale (vars_after r) = Some sc ∧
        Forall (hands "z" "zScale" (Some sc)) (called r)) ∧
     (∀ sc, barChartMultiSeries.colorScale s = Some sc →
        barChartMultiSeries.colorScale (vars_after r) = Some sc)).
Proof.
  split; intros s r; subst r;
    [ refine (conj _ (conj _ _)) | refine (conj _ (conj _ (conj _ _))) ];
    intros sc Hsc.
  - apply (vertical_my_inv (λ v, barChartVertical.xScale v = Some sc));
      [ intros data v v' Hi; apply (vertical_init_keeps _ _ _ Hi)
      | hands_settings | intros; by apply vertical_draw_hands_x | done ].
  - apply (vertical_my_inv (λ v, barChartVertical.yScale v = Some sc));
      [ intros data v v' Hi; apply (vertical_init_keeps _ _ _ Hi)
      | hands_settings | intros; by apply vertical_draw_hands_y | done ].
  - apply (vertical_my_keeps (λ v, barChartVertical.colorScale v = Some sc));
      [ intros data v v' Hi; apply (vertical_init_keeps _ _ _ Hi) | done ].
  - apply (multi_my_inv (λ v, barChartMultiSeries.xScale v = Some sc));
      [ intros data v v' Hi; apply (multi_init_keeps _ _ _ Hi)
      | hands_settings | intros; by apply multi_draw_hands_x | done ].
  - apply (multi_my_inv (λ v, barChartMultiSeries.yScale v = Some sc));
      [ intros data v v' Hi; apply (multi_init_keeps _ _ _ Hi)
      | hands_settings | intros; by apply multi_draw_hands_y | done ].
  - apply (multi_my_inv (λ v, barChartMultiSeries.zScale v = Some sc));
      [ intros data v v' Hi; apply (multi_init_keeps _ _ _ Hi)
      | hands_settings | intros; by apply multi_draw_hands_z | done ].
  - apply (multi_my_keeps (λ v, barChartMultiSeries.colorScale v = Some sc));
      [ intros data v v' Hi; apply (multi_init_keeps _ _ _ Hi) | done ].
Qed.

Ltac as_many_steps :=
  repeat first
    [ apply keeps_bind; [| intros ? ]
    | apply as_many_select
    | apply as_many_datum
    | apply as_many_append_child
    | apply as_many_call_at
    | apply as_many_call
    | apply keeps_ret
    | apply keeps_throw ].

Section Documents.
Context `{d3.Nice} `{component.Render}.

Lemma vertical_draw_as_many n v data :
  keeps (as_many n) (barChartVertical.draw v data).
Proof.
  unfold barChartVertical.draw.
  destruct (barChartVertical.yScale v); as_many_steps.
Qed.

Lemma multi_draw_as_many n v data :
  keeps (as_many n) (barChartMultiSeries.draw v data).
Proof. unfold barChartMultiSeries.draw. as_many_steps. Qed.

(** The document after [my]: under each element of the selection a new
    last child [x3d], which holds one scene. *)
Lemma attach_x3d (w h : Z) (debug : bool) (selection scenes' : list Node) :
  length scenes' = length selection →
  d3_selection.attach selection
    (d3_selection.attach (x3d_elements w h debug selection) scenes') =
  zip_with
    (λ c sc, adopt c (Elem "x3d" (x3d_attrs w h debug) (bound c) [sc]))
    selection scenes'.
Proof.
  unfold d3_selection.attach, x3d_elements.
  revert scenes'. induction selection as [|c sel IH]; intros [|sc scs];
    simpl; try done.
  intros [= Hl]. by rewrite IH.
Qed.

Lemma vertical_document (selection : list Node) (s : barChartVertical.vars) :
  ∃ scenes' : list Node,
    length scenes' = length selection ∧
    document (barChartVertical.my selection s) =
    zip_with
      (λ c sc,
         adopt c (Elem "x3d"
                    (x3d_attrs (barChartVertical.width s)
                       (barChartVertical.height s) (barChartVertical.debug s))
                    (bound c) [sc]))
      selection scenes'.
Proof.
  rewrite vertical_my_eq. cbv zeta.
  match goal with |- context [finish _ _ (?m s ?d)] =>
    assert (keeps (as_many (length selection)) m) as Hm;
      [| assert (as_many (length selection) s d) as H1;
         [| specialize (Hm s d H1); destruct (m s d) as [[v' d'] r] ] ]
  end.
  - apply keeps_bind; [apply as_many_call |].
    intros _. apply keeps_each. intros data.
    unfold barChartVertical.each_scene.
    apply keeps_bind; [by apply keeps_on_vars |].
    intros _ v d Hd. apply vertical_draw_as_many, Hd.
  - unfold as_many, scaffold, x3d_elements. simpl. by rewrite !length_fmap.
  - exists (scenes d'). split; [exact Hm |].
    simpl. by apply attach_x3d.
Qed.

Lemma multi_document (selection : list Node) (s : barChartMultiSeries.vars) :
  ∃ scenes' : list Node,
    length scenes' = length selection ∧
    document (barChartMultiSeries.my selection s) =
    zip_with
      (λ c sc,
         adopt c (Elem "x3d"
                    (x3d_attrs (barChartMultiSeries.width s)
                       (barChartMultiSeries.height s)
                       (barChartMultiSeries.debug s))
                    (bound c) [sc]))
      selection scenes'.
Proof.
  rewrite multi_my_eq. cbv zeta.
  match goal with |- context [finish _ _ (?m s ?d)] =>
    assert (keeps (as_many (length selection)) m) as Hm;
      [| assert (as_many (length selection) s d) as H1;
         [| specialize (Hm s d H1); destruct (m s d) as [[v' d'] r] ] ]
  end.
  - apply keeps_bind; [apply as_many_call |].
    intros _. apply keeps_bind; [apply as_many_append_child |].
    intros _. apply keeps_each. intros data.
    unfold barChartMultiSeries.each_scene.
    apply keeps_bind; [by apply keeps_on_vars |].
    intros _ v d Hd. apply multi_draw_as_many, Hd.
  - unfold as_many, scaffold, x3d_elements. simpl. by rewrite !length_fmap.
  - exists (scenes d'). split; [exact Hm |].
    simpl. by apply attach_x3d.
Qed.

Lemma x3d_attrs_debug (w h : Z) (debug : bool) :
  x3d_attrs w h debug !! "showLog" = (if debug then Some "true" else None) ∧
  x3d_attrs w h debug !! "showStat" = (if debug then Some "true" else None).
Proof. unfold x3d_attrs. destruct debug; split; by simplify_map_eq. Qed.

End Documents.

(** C7: a call of either chart appends one [x3d] element to every element of
    the selection; with [debug] true that element has the attributes
    [showLog] and [showStat], both ["true"], and with [debug] false it has
    neither. *)
Theorem debug_sets_showLog_and_showStat `{d3.Nice} `{component.Render}
    (selection : list Node) (i : nat) (c : Node) :
  selection !! i = Some c →
  (∀ s : barChartVertical.vars,
     ∃ x3d : Node,
       document (barChartVertical.my selection s) !! i = Some (adopt c x3d) ∧
       tag x3d = "x3d" ∧
       attrs x3d !! "showLog" =
         (if barChartVertical.debug s then Some "true" else None) ∧
       attrs x3d !! "showStat" =
         (if barChartVertical.debug s then Some "true" else None)) ∧
  (∀ s : barChartMultiSeries.vars,
     ∃ x3d : Node,
       document (barChartMultiSeries.my selection s) !! i = Some (adopt c x3d) ∧
       tag x3d = "x3d" ∧
       attrs x3d !! "showLog" =
         (if barChartMultiSeries.debug s then Some "true" else None) ∧
       attrs x3d !! "showStat" =
         (if barChartMultiSeries.debug s then Some "true" else None)).
Proof.
  intros Hc. split; intros s.
  - destruct (vertical_document selection s) as (scenes' & Hl & ->).
    destruct (lookup_lt_is_Some_2 scenes' i) as [sc Hsc].
    { rewrite Hl. by eapply lookup_lt_Some. }
    eexists. split.
    { rewrite lookup_zip_with, Hc. simpl. by rewrite Hsc. }
    split; [reflexivity | apply x3d_attrs_debug].
  - destruct (multi_document selection s) as (scenes' & Hl & ->).
    destruct (lookup_lt_is_Some_2 scenes' i) as [sc Hsc].
    { rewrite Hl. by eapply lookup_lt_Some. }
    eexists. split.
    { rewrite lookup_zip_with, Hc. simpl. by rewrite Hsc. }
    split; [reflexivity | apply x3d_attrs_debug].
Qed.

(** ** Two calls from variables that are related *)

Section Related.
Context `{component.Render} {V : Type} (R : V → V → Prop).

Lemma related_dom_only {A} (m : M V A) : dom_only m → related R m.
Proof.
  intros Hm v1 v2 d HR.
  rewrite (dom_only_run m v1 v2 d Hm). simpl.
  destruct (Hm v1 d) as [-> _]. done.
Qed.

Lemma related_bind {A B} (m : M V A) (k : A → M V B) :
  related R m → (∀ a, related R (k a)) → related R (bind m k).
Proof.
  intros Hm Hk v1 v2 d HR. unfold bind.
  destruct (Hm v1 v2 d HR) as (HR' & Hd & Hr).
  destruct (m v1 d) as [[a1 d1] r1], (m v2 d) as [[a2 d2] r2].
  simpl in *. subst d2 r2.
  destruct r1 as [a|]; [by apply Hk | done].
Qed.

Lemma related_on_vars (f : V → option V) :
  (∀ v1 v2, R v1 v2 →
     match f v1, f v2 with
     | Some a, Some b => R a b
     | None, None => True
     | _, _ => False
     end) →
  related R (on_vars f).
Proof.
  intros Hf v1 v2 d HR. specialize (Hf v1 v2 HR). unfold on_vars.
  destruct (f v1), (f v2); simpl; done.
Qed.

Lemma related_get_then {A} (k : V → M V A) :
  (∀ v, dom_only (k v)) →
  (∀ v1 v2, R v1 v2 → k v1 = k v2) →
  related R (bind get k).
Proof.
  intros Hk Heq v1 v2 d HR. unfold bind, get.
  rewrite (Heq v1 v2 HR).
  apply (related_dom_only (k v2) (Hk v2) v1 v2 d HR).
Qed.

Lemma related_each_from body idx :
  (∀ data, related R (body data)) → related R (each_from body idx).
Proof.
  intros Hbody. induction idx as [|i idx IH]; simpl.
  - by intros v1 v2 d HR.
  - apply related_bind; [apply related_dom_only, dom_only_on_dom |].
    intros data. apply related_bind; [apply Hbody | intros _; exact IH].
Qed.

Lemma related_each body :
  (∀ data, related R (body data)) → related R (each body).
Proof. intros Hbody v1 v2 d HR. unfold each. by apply related_each_from. Qed.

End Related.

Section ColorScale.
Context `{d3.Nice} `{component.Render}.

Lemma vertical_init_but_colorScale data v1 v2 :
  vertical_but_colorScale v1 v2 →
  match barChartVertical.init data v1, barChartVertical.init data v2 with
  | Some a, Some b => vertical_but_colorScale a b
  | None, None => True
  | _, _ => False
  end.
Proof.
  unfold vertical_but_colorScale, barChartVertical.init.
  destruct (dataTransform.summarize data); simpl; [| done].
  destruct v1 as [? ? ? ? ? ? [?|] [?|] [?|]],
           v2 as [? ? ? ? ? ? [?|] [?|] [?|]];
    cbn; intros [= -> -> -> -> -> ->]; try done; intros; simplify_eq; done.
Qed.

Lemma vertical_draw_but_colorScale data v1 v2 :
  vertical_but_colorScale v1 v2 →
  barChartVertical.draw v1 data = barChartVertical.draw v2 data.
Proof.
  unfold vertical_but_colorScale, barChartVertical.draw.
  destruct v1, v2; cbn. intros [= -> -> -> -> -> -> -> ->]. reflexivity.
Qed.

Lemma multi_init_but_colorScale data v1 v2 :
  multi_but_colorScale v1 v2 →
  match barChartMultiSeries.init data v1, barChartMultiSeries.init data v2 with
  | Some a, Some b => multi_but_colorScale a b
  | None, None => True
  | _, _ => False
  end.
Proof.
  unfold multi_but_colorScale, barChartMultiSeries.init.
  destruct (dataTransform.summarize data); simpl; [| done].
  destruct v1 as [? ? ? ? ? ? [?|] [?|] [?|] [?|]],
           v2 as [? ? ? ? ? ? [?|] [?|] [?|] [?|]];
    cbn; intros [= -> -> -> -> -> ->]; try done; intros; simplify_eq; done.
Qed.

Lemma multi_draw_but_colorScale data v1 v2 :
  multi_but_colorScale v1 v2 →
  barChartMultiSeries.draw v1 data = barChartMultiSeries.draw v2 data.
Proof.
  unfold multi_but_colorScale, barChartMultiSeries.draw.
  destruct v1, v2; cbn. intros [= -> -> -> -> -> -> -> -> ->]. reflexivity.
Qed.

Lemma vertical_my_but_colorScale selection v1 v2 :
  vertical_but_colorScale v1 v2 →
  document (barChartVertical.my selection v1) =
    document (barChartVertical.my selection v2) ∧
  called (barChartVertical.my selection v1) =
    called (barChartVertical.my selection v2) ∧
  ended (barChartVertical.my selection v1) =
    ended (barChartVertical.my selection v2).
Proof.
  intros HR. rewrite !vertical_my_eq. cbv zeta.
  assert (barChartVertical.width v1 = barChartVertical.width v2 ∧
          barChartVertical.height v1 = barChartVertical.height v2 ∧
          barChartVertical.debug v1 = barChartVertical.debug v2 ∧
          barChartVertical.classed v1 = barChartVertical.classed v2)
    as (-> & -> & -> & ->).
  { destruct v1, v2. unfold vertical_but_colorScale in HR. cbn in HR.
    by simplify_eq. }
  match goal with |- context [finish _ _ (?m v1 ?d)] =>
    assert (related vertical_but_colorScale m) as Hm;
      [| destruct (Hm v1 v2 d HR) as (_ & Hd & Hr);
         destruct (m v1 d) as [[a1 d1] r1], (m v2 d) as [[a2 d2] r2];
         simpl in *; by subst ]
  end.
  apply related_bind; [apply related_dom_only, call_dom_only |].
  intros _. apply related_each. intros data.
  unfold barChartVertical.each_scene. apply related_bind.
  - apply related_on_vars. intros. by apply vertical_init_but_colorScale.
  - intros _. apply related_get_then.
    + intros v. apply vertical_draw_dom_only.
    + intros. by apply vertical_draw_but_colorScale.
Qed.

Lemma multi_my_but_colorScale selection v1 v2 :
  multi_but_colorScale v1 v2 →
  document (barChartMultiSeries.my selection v1) =
    document (barChartMultiSeries.my selection v2) ∧
  called (barChartMultiSeries.my selection v1) =
    called (barChartMultiSeries.my selection v2) ∧
  ended (barChartMultiSeries.my selection v1) =
    ended (barChartMultiSeries.my selection v2).
Proof.
  intros HR. rewrite !multi_my_eq. cbv zeta.
  assert (barChartMultiSeries.width v1 = barChartMultiSeries.width v2 ∧
          barChartMultiSeries.height v1 = barChartMultiSeries.height v2 ∧
          barChartMultiSeries.debug v1 = barChartMultiSeries.debug v2 ∧
          barChartMultiSeries.classed v1 = barChartMultiSeries.classed v2 ∧
          barChartMultiSeries.dimensions v1 = barChartMultiSeries.dimensions v2)
    as (-> & -> & -> & -> & ->).
  { destruct v1, v2. unfold multi_but_colorScale in HR. cbn in HR.
    by simplify_eq. }
  match goal with |- context [finish _ _ (?m v1 ?d)] =>
    assert (related multi_but_colorScale m) as Hm;
      [| destruct (Hm v1 v2 d HR) as (_ & Hd & Hr);
         destruct (m v1 d) as [[a1 d1] r1], (m v2 d) as [[a2 d2] r2];
         simpl in *; by subst ]
  end.
  apply related_bind; [apply related_dom_only, call_dom_only |].
  intros _.
  apply related_bind; [apply related_dom_only, append_child_dom_only |].
  intros _. apply related_each. intros data.
  unfold barChartMultiSeries.each_scene. apply related_bind.
  - apply related_on_vars. intros. by apply multi_init_but_colorScale.
  - intros _. apply related_get_then.
    + intros v. apply multi_draw_dom_only.
    + intros. by apply multi_draw_but_colorScale.
Qed.

End ColorScale.

Section Colors.
Context `{d3.Nice} `{component.Render}.

Lemma vertical_init_colors data s s' :
  barChartVertical.init data s = Some s' →
  barChartVertical.colors s' = barChartVertical.colors s.
Proof.
  unfold barChartVertical.init.
  destruct (dataTransform.summarize data); simpl; [| done].
  intros [= <-]. by destruct s as [? ? ? ? ? ? [?|] [?|] [?|]].
Qed.

Lemma multi_init_colors data s s' :
  barChartMultiSeries.init data s = Some s' →
  barChartMultiSeries.colors s' = barChartMultiSeries.colors s.
Proof.
  unfold barChartMultiSeries.init.
  destruct (dataTransform.summarize data); simpl; [| done].
  intros [= <-]. by destruct s as [? ? ? ? ? ? [?|] [?|] [?|] [?|]].
Qed.

Lemma vertical_called_colors selection s :
  Forall (given_colors (barChartVertical.colors s))
         (called (barChartVertical.my selection s)).
Proof.
  apply (vertical_my_inv
           (λ v, barChartVertical.colors v = barChartVertical.colors s)).
  - intros data v v' Hi <-. by apply vertical_init_colors with data.
  - intros ?; cbn; rewrite ?elem_of_cons, ?elem_of_nil; intuition congruence.
  - intros v data Hv. unfold barChartVertical.draw. rewrite Hv.
    destruct (barChartVertical.yScale v); logged_steps;
      intros ?; cbn; rewrite ?elem_of_cons, ?elem_of_nil; intuition congruence.
  - reflexivity.
Qed.

Lemma multi_called_colors selection s :
  Forall (given_colors (barChartMultiSeries.colors s))
         (called (barChartMultiSeries.my selection s)).
Proof.
  apply (multi_my_inv
           (λ v, barChartMultiSeries.colors v = barChartMultiSeries.colors s)).
  - intros data v v' Hi <-. by apply multi_init_colors with data.
  - intros ?; cbn; rewrite ?elem_of_cons, ?elem_of_nil; intuition congruence.
  - intros v data Hv. unfold barChartMultiSeries.draw. rewrite Hv.
    logged_steps;
      intros ?; cbn; rewrite ?elem_of_cons, ?elem_of_nil; intuition congruence.
  - reflexivity.
Qed.

End Colors.

(** C10: in both charts [colorScale] has no part in what is rendered.  Two
    calls of a chart whose variables differ only in the [colorScale] the
    caller has set leave the same document, call the same sub-components
    and end the same way; and a sub-component that is given colours is
    given the array [colors]. *)
Theorem colorScale_is_not_rendered `{d3.Nice} `{component.Render}
    (selection : list Node) :
  (∀ (s : barChartVertical.vars) (given given' : option d3.ordinal),
     let r := barChartVertical.my selection
                (barChartVertical.set_colorScale given s) in
     let r' := barChartVertical.my selection
                 (barChartVertical.set_colorScale given' s) in
     document r = document r' ∧ called r = called r' ∧ ended r = ended r' ∧
     Forall (given_colors (barChartVertical.colors s)) (called r)) ∧
  (∀ (s : barChartMultiSeries.vars) (given given' : option d3.ordinal),
     let r := barChartMultiSeries.my selection
                (barChartMultiSeries.set_colorScale given s) in
     let r' := barChartMultiSeries.my selection
                 (barChartMultiSeries.set_colorScale given' s) in
     document r = document r' ∧ called r = called r' ∧ ended r = ended r' ∧
     Forall (given_colors (barChartMultiSeries.colors s)) (called r)).
Proof.
  split; intros s given given' r r'; subst r r'.
  - destruct (vertical_my_but_colorScale selection
                (barChartVertical.set_colorScale given s)
                (barChartVertical.set_colorScale given' s))
      as (Hd & Hc & He); [by destruct s |].
    repeat split; try done.
    apply (vertical_called_colors selection
             (barChartVertical.set_colorScale given s)).
  - destruct (multi_my_but_colorScale selection
                (barChartMultiSeries.set_colorScale given s)
                (barChartMultiSeries.set_colorScale given' s))
      as (Hd & Hc & He); [by destruct s |].
    repeat split; try done.
    apply (multi_called_colors selection
             (barChartMultiSeries.set_colorScale given s)).
Qed.

(** ** Calling a chart again *)

Section Again.
Context `{component.Render} {V : Type}.
Variable init : option bound_data → V → option V.
Variable draw : V → option bound_data → M V unit.

(** [init] succeeds or fails with the data alone, and what it returns it
    returns again. *)
Hypothesis init_data :
  ∀ data v v', init data v = Some v' → ∀ w, is_Some (init data w).
Hypothesis init_settles :
  ∀ data v v', init data v = Some v' → settled init v'.
Hypothesis draw_dom_only : ∀ v data, dom_only (draw v data).

Lemma settled_init data v :
  settled init v → is_Some (init data v) → init data v = Some v.
Proof. intros Hv [v' Hv']. rewrite Hv'. f_equal. by eapply Hv. Qed.

Lemma settled_body data v :
  settled init v → keeps (λ w _, w = v) (scene_body init draw data).
Proof.
  intros Hv. unfold scene_body. apply keeps_bind.
  - apply keeps_on_vars. intros w w' _ Hw ->. by eapply Hv.
  - intros _. apply keeps_bind; [apply keeps_get |].
    intros s. apply dom_only_keeps_vars, draw_dom_only.
Qed.

Lemma settled_each_from idx v d :
  settled init v → (each_from (scene_body init draw) idx v d).1.1 = v.
Proof.
  intros Hv.
  apply (keeps_each_from (λ w _, w = v) (scene_body init draw) idx); [| done].
  intros data. by apply settled_body.
Qed.

(** After [init] the body does the same from the variables it has set. *)
Lemma body_again data v d :
  let out := scene_body init draw data v d in
  scene_body init draw data out.1.1 d = out ∧ (is_Some out.2 → settled init out.1.1).
Proof.
  unfold scene_body, bind, on_vars, get.
  destruct (init data v) as [s|] eqn:Hinit; simpl.
  - assert (init data s = Some s) as Hs.
    { apply settled_init; [by eapply init_settles | by eapply init_data]. }
    destruct (draw_dom_only s data s d) as [Hvars _].
    destruct (draw s data s d) as [[s' d'] r] eqn:Hdraw. simpl in *. subst s'.
    rewrite Hs, Hdraw. split; [done |]. intros _. by eapply init_settles.
  - rewrite Hinit. split; [done |]. by intros [? [=]].
Qed.

Lemma each_from_cons (f : option bound_data → M V unit) i idx v d :
  each_from f (i :: idx) v d =
  match f (scenes d !! i ≫= bound) v d with
  | (v', d', Some _) => each_from f idx v' d'
  | (v', d', None) => (v', d', None)
  end.
Proof. reflexivity. Qed.

Lemma each_from_again idx v d :
  let out := each_from (scene_body init draw) idx v d in
  each_from (scene_body init draw) idx out.1.1 d = out.
Proof.
  destruct idx as [|i idx]; [done |].
  cbv zeta. rewrite !each_from_cons.
  set (data := scenes d !! i ≫= bound).
  destruct (body_again data v d) as [Hagain Hsettled].
  destruct (scene_body init draw data v d) as [[s d1] [[]|]] eqn:Hbody; simpl in *.
  - rewrite settled_each_from by (apply Hsettled; eauto).
    by rewrite Hagain.
  - by rewrite Hagain.
Qed.

(** With one scene, the variables after [each] are those that [init] has
    set from the datum of the scene. *)
Lemma each_single sc v d v' :
  scenes d = [sc] → init (bound sc) v = Some v' →
  (each (scene_body init draw) v d).1.1 = v'.
Proof.
  intros Hsc Hinit. unfold each. rewrite Hsc. simpl seq.
  rewrite each_from_cons, Hsc. simpl.
  unfold scene_body, bind, on_vars, get. rewrite Hinit.
  destruct (draw_dom_only v' (bound sc) v' d) as [Hv _].
  by destruct (draw v' (bound sc) v' d) as [[v'' d''] [[]|]].
Qed.

Lemma steps_again (m0 : M V unit) v d :
  dom_only m0 →
  let out := (m0 ;; each (scene_body init draw)) v d in
  (m0 ;; each (scene_body init draw)) out.1.1 d = out.
Proof.
  intros Hm0. unfold bind.
  destruct (Hm0 v d) as [Hv _].
  destruct (m0 v d) as [[v0 d0] [[]|]] eqn:Hrun; simpl in *; subst v0.
  - unfold each.
    set (out := each_from (scene_body init draw) (seq 0 (length (scenes d0))) v d0).
    rewrite (dom_only_run m0 v out.1.1 d Hm0), Hrun. simpl.
    apply each_from_again.
  - by rewrite Hrun.
Qed.

End Again.

Lemma finish_vars_after {V} (selection x3d : list Node)
    (out : V * dom * option unit) :
  vars_after (finish selection x3d out) = out.1.1.
Proof. by destruct out as [[v d] r]. Qed.

Section Determinism.
Context `{d3.Nice} `{component.Render}.

Lemma vertical_init_data data v v' :
  barChartVertical.init data v = Some v' →
  ∀ w, is_Some (barChartVertical.init data w).
Proof.
  unfold barChartVertical.init.
  destruct (dataTransform.summarize data); simpl; [eauto | done].
Qed.

Lemma vertical_init_settles data v v' :
  barChartVertical.init data v = Some v' →
  settled barChartVertical.init v'.
Proof.
  unfold barChartVertical.init.
  destruct (dataTransform.summarize data); simpl; [| done].
  intros [= <-] data' w. unfold barChartVertical.init.
  destruct (dataTransform.summarize data'); simpl; [| done].
  intros [= <-]. by destruct v as [? ? ? ? ? ? [?|] [?|] [?|]].
Qed.

Lemma vertical_init_fields data v v' :
  barChartVertical.init data v = Some v' →
  barChartVertical.width v' = barChartVertical.width v ∧
  barChartVertical.height v' = barChartVertical.height v ∧
  barChartVertical.debug v' = barChartVertical.debug v ∧
  barChartVertical.classed v' = barChartVertical.classed v.
Proof.
  unfold barChartVertical.init.
  destruct (dataTransform.summarize data); simpl; [| done].
  intros [= <-]. by destruct v as [? ? ? ? ? ? [?|] [?|] [?|]].
Qed.

Lemma vertical_my_again selection s :
  barChartVertical.my selection
    (vars_after (barChartVertical.my selection s)) =
  barChartVertical.my selection s.
Proof.
  assert (barChartVertical.width (vars_after (barChartVertical.my selection s))
            = barChartVertical.width s ∧
          barChartVertical.height (vars_after (barChartVertical.my selection s))
            = barChartVertical.height s ∧
          barChartVertical.debug (vars_after (barChartVertical.my selection s))
            = barChartVertical.debug s ∧
          barChartVertical.classed (vars_after (barChartVertical.my selection s))
            = barChartVertical.classed s) as (Hw & Hh & Hd & Hc).
  { apply (vertical_my_keeps
             (λ v, barChartVertical.width v = barChartVertical.width s ∧
                   barChartVertical.height v = barChartVertical.height s ∧
                   barChartVertical.debug v = barChartVertical.debug s ∧
                   barChartVertical.classed v = barChartVertical.classed s));
      [| done].
    intros data v v' Hi (<- & <- & <- & <-).
    by apply vertical_init_fields with data. }
  rewrite (vertical_my_eq selection (vars_after _)). cbv zeta.
  rewrite Hw, Hh, Hd, Hc. clear Hw Hh Hd Hc.
  rewrite vertical_my_eq. cbv zeta. rewrite finish_vars_after. f_equal.
  apply (steps_again barChartVertical.init barChartVertical.draw
           vertical_init_data vertical_init_settles vertical_draw_dom_only).
  apply call_dom_only.
Qed.

Lemma multi_init_data data v v' :
  barChartMultiSeries.init data v = Some v' →
  ∀ w, is_Some (barChartMultiSeries.init data w).
Proof.
  unfold barChartMultiSeries.init.
  destruct (dataTransform.summarize data); simpl; [eauto | done].
Qed.

Lemma multi_init_settles data v v' :
  barChartMultiSeries.init data v = Some v' →
  settled barChartMultiSeries.init v'.
Proof.
  unfold barChartMultiSeries.init.
  destruct (dataTransform.summarize data); simpl; [| done].
  intros [= <-] data' w. unfold barChartMultiSeries.init.
  destruct (dataTransform.summarize data'); simpl; [| done].
  intros [= <-]. by destruct v as [? ? ? ? ? ? [?|] [?|] [?|] [?|]].
Qed.

Lemma multi_init_fields data v v' :
  barChartMultiSeries.init data v = Some v' →
  barChartMultiSeries.width v' = barChartMultiSeries.width v ∧
  barChartMultiSeries.height v' = barChartMultiSeries.height v ∧
  barChartMultiSeries.debug v' = barChartMultiSeries.debug v ∧
  barChartMultiSeries.classed v' = barChartMultiSeries.classed v ∧
  barChartMultiSeries.dimensions v' = barChartMultiSeries.dimensions v.
Proof.
  unfold barChartMultiSeries.init.
  destruct (dataTransform.summarize data); simpl; [| done].
  intros [= <-]. by destruct v as [? ? ? ? ? ? [?|] [?|] [?|] [?|]].
Qed.

Lemma multi_my_again selection s :
  barChartMultiSeries.my selection
    (vars_after (barChartMultiSeries.my selection s)) =
  barChartMultiSeries.my selection s.
Proof.
  assert (barChartMultiSeries.width (vars_after (barChartMultiSeries.my selection s))
            = barChartMultiSeries.width s ∧
          barChartMultiSeries.height (vars_after (barChartMultiSeries.my selection s))
            = barChartMultiSeries.height s ∧
          barChartMultiSeries.debug (vars_after (barChartMultiSeries.my selection s))
            = barChartMultiSeries.debug s ∧
          barChartMultiSeries.classed (vars_after (barChartMultiSeries.my selection s))
            = barChartMultiSeries.classed s ∧
          barChartMultiSeries.dimensions (vars_after (barChartMultiSeries.my selection s))
            = barChartMultiSeries.dimensions s) as (Hw & Hh & Hd & Hc & Hx).
  { apply (multi_my_keeps
             (λ v, barChartMultiSeries.width v = barChartMultiSeries.width s ∧
                   barChartMultiSeries.height v = barChartMultiSeries.height s ∧
                   barChartMultiSeries.debug v = barChartMultiSeries.debug s ∧
                   barChartMultiSeries.classed v = barChartMultiSeries.classed s ∧
                   barChartMultiSeries.dimensions v
                     = barChartMultiSeries.dimensions s));
      [| done].
    intros data v v' Hi (<- & <- & <- & <- & <-).
    by apply multi_init_fields with data. }
  rewrite (multi_my_eq selection (vars_after _)). cbv zeta.
  rewrite Hw, Hh, Hd, Hc, Hx. clear Hw Hh Hd Hc Hx.
  rewrite multi_my_eq. cbv zeta. rewrite finish_vars_after. f_equal.
  rewrite <- !bind_assoc.
  apply (steps_again barChartMultiSeries.init barChartMultiSeries.draw
           multi_init_data multi_init_settles multi_draw_dom_only).
  apply dom_only_bind; [apply call_dom_only |].
  intros _. apply append_child_dom_only.
Qed.

Lemma again_same {V} (my : V → rendering V) :
  (∀ s, my (vars_after (my s)) = my s) → ∀ n s, again my n s = my s.
Proof.
  intros Hmy n. induction n as [|n IH]; intros s; simpl; [done |].
  by rewrite IH, Hmy.
Qed.

End Determinism.

(** ** The light of the multi-series chart *)

Lemma first_among_Some {A} (f : A → option (list nat)) cs k path :
  first_among f cs k = Some path →
  ∃ i c rest,
    path = (k + i)%nat :: rest ∧ cs !! i = Some c ∧ f c = Some rest.
Proof.
  revert k. induction cs as [|c cs IH]; intros k; simpl; [done |].
  destruct (f c) as [rest|] eqn:Hf.
  - intros [= <-]. exists 0%nat, c, rest. by rewrite Nat.add_0_r.
  - intros Hfind. destruct (IH _ Hfind) as (i & c' & rest & -> & Hc & Hrest).
    exists (S i), c', rest. split; [f_equal; lia | done].
Qed.

Lemma find_first_Some p n path :
  find_first p n = Some path →
  ∃ i c rest,
    path = i :: rest ∧ children n !! i = Some c ∧
    (if p c then Some [] else find_first p c) = Some rest.
Proof.
  destruct n as [t a d cs]. simpl. intros Hfind.
  destruct (first_among_Some _ _ _ _ Hfind) as (i & c & rest & -> & Hc & Hrest).
  by exists i, c, rest.
Qed.

Lemma light_is_not_selected name data rest :
  (if has_class name (light data) then Some [] else
     find_first (has_class name) (light data)) ≠ Some rest.
Proof. by vm_compute. Qed.

Lemma alter_at_tag (f : Node → Node) path n :
  (∀ m, tag (f m) = tag m) → tag (alter_at f path n) = tag n.
Proof. intros Hf. destruct path; simpl; [apply Hf | done]. Qed.

Lemma alter_at_const_tag (t' : Node) path n t :
  lookup_at path n = Some t → tag t' = tag t →
  tag (alter_at (λ _, t') path n) = tag n.
Proof. destruct path; simpl; [| done]. by intros [= ->]. Qed.

Lemma run_tag `{component.Render} c n : tag (component.run c n).1 = tag n.
Proof. unfold component.run. by destruct (component.render c n). Qed.

(** A change under a child that is not the last one leaves the light. *)
Lemma lit_alter (sc : Node) (i : nat) (g : Node → Node) :
  lit sc →
  (S i < length (children sc))%nat →
  (∀ c, children sc !! i = Some c → tag (g c) = tag c) →
  lit (Elem (tag sc) (attrs sc) (bound sc) (alter g i (children sc))) ∧
  length (alter g i (children sc)) = length (children sc).
Proof.
  intros (cs & data & Hcs & Hno) Hi Hg. rewrite length_alter. split; [| done].
  rewrite Hcs in Hi, Hg |- *. rewrite length_app in Hi. simpl in Hi.
  exists (alter g i cs), data. simpl. split.
  - apply alter_app_l. lia.
  - apply Forall_alter; [done |]. intros c Hc Htag.
    rewrite Hg; [done |]. rewrite lookup_app_l; [done | lia].
Qed.

Section Light.
Context `{component.Render}.

Lemma select_in_lit name sc :
  lit sc →
  lit (select_in name sc).1 ∧
  before_last (select_in name sc).1 (select_in name sc).2.
Proof.
  intros Hlit. unfold select_in.
  destruct (find_first (has_class name) sc) as [path|] eqn:Hfind; [| done].
  destruct (find_first_Some _ _ _ Hfind) as (i & c & rest & -> & Hc & Hrest).
  assert (S i < length (children sc))%nat as Hi.
  { destruct Hlit as (cs & data & Hcs & _). rewrite Hcs in Hc |- *.
    rewrite length_app. simpl.
    destruct (decide (i = length cs)) as [-> | Hne].
    - rewrite list_lookup_middle in Hc by done. injection Hc as <-.
      by destruct (light_is_not_selected name data rest).
    - apply lookup_lt_Some in Hc. rewrite length_app in Hc. simpl in Hc. lia. }
  destruct (bound sc) as [d|]; simpl; [| done].
  destruct (lit_alter sc i (alter_at (set_bound (Some d)) rest) Hlit Hi)
    as [Hlit' Hlen].
  { intros c' _. by apply alter_at_tag. }
  split; [exact Hlit' | by rewrite Hlen].
Qed.

Lemma datum_at_lit data sc w :
  lit sc → before_last sc w →
  lit (datum_at data sc w) ∧ before_last (datum_at data sc w) w.
Proof.
  intros Hlit Hw. destruct w as [[|i rest]|]; simpl in *; try done.
  destruct (lit_alter sc i (alter_at (set_bound data) rest) Hlit Hw)
    as [Hlit' Hlen].
  { intros c' _. by apply alter_at_tag. }
  split; [exact Hlit' | by rewrite Hlen].
Qed.

Lemma run_at_lit c sc w :
  lit sc → before_last sc w → lit (run_at c sc w).1.
Proof.
  intros Hlit Hw. destruct w as [[|i rest]|]; simpl in *; try done.
  destruct (children sc !! i) as [ci|] eqn:Hci; simpl; [| done].
  destruct (lookup_at rest ci) as [target|] eqn:Htarget; [| done].
  pose proof (run_tag c target) as Htag.
  destruct (component.run c target) as [target' k]. simpl in *.
  apply (lit_alter sc i _ Hlit Hw).
  intros c' Hc'. rewrite Hci in Hc'. injection Hc' as <-.
  by apply alter_at_const_tag with target.
Qed.

Lemma call_each_at_lit c s sub :
  Forall lit s → Forall2 before_last s sub →
  Forall lit (call_each_at c s sub).1.
Proof.
  intros Hs Hsub. induction Hsub as [|sc w s sub Hw Hsub IH]; [done |].
  apply Forall_cons in Hs as [Hsc Hs]. simpl.
  pose proof (run_at_lit c sc w Hsc Hw) as Hsc'.
  destruct (run_at c sc w) as [sc' []]; simpl in *.
  - specialize (IH Hs). destruct (call_each_at c s sub). simpl in *.
    by constructor.
  - by constructor.
Qed.

Lemma datum_each_lit data s sub :
  Forall lit s → Forall2 before_last s sub →
  Forall lit (datum_each data s sub) ∧
  Forall2 before_last (datum_each data s sub) sub.
Proof.
  intros Hs Hsub. induction Hsub as [|sc w s sub Hw Hsub IH]; [done |].
  apply Forall_cons in Hs as [Hsc Hs]. simpl.
  destruct (datum_at_lit data sc w Hsc Hw) as [Hsc' Hw'].
  destruct (IH Hs) as [IH1 IH2]. split; by constructor.
Qed.

Lemma select_lit name (s : list Node) :
  Forall lit s →
  Forall lit ((select_in name <$> s).*1) ∧
  Forall2 before_last ((select_in name <$> s).*1) ((select_in name <$> s).*2).
Proof.
  intros Hs. induction Hs as [|sc s Hsc Hs [IH1 IH2]]; [done |].
  destruct (select_in_lit name sc Hsc) as [Hsc' Hw].
  simpl. split; by constructor.
Qed.

End Light.

Section LightSteps.
Context `{component.Render} {V : Type}.

Lemma lit_select name :
  hoare (V := V) all_lit (select name)
    (λ r v d, match r with
              | Some sub => lit_clear sub v d
              | None => all_lit v d
              end).
Proof. intros v d Hd. simpl. by apply select_lit. Qed.

Lemma lit_datum data sub :
  hoare (V := V) (lit_clear sub) (datum data sub)
    (λ r v d, match r with
              | Some sub' => lit_clear sub' v d
              | None => all_lit v d
              end).
Proof. intros v d [Hd Hsub]. simpl. by apply datum_each_lit. Qed.

Lemma lit_call_at c sub :
  hoare (V := V) (lit_clear sub) (call_at c sub) (λ _, all_lit).
Proof.
  intros v d [Hd Hsub]. unfold call_at, on_dom, all_lit.
  pose proof (call_each_at_lit c (scenes d) sub Hd Hsub) as Hlit.
  by destruct (call_each_at c (scenes d) sub).
Qed.

Lemma first_called_call c0 c : keeps (V := V) (first_called c0) (call c).
Proof.
  intros v d Hd. unfold call, on_dom, first_called in *.
  destruct (call_each c (scenes d)); simpl.
  by destruct (handed d).
Qed.

Lemma first_called_call_at c0 c sub :
  keeps (V := V) (first_called c0) (call_at c sub).
Proof.
  intros v d Hd. unfold call_at, on_dom, first_called in *.
  destruct (call_each_at c (scenes d) sub); simpl.
  by destruct (handed d).
Qed.

Lemma first_called_select c0 name :
  keeps (V := V) (first_called c0) (select name).
Proof. intros v d Hd. exact Hd. Qed.

Lemma first_called_datum c0 data sub :
  keeps (V := V) (first_called c0) (datum data sub).
Proof. intros v d Hd. exact Hd. Qed.

Lemma first_called_append_child c0 name a :
  keeps (V := V) (first_called c0) (append_child name a).
Proof. intros v d Hd. exact Hd. Qed.

(** A sub-component that always returns is rendered on every element. *)
Lemma call_each_returns c (s : list Node) :
  (∀ n, (component.render c n).2 = Normal) →
  call_each c s = ((λ n, (component.run c n).1) <$> s, Normal).
Proof.
  intros Hc. induction s as [|n s IH]; simpl; [done |].
  rewrite IH. unfold component.run. specialize (Hc n).
  destruct (component.render c n) as [n' k]. simpl in *. by subst k.
Qed.

End LightSteps.

Ltac first_called_steps :=
  repeat first
    [ apply keeps_bind; [| intros ? ]
    | apply first_called_select
    | apply first_called_datum
    | apply first_called_append_child
    | apply first_called_call_at
    | apply first_called_call
    | apply keeps_ret
    | apply keeps_throw ].

Section MultiLight.
Import barChartMultiSeries.
Context `{d3.Nice} `{component.Render}.

Lemma multi_draw_lit v data : keeps all_lit (draw v data).
Proof.
  unfold draw.
  eapply hoare_bind; [apply lit_select | intros sub | done].
  eapply hoare_bind; [apply lit_call_at | intros [] | done].
  eapply hoare_bind; [apply lit_select | intros sub' | done].
  eapply hoare_bind; [apply lit_datum | intros sub'' | done].
  apply lit_call_at.
Qed.

Lemma multi_draw_first_called c0 v data :
  keeps (first_called c0) (draw v data).
Proof. unfold draw. first_called_steps. Qed.

Lemma multi_scenes_lit (selection : list Node) (s : vars) :
  let vp :=
    component.viewpoint
      .> component.centerOfRotation
           [x (dimensions s) / 2; y (dimensions s) / 2;
            z (dimensions s) / 2]%Q in
  (∀ n, (component.render vp n).2 = Normal) →
  (∀ n, no_light (children n) →
        no_light (children (component.render vp n).1)) →
  ∃ scenes' : list Node,
    length scenes' = length selection ∧
    Forall lit scenes' ∧
    head (called (my selection s)) = Some vp ∧
    document (my selection s) =
    zip_with
      (λ c sc,
         adopt c (Elem "x3d" (x3d_attrs (width s) (height s) (debug s))
                    (bound c) [sc]))
      selection scenes'.
Proof.
  intros vp Hret Hlight. rewrite multi_my_eq. cbv zeta. fold vp.
  set (n := length selection).
  set (I := λ (v : vars) d, as_many n v d ∧ all_lit v d ∧ first_called vp v d).
  match goal with |- context [finish _ _ (?m s ?d)] =>
    assert (hoare (λ _ d0, d0 = d) m (λ _, I)) as Hm;
      [| specialize (Hm s d eq_refl);
         destruct (m s d) as [[v' d'] r]; simpl in Hm ]
  end.
  - eapply hoare_bind with
      (Q1 := λ r (_ : vars) d1,
         r = Some tt ∧ as_many n s d1 ∧ first_called vp s d1 ∧
         Forall (λ sc, no_light (children sc)) (scenes d1)).
    + intros v d ->. unfold call, on_dom. rewrite call_each_returns by done.
      simpl. split; [done |]. split.
      { unfold as_many, scaffold, x3d_elements. simpl.
        by rewrite !length_fmap. }
      split; [done |].
      unfold scaffold. rewrite <- list_fmap_compose.
      apply Forall_fmap, Forall_forall. intros e _. simpl.
      unfold component.run.
      specialize (Hlight
        (Elem "scene" {[ "class" := classed s ]} (bound e)
              (layer_group <$> ["axis"; "chart"]))).
      destruct (component.render vp _) as [sc k]. simpl in *.
      apply Hlight. by repeat constructor.
    + intros []. eapply hoare_bind with (Q1 := λ _, I).
      * intros v d (_ & Hn & Hc & Hno). simpl. unfold I. split; [| split].
        -- unfold as_many in *. simpl. by rewrite length_fmap.
        -- unfold all_lit. simpl. apply Forall_fmap.
           eapply Forall_impl; [exact Hno |]. intros sc Hsc.
           by exists (children sc), (bound sc).
        -- exact Hc.
      * intros _. apply keeps_each. intros data. unfold each_scene.
        apply keeps_bind; [by apply keeps_on_vars |].
        intros _ v d HI. unfold bind, get.
        assert (keeps I (draw v data)) as Hdraw; [| exact (Hdraw v d HI)].
        apply keeps_and; [apply multi_draw_as_many |].
        apply keeps_and;
          [apply multi_draw_lit | apply multi_draw_first_called].
      * done.
    + intros v d [[=] _].
  - destruct Hm as (Hn & Hlit & Hc).
    exists (scenes d'). repeat split; try done.
    simpl. by apply attach_x3d.
Qed.

End MultiLight.

(** C9: when the viewpoint sub-component returns and puts no light under
    the scene itself, each scene that the multi-series chart has made has
    exactly one [directionallight] among its children, the last one, with
    the attributes [direction] ["1 0 -1"], [on] ["true"], [intensity] ["0.4"]
    and [shadowintensity] ["0"], whatever the variables of the chart are;
    and the first sub-component that the chart calls is the viewpoint, with
    its center of rotation at half of each dimension. *)
Theorem multi_light_and_center_of_rotation `{d3.Nice} `{component.Render}
    (selection : list Node) (i : nat) (c : Node)
    (s : barChartMultiSeries.vars) (vp : component.instance) :
  vp = component.viewpoint
         .> component.centerOfRotation
              [x (barChartMultiSeries.dimensions s) / 2;
               y (barChartMultiSeries.dimensions s) / 2;
               z (barChartMultiSeries.dimensions s) / 2]%Q →
  selection !! i = Some c →
  (∀ n, (component.render vp n).2 = Normal) →
  (∀ n, no_light (children n) →
        no_light (children (component.render vp n).1)) →
  head (called (barChartMultiSeries.my selection s)) = Some vp ∧
  ∃ (x3d sc : Node) (cs : list Node) (data : option bound_data),
    document (barChartMultiSeries.my selection s) !! i = Some (adopt c x3d) ∧
    children x3d = [sc] ∧
    children sc =
      cs ++ [Elem "directionallight"
               (<["shadowintensity" := "0"]>
                  (<["intensity" := "0.4"]>
                     (<["on" := "true"]> (<["direction" := "1 0 -1"]> ∅))))
               data []] ∧
    no_light cs.
Proof.
  intros -> Hc Hret Hlight.
  destruct (multi_scenes_lit selection s Hret Hlight)
    as (scenes' & Hl & Hlit & Hhead & Hdoc).
  split; [exact Hhead |].
  destruct (lookup_lt_is_Some_2 scenes' i) as [sc Hsc].
  { rewrite Hl. by eapply lookup_lt_Some. }
  destruct (proj1 (Forall_lookup _ _) Hlit i sc Hsc) as (cs & data & Hcs & Hno).
  eexists _, sc, cs, data. split.
  { rewrite Hdoc, lookup_zip_with, Hc. simpl. by rewrite Hsc. }
  done.
Qed.

(** ** The scales that a call derives *)

Section Derived.
Context `{d3.Nice} `{component.Render}.

Lemma call_each_returns_bound c (s : list Node) :
  (∀ n, (component.render c n).2 = Normal ∧
        bound (component.render c n).1 = bound n) →
  (call_each c s).2 = Normal ∧
  length (call_each c s).1 = length s ∧
  bound <$> (call_each c s).1 = bound <$> s.
Proof.
  intros Hc. rewrite call_each_returns by (intros n; apply Hc). simpl.
  split; [done |]. rewrite length_fmap. split; [done |].
  rewrite <- list_fmap_compose. apply list_fmap_ext. intros _ n _. simpl.
  unfold component.run. destruct (Hc n) as [_ Hb].
  by destruct (component.render c n).
Qed.

(** Called on one container that is bound to data, with a viewpoint that
    returns and leaves the datum of the scene, the vertical chart ends
    with the variables that [init] sets from the data. *)
Lemma vertical_single (c : Node) (s s' : barChartVertical.vars) :
  (∀ n, (component.render
           (component.viewpoint .> component.quickView "left") n).2 = Normal ∧
        bound (component.render
           (component.viewpoint .> component.quickView "left") n).1 = bound n) →
  barChartVertical.init (bound c) s = Some s' →
  vars_after (barChartVertical.my [c] s) = s'.
Proof.
  intros Hvp Hinit. rewrite vertical_my_eq. cbv zeta.
  rewrite finish_vars_after. unfold bind at 1.
  match goal with |- context [call ?vp s ?d] =>
    destruct (call_dom_only (V := barChartVertical.vars) vp s d) as [Hv _];
    pose proof (call_each_returns_bound vp (scenes d) Hvp) as (Hk & Hl & Hb);
    unfold call, on_dom in *;
    destruct (call_each vp (scenes d)) as [s1 k]
  end.
  simpl in *. subst k. simpl.
  destruct s1 as [|sc [|]]; try done. injection Hb as Hb.
  eapply (each_single barChartVertical.init barChartVertical.draw
            vertical_draw_dom_only sc); [done |].
  by rewrite Hb.
Qed.

Lemma multi_single (c : Node) (s s' : barChartMultiSeries.vars) :
  (∀ n, (component.render
           (component.viewpoint
              .> component.centerOfRotation
                   [x (barChartMultiSeries.dimensions s) / 2;
                    y (barChartMultiSeries.dimensions s) / 2;
                    z (barChartMultiSeries.dimensions s) / 2]%Q) n).2
        = Normal ∧
        bound (component.render
           (component.viewpoint
              .> component.centerOfRotation
                   [x (barChartMultiSeries.dimensions s) / 2;
                    y (barChartMultiSeries.dimensions s) / 2;
                    z (barChartMultiSeries.dimensions s) / 2]%Q) n).1
        = bound n) →
  barChartMultiSeries.init (bound c) s = Some s' →
  vars_after (barChartMultiSeries.my [c] s) = s'.
Proof.
  intros Hvp Hinit. rewrite multi_my_eq. cbv zeta.
  rewrite finish_vars_after. unfold bind at 1.
  match goal with |- context [call ?vp s ?d] =>
    destruct (call_dom_only (V := barChartMultiSeries.vars) vp s d) as [Hv _];
    pose proof (call_each_returns_bound vp (scenes d) Hvp) as (Hk & Hl & Hb);
    unfold call, on_dom in *;
    destruct (call_each vp (scenes d)) as [s1 k]
  end.
  simpl in *. subst k. simpl.
  destruct s1 as [|sc [|]]; try done. injection Hb as Hb.
  unfold bind at 1. simpl.
  eapply (each_single barChartMultiSeries.init barChartMultiSeries.draw
            multi_draw_dom_only); [done |].
  simpl. by rewrite Hb.
Qed.

End Derived.

Lemma two_keys (k1 k2 : string) :
  d3.implicit_domain (dataTransform.unique [k1; k2]) =
  if decide (k1 = k2) then [k1] else [k1; k2].
Proof.
  unfold d3.implicit_domain, dataTransform.unique, d3.domain_push. simpl.
  destruct (decide (k1 = k2)) as [-> | Hne].
  - rewrite (bool_decide_eq_true_2 (k2 ∈ [k2]))
      by (by apply list_elem_of_singleton).
    reflexivity.
  - assert (k2 ∉ [k1]) as Hnot by (by rewrite list_elem_of_singleton).
    rewrite (bool_decide_eq_false_2 (k2 ∈ [k1])) by done. simpl.
    by rewrite (bool_decide_eq_false_2 (k2 ∈ [k1])) by done.
Qed.

(** C5: the vertical chart with its defaults, called on one container bound
    to [{key:"A", values:[{key:"q1", value:10}, {key:"q2", value:20}]}],
    derives an x-scale of domain ["q1","q2"] and a y-scale of domain [0,20]:
    [init] sets them, and they are the scales of the chart after the call.
    The rounding of [nice] is d3's: it is used for the domain [0,20] alone,
    which it leaves.  The call gets to [init] when the viewpoint
    sub-component returns and leaves the datum of the scene. *)
Theorem vertical_quarters_domains `{d3.Nice} `{component.Render} (c : Node) :
  d3.nice_domain [Num 0; Num 20] = [Num 0; Num 20] →
  bound c = Some (Dataset [Series "A" [Point "q1" 10; Point "q2" 20]]) →
  (∀ n, (component.render
           (component.viewpoint .> component.quickView "left") n).2 = Normal ∧
        bound (component.render
           (component.viewpoint .> component.quickView "left") n).1 = bound n) →
  (∃ s', barChartVertical.init (bound c) barChartVertical.barChartVertical
         = Some s' ∧
         vars_after (barChartVertical.my [c] barChartVertical.barChartVertical)
         = s') ∧
  d3.domain <$>
    barChartVertical.xScale
      (vars_after (barChartVertical.my [c] barChartVertical.barChartVertical))
  = Some (d3.Keys ["q1"; "q2"]) ∧
  d3.domain <$>
    barChartVertical.yScale
      (vars_after (barChartVertical.my [c] barChartVertical.barChartVertical))
  = Some (d3.Numbers [Num 0; Num 20]).
Proof.
  intros Hnice Hb Hvp.
  assert (∃ s', barChartVertical.init (bound c)
                  barChartVertical.barChartVertical = Some s' ∧
                d3.domain <$> barChartVertical.xScale s'
                  = Some (d3.Keys ["q1"; "q2"]) ∧
                d3.domain <$> barChartVertical.yScale s'
                  = Some (d3.Numbers [Num 0; Num 20]))
    as (s' & Hinit & Hx & Hy).
  { rewrite Hb. unfold barChartVertical.init. cbn [dataTransform.summarize mbind option_bind].
    assert (dataTransform.summary
              [Series "A" [Point "q1" 10; Point "q2" 20]] =
            dataTransform.Summary ["A"] ["q1"; "q2"] (Num 20)) as ->
      by (vm_compute; reflexivity).
    eexists. split; [reflexivity |]. cbn.
    unfold d3.linearNice. cbn. rewrite Hnice. split; [| done].
    by vm_compute. }
  rewrite (vertical_single c _ s' Hvp Hinit). eauto.
Qed.

(** C6: the multi-series chart without a z-scale, called on one container
    bound to two series, derives a band scale for z whose domain holds the
    keys of the two series and nothing else, in the order of the series (a
    key that both series have is there once).  The call gets to [init] when
    the viewpoint sub-component returns and leaves the datum of the scene. *)
Theorem multi_two_series_z_domain `{d3.Nice} `{component.Render}
    (c : Node) (s : barChartMultiSeries.vars) (a b : series) :
  barChartMultiSeries.zScale s = None →
  bound c = Some (Dataset [a; b]) →
  (∀ n, (component.render
           (component.viewpoint
              .> component.centerOfRotation
                   [x (barChartMultiSeries.dimensions s) / 2;
                    y (barChartMultiSeries.dimensions s) / 2;
                    z (barChartMultiSeries.dimensions s) / 2]%Q) n).2
        = Normal ∧
        bound (component.render
           (component.viewpoint
              .> component.centerOfRotation
                   [x (barChartMultiSeries.dimensions s) / 2;
                    y (barChartMultiSeries.dimensions s) / 2;
                    z (barChartMultiSeries.dimensions s) / 2]%Q) n).1
        = bound n) →
  ∃ band : d3.band,
    barChartMultiSeries.zScale (vars_after (barChartMultiSeries.my [c] s))
      = Some (d3.OfBand band) ∧
    d3.band_domain band
      = (if decide (key a = key b) then [key a] else [key a; key b]) ∧
    (∀ k, k ∈ d3.band_domain band ↔ k = key a ∨ k = key b).
Proof.
  intros Hz Hb Hvp.
  assert (∃ s' band,
            barChartMultiSeries.init (bound c) s = Some s' ∧
            barChartMultiSeries.zScale s' = Some (d3.OfBand band) ∧
            d3.band_domain band = d3.implicit_domain
                                    (dataTransform.unique [key a; key b]))
    as (s' & band & Hinit & Hband & Hdom).
  { rewrite Hb. unfold barChartMultiSeries.init. simpl.
    destruct s as [? ? ? ? ? ? [?|] [?|] [?|] [?|]]; simpl in Hz; try done;
      eexists _, _; (split; [reflexivity |]); by split. }
  rewrite (multi_single c s s' Hvp Hinit).
  exists band. split; [exact Hband |]. rewrite Hdom, two_keys.
  split; [done |]. intros k.
  destruct (decide (key a = key b)) as [-> |];
    rewrite ?elem_of_cons, ?elem_of_nil; intuition.
Qed.

(** ** The properties on a concrete call

    One container, [<div id="chartholder">], bound to a dataset; [nice] and
    the sub-components are those of [concrete]. *)

Lemma concrete_paint_returns (c : component.instance) (n : Node) :
  (concrete.paint c n).2 = Normal ∧ bound (concrete.paint c n).1 = bound n.
Proof. split; reflexivity. Qed.

Lemma concrete_paint_no_light (c : component.instance) (n : Node) :
  no_light (children n) → no_light (children (concrete.paint c n).1).
Proof.
  intros Hn. unfold concrete.paint. simpl. apply Forall_app. split; [done |].
  destruct (bound n) as [[d|]|]; try by constructor.
  apply Forall_fmap, Forall_forall. by intros p _.
Qed.

Lemma multi_yScale_stays_undefined_witness :
  barChartMultiSeries.yScale barChartMultiSeries.barChartMultiSeries = None ∧
  ∃ s',
    barChartMultiSeries.init (H := concrete.nice)
      (Some (Dataset concrete.quarters))
      barChartMultiSeries.barChartMultiSeries = Some s' ∧
    barChartMultiSeries.my_yScale Chart [] s' = (s', Value None).
Proof.
  split; [reflexivity |].
  destruct (@multi_yScale_stays_undefined concrete.nice concrete.paint
              barChartMultiSeries.barChartMultiSeries eq_refl)
    as (Hruns & Hinit & _).
  destruct (Hruns concrete.quarters) as [s' Hs'].
  exists s'. split; [exact Hs' | exact (Hinit _ _ Hs')].
Defined.

Lemma supplied_scale_is_kept_witness :
  let supplied := d3.OfBand (d3.scaleBand .> d3.bandDomain ["q1"; "q2"]) in
  let s := barChartVertical.set_xScale (Some supplied)
             barChartVertical.barChartVertical in
  let r := barChartVertical.my (H := concrete.nice) (H0 := concrete.paint)
             [concrete.container (Some (Dataset concrete.quarters))] s in
  barChartVertical.xScale s = Some supplied ∧
  barChartVertical.xScale (vars_after r) = Some supplied ∧
  Forall (hands "x" "xScale" (Some supplied)) (called r).
Proof.
  intros supplied s r. split; [reflexivity |].
  exact (proj1 (proj1 (@supplied_scale_is_kept concrete.nice concrete.paint
                         [concrete.container (Some (Dataset concrete.quarters))])
                  s)
           supplied eq_refl).
Defined.

Lemma vertical_quarters_domains_witness :
  let c := concrete.container (Some (Dataset concrete.quarters)) in
  let s' := vars_after
              (barChartVertical.my (H := concrete.nice) (H0 := concrete.paint)
                 [c] barChartVertical.barChartVertical) in
  concrete.nice [Num 0; Num 20] = [Num 0; Num 20] ∧
  d3.domain <$> barChartVertical.xScale s' = Some (d3.Keys ["q1"; "q2"]) ∧
  d3.domain <$> barChartVertical.yScale s' = Some (d3.Numbers [Num 0; Num 20]).
Proof.
  intros c s'. split; [vm_compute; reflexivity |].
  exact (proj2 (@vertical_quarters_domains concrete.nice concrete.paint c
                  ltac:(vm_compute; reflexivity) eq_refl
                  (concrete_paint_returns _))).
Defined.

Lemma multi_two_series_z_domain_witness :
  let a := Series "A" [Point "q1" 10; Point "q2" 20] in
  let b := Series "B" [Point "q1" 5; Point "q2" 15] in
  let c := concrete.container (Some (Dataset [a; b])) in
  ∃ band : d3.band,
    barChartMultiSeries.zScale
      (vars_after
         (barChartMultiSeries.my (H := concrete.nice) (H0 := concrete.paint)
            [c] barChartMultiSeries.barChartMultiSeries))
      = Some (d3.OfBand band) ∧
    d3.band_domain band = ["A"; "B"].
Proof.
  intros a b c.
  destruct (@multi_two_series_z_domain concrete.nice concrete.paint c
              barChartMultiSeries.barChartMultiSeries a b
              eq_refl eq_refl (concrete_paint_returns _))
    as (band & Hz & Hdom & _).
  exists band. split; [exact Hz | exact Hdom].
Defined.

Lemma debug_sets_showLog_and_showStat_witness :
  let c := concrete.container (Some (Dataset concrete.quarters)) in
  [c] !! 0%nat = Some c ∧
  ∃ x3d : Node,
    document
      (barChartVertical.my (H := concrete.nice) (H0 := concrete.paint) [c]
         (barChartVertical.set_debug true barChartVertical.barChartVertical))
      !! 0%nat = Some (adopt c x3d) ∧
    attrs x3d !! "showLog" = Some "true" ∧
    attrs x3d !! "showStat" = Some "true".
Proof.
  intros c. split; [reflexivity |].
  destruct (proj1 (@debug_sets_showLog_and_showStat concrete.nice concrete.paint
                     [c] 0%nat c eq_refl)
              (barChartVertical.set_debug true barChartVertical.barChartVertical))
    as (x3d & Hdoc & _ & Hlog & Hstat).
  exists x3d. split; [exact Hdoc | split; [exact Hlog | exact Hstat]].
Defined.

Lemma multi_light_and_center_of_rotation_witness :
  let c := concrete.container (Some (Dataset concrete.quarters)) in
  let r := barChartMultiSeries.my (H := concrete.nice) (H0 := concrete.paint)
             [c] barChartMultiSeries.barChartMultiSeries in
  [c] !! 0%nat = Some c ∧
  head (called r) =
    Some (component.viewpoint
            .> component.centerOfRotation [40 / 2; 40 / 2; 40 / 2]%Q) ∧
  ∃ (x3d sc : Node) (cs : list Node) (data : option bound_data),
    document r !! 0%nat = Some (adopt c x3d) ∧
    children x3d = [sc] ∧
    children sc = cs ++ [light data] ∧
    no_light cs.
Proof.
  intros c r. split; [reflexivity |].
  exact (@multi_light_and_center_of_rotation concrete.nice concrete.paint
           [c] 0%nat c barChartMultiSeries.barChartMultiSeries _
           eq_refl eq_refl
           (λ n, proj1 (concrete_paint_returns _ n))
           (concrete_paint_no_light _)).
Defined.

(** What the concrete call leaves: the groups of the layers are there, each
    with its class, the sub-components are called in the order of the
    source, and with the multi-series chart the [yScale] that goes to them
    is [undefined]. *)
Example vertical_quarters_groups :
  let c := concrete.container (Some (Dataset concrete.quarters)) in
  let r := barChartVertical.my (H := concrete.nice) (H0 := concrete.paint)
             [c] barChartVertical.barChartVertical in
  group_names <$> document r = [[["xAxis"]; ["yAxis"]; ["chart"]]] ∧
  component.kind <$> called r = ["viewpoint"; "axis"; "axis"; "bars"] ∧
  ended r = Normal.
Proof. vm_compute. done. Qed.

Example multi_quarters_groups :
  let c := concrete.container (Some (Dataset concrete.quarters)) in
  let r := barChartMultiSeries.my (H := concrete.nice) (H0 := concrete.paint)
             [c] barChartMultiSeries.barChartMultiSeries in
  group_names <$> document r = [[["axis"]; ["chart"]]] ∧
  called r =
    [ component.viewpoint
        .> component.centerOfRotation [40 / 2; 40 / 2; 40 / 2]%Q;
      component.axisThreePlane
        .> component.xScale (barChartMultiSeries.xScale (vars_after r))
        .> component.yScale None
        .> component.zScale (barChartMultiSeries.zScale (vars_after r));
      component.barsMultiSeries
        .> component.xScale (barChartMultiSeries.xScale (vars_after r))
        .> component.yScale None
        .> component.zScale (barChartMultiSeries.zScale (vars_after r))
        .> component.colors ["green"; "red"; "yellow"; "steelblue"; "orange"] ].
Proof. vm_compute. done. Qed.

(** Without a datum on the container, [init] throws in the first scene: the
    [x3d] element and its scene are there, and no scale is derived. *)
Example vertical_without_data :
  let r := barChartVertical.my (H := concrete.nice) (H0 := concrete.paint)
             [concrete.container None] barChartVertical.barChartVertical in
  ended r = Throw ∧
  vars_after r = barChartVertical.barChartVertical ∧
  group_names <$> document r = [[["xAxis"]; ["yAxis"]; ["chart"]]].
Proof. vm_compute. done. Qed.

(** A key that two series share is in the domain once. *)
Example same_key_twice :
  d3.band_domain (d3.scaleBand .> d3.bandDomain ["A"; "B"; "A"]) = ["A"; "B"].
Proof. reflexivity. Qed.

(** [my.width], [my.height] and [my.dimensions] return [this], the other
    accessors return [my]: they differ when the accessor is not called on
    the chart. *)
Example accessor_on_another_object :
  (barChartVertical.my_width (Other 1) [640]
     barChartVertical.barChartVertical).2 = Ref (Other 1) ∧
  (barChartVertical.my_debug (Other 1) [true]
     barChartVertical.barChartVertical).2 = Ref Chart.
Proof. split; reflexivity. Qed.

(** The vertical chart assigns the linear scale that the multi-series chart
    drops. *)
Example vertical_init_derives_yScale :
  (barChartVertical.yScale <$>
     barChartVertical.init (H := concrete.nice)
       (Some (Dataset concrete.quarters)) barChartVertical.barChartVertical)
  = Some (Some (d3.OfLinear (d3.Linear [Num 0; Num 20] [Num 0; Num 40]))) ∧
  (barChartMultiSeries.yScale <$>
     barChartMultiSeries.init (H := concrete.nice)
       (Some (Dataset concrete.quarters))
       barChartMultiSeries.barChartMultiSeries)
  = Some None.
Proof. split; vm_compute; reflexivity. Qed.

(** * Further properties of the two charts *)

(** ** What a call does to the variables *)

Section Variables.
Context `{d3.Nice} `{component.Render}.

Lemma vertical_init_config data v v' :
  barChartVertical.init data v = Some v' →
  barChartVertical.dimensions v' = barChartVertical.dimensions v ∧
  barChartVertical.colors v' = barChartVertical.colors v.
Proof.
  unfold barChartVertical.init.
  destruct (dataTransform.summarize data); simpl; [| done].
  intros [= <-]. by destruct v as [? ? ? ? ? ? [?|] [?|] [?|]].
Qed.

(** After [init] the vertical chart has its three scales. *)
Lemma vertical_init_defined data v v' :
  barChartVertical.init data v = Some v' →
  is_Some (barChartVertical.xScale v') ∧
  is_Some (barChartVertical.yScale v') ∧
  is_Some (barChartVertical.colorScale v').
Proof.
  unfold barChartVertical.init.
  destruct (dataTransform.summarize data); simpl; [| done].
  intros [= <-]. destruct v as [? ? ? ? ? ? [?|] [?|] [?|]]; simpl; eauto.
Qed.

Lemma multi_init_defined data v v' :
  barChartMultiSeries.init data v = Some v' →
  is_Some (barChartMultiSeries.xScale v') ∧
  is_Some (barChartMultiSeries.zScale v') ∧
  is_Some (barChartMultiSeries.colorScale v').
Proof.
  unfold barChartMultiSeries.init.
  destruct (dataTransform.summarize data); simpl; [| done].
  intros [= <-]. destruct v as [? ? ? ? ? ? [?|] [?|] [?|] [?|]]; simpl; eauto.
Qed.

Lemma vertical_settled_stays selection s :
  settled barChartVertical.init s →
  vars_after (barChartVertical.my selection s) = s.
Proof.
  intros Hs. apply (vertical_my_keeps (λ v, v = s)); [| done].
  intros data v v' Hinit ->. by eapply Hs.
Qed.

Lemma multi_settled_stays selection s :
  settled barChartMultiSeries.init s →
  vars_after (barChartMultiSeries.my selection s) = s.
Proof.
  intros Hs. apply (multi_my_keeps (λ v, v = s)); [| done].
  intros data v v' Hinit ->. by eapply Hs.
Qed.

End Variables.

(** X1: the scales are derived once.  When [init] has run on some data, a
    later call of the chart, on whatever selection and whatever data,
    leaves every variable as it is, and the sub-components of that call are
    given the x-scale that was derived from the first data. *)
Theorem scales_are_derived_once `{d3.Nice} `{component.Render}
    (selection : list Node) (data : option bound_data) :
  (∀ s s' : barChartVertical.vars,
     barChartVertical.init data s = Some s' →
     vars_after (barChartVertical.my selection s') = s' ∧
     (∀ later, barChartVertical.init later s' = None ∨
               barChartVertical.init later s' = Some s') ∧
     Forall (hands "x" "xScale" (barChartVertical.xScale s'))
            (called (barChartVertical.my selection s'))) ∧
  (∀ s s' : barChartMultiSeries.vars,
     barChartMultiSeries.init data s = Some s' →
     vars_after (barChartMultiSeries.my selection s') = s' ∧
     (∀ later, barChartMultiSeries.init later s' = None ∨
               barChartMultiSeries.init later s' = Some s') ∧
     Forall (hands "x" "xScale" (barChartMultiSeries.xScale s'))
            (called (barChartMultiSeries.my selection s'))).
Proof.
  split; intros s s' Hinit.
  - pose proof (vertical_init_settles _ _ _ Hinit) as Hs.
    split; [by apply vertical_settled_stays |]. split.
    + intros later. destruct (barChartVertical.init later s') as [s''|] eqn:E;
        [right; f_equal; by eapply Hs | by left].
    + destruct (vertical_init_defined _ _ _ Hinit) as [[sc Hsc] _].
      rewrite Hsc.
      apply (vertical_my_inv (λ v, barChartVertical.xScale v = Some sc));
        [ intros d v v' Hi; apply (vertical_init_keeps _ _ _ Hi)
        | hands_settings | intros; by apply vertical_draw_hands_x | done ].
  - pose proof (multi_init_settles _ _ _ Hinit) as Hs.
    split; [by apply multi_settled_stays |]. split.
    + intros later. destruct (barChartMultiSeries.init later s') as [s''|] eqn:E;
        [right; f_equal; by eapply Hs | by left].
    + destruct (multi_init_defined _ _ _ Hinit) as [[sc Hsc] _].
      rewrite Hsc.
      apply (multi_my_inv (λ v, barChartMultiSeries.xScale v = Some sc));
        [ intros d v v' Hi; apply (multi_init_keeps _ _ _ Hi)
        | hands_settings | intros; by apply multi_draw_hands_x | done ].
Qed.

(** ** The data of the first container *)

Section First.
Context `{component.Render} {V : Type}.
Variable init : option bound_data → V → option V.
Variable draw : V → option bound_data → M V unit.
Hypothesis init_settles :
  ∀ data v v', init data v = Some v' → settled init v'.
Hypothesis draw_dom_only : ∀ v data, dom_only (draw v data).

(** After the first scene, on which [init] returns, the variables stay. *)
Lemma first_settles i idx v d v' :
  init (scenes d !! i ≫= bound) v = Some v' →
  (each_from (scene_body init draw) (i :: idx) v d).1.1 = v'.
Proof.
  intros Hinit. rewrite each_from_cons.
  unfold scene_body at 1. unfold bind, on_vars, get. rewrite Hinit.
  set (data := scenes d !! i ≫= bound) in *.
  destruct (draw_dom_only v' data v' d) as [Hv _].
  destruct (draw v' data v' d) as [[v1 d1] [[]|]]; simpl in *; subst v1;
    [| done].
  apply (keeps_each_from (λ w _, w = v') (scene_body init draw) idx); [| done].
  intros data'. unfold scene_body. apply keeps_bind.
  - apply keeps_on_vars. intros w w' _ Hw ->.
    by eapply (init_settles _ _ _ Hinit).
  - intros _. apply keeps_bind; [apply keeps_get |].
    intros s. apply dom_only_keeps_vars, draw_dom_only.
Qed.

Lemma each_first sc rest v d v' :
  scenes d = sc :: rest → init (bound sc) v = Some v' →
  (each (scene_body init draw) v d).1.1 = v'.
Proof.
  intros Hsc Hinit. unfold each. rewrite Hsc. simpl length. simpl seq.
  apply first_settles. by rewrite Hsc.
Qed.

End First.

Section FirstContainer.
Context `{d3.Nice} `{component.Render}.

Lemma vertical_first (c : Node) (rest : list Node)
    (s s' : barChartVertical.vars) :
  (∀ n, (component.render
           (component.viewpoint .> component.quickView "left") n).2 = Normal ∧
        bound (component.render
           (component.viewpoint .> component.quickView "left") n).1 = bound n) →
  barChartVertical.init (bound c) s = Some s' →
  vars_after (barChartVertical.my (c :: rest) s) = s'.
Proof.
  intros Hvp Hinit. rewrite vertical_my_eq. cbv zeta.
  rewrite finish_vars_after. unfold bind at 1.
  match goal with |- context [call ?vp s ?d] =>
    destruct (call_dom_only (V := barChartVertical.vars) vp s d) as [Hv _];
    pose proof (call_each_returns_bound vp (scenes d) Hvp) as (Hk & Hl & Hb);
    unfold call, on_dom in *;
    destruct (call_each vp (scenes d)) as [s1 k]
  end.
  simpl in *. subst k. simpl.
  destruct s1 as [|sc s1]; [done |]. injection Hb as Hb _.
  eapply (each_first barChartVertical.init barChartVertical.draw
            vertical_init_settles vertical_draw_dom_only sc); [done |].
  by rewrite Hb.
Qed.

Lemma multi_first (c : Node) (rest : list Node)
    (s s' : barChartMultiSeries.vars) :
  (∀ n, (component.render
           (component.viewpoint
              .> component.centerOfRotation
                   [x (barChartMultiSeries.dimensions s) / 2;
                    y (barChartMultiSeries.dimensions s) / 2;
                    z (barChartMultiSeries.dimensions s) / 2]%Q) n).2
        = Normal ∧
        bound (component.render
           (component.viewpoint
              .> component.centerOfRotation
                   [x (barChartMultiSeries.dimensions s) / 2;
                    y (barChartMultiSeries.dimensions s) / 2;
                    z (barChartMultiSeries.dimensions s) / 2]%Q) n).1
        = bound n) →
  barChartMultiSeries.init (bound c) s = Some s' →
  vars_after (barChartMultiSeries.my (c :: rest) s) = s'.
Proof.
  intros Hvp Hinit. rewrite multi_my_eq. cbv zeta.
  rewrite finish_vars_after. unfold bind at 1.
  match goal with |- context [call ?vp s ?d] =>
    destruct (call_dom_only (V := barChartMultiSeries.vars) vp s d) as [Hv _];
    pose proof (call_each_returns_bound vp (scenes d) Hvp) as (Hk & Hl & Hb);
    unfold call, on_dom in *;
    destruct (call_each vp (scenes d)) as [s1 k]
  end.
  simpl in *. subst k. simpl.
  destruct s1 as [|sc s1]; [done |]. injection Hb as Hb _.
  unfold bind at 1. simpl.
  eapply (each_first barChartMultiSeries.init barChartMultiSeries.draw
            multi_init_settles multi_draw_dom_only); [done |].
  simpl. by rewrite Hb.
Qed.

End FirstContainer.

(** X2: called on several containers, a chart derives its scales from the
    data of the first container alone: when the viewpoint sub-component
    returns and leaves the datum of the scenes, the variables after the call
    are those that [init] sets from the datum of the first container,
    whatever the other containers are and are bound to. *)
Theorem first_container_decides_the_scales `{d3.Nice} `{component.Render}
    (c : Node) (rest : list Node) :
  (∀ s s' : barChartVertical.vars,
     (∀ n, (component.render
              (component.viewpoint .> component.quickView "left") n).2
           = Normal ∧
           bound (component.render
              (component.viewpoint .> component.quickView "left") n).1
           = bound n) →
     barChartVertical.init (bound c) s = Some s' →
     vars_after (barChartVertical.my (c :: rest) s) = s') ∧
  (∀ s s' : barChartMultiSeries.vars,
     (∀ n, (component.render
              (component.viewpoint
                 .> component.centerOfRotation
                      [x (barChartMultiSeries.dimensions s) / 2;
                       y (barChartMultiSeries.dimensions s) / 2;
                       z (barChartMultiSeries.dimensions s) / 2]%Q) n).2
           = Normal ∧
           bound (component.render
              (component.viewpoint
                 .> component.centerOfRotation
                      [x (barChartMultiSeries.dimensions s) / 2;
                       y (barChartMultiSeries.dimensions s) / 2;
                       z (barChartMultiSeries.dimensions s) / 2]%Q) n).1
           = bound n) →
     barChartMultiSeries.init (bound c) s = Some s' →
     vars_after (barChartMultiSeries.my (c :: rest) s) = s').
Proof.
  split; intros s s' Hvp Hinit.
  - by apply vertical_first.
  - by apply multi_first.
Qed.

Section Configuration.
Context `{d3.Nice} `{component.Render}.

Lemma vertical_my_config selection s :
  vertical_same_configuration s
    (vars_after (barChartVertical.my selection s)).
Proof.
  apply (vertical_my_keeps (vertical_same_configuration s)).
  - intros data v v' Hinit (Hw & Hh & Hd & Hc & Hcl & Hdb).
    destruct (vertical_init_fields _ _ _ Hinit) as (Hw' & Hh' & Hdb' & Hcl').
    destruct (vertical_init_config _ _ _ Hinit) as (Hd' & Hc').
    unfold vertical_same_configuration. by rewrite Hw', Hh', Hdb', Hcl', Hd', Hc'.
  - by unfold vertical_same_configuration.
Qed.

Lemma multi_my_config selection s :
  multi_same_configuration s
    (vars_after (barChartMultiSeries.my selection s)).
Proof.
  apply (multi_my_keeps (multi_same_configuration s)).
  - intros data v v' Hinit (Hw & Hh & Hd & Hc & Hcl & Hdb).
    destruct (multi_init_fields _ _ _ Hinit)
      as (Hw' & Hh' & Hdb' & Hcl' & Hd').
    pose proof (multi_init_colors _ _ _ Hinit) as Hc'.
    unfold multi_same_configuration. by rewrite Hw', Hh', Hdb', Hcl', Hd', Hc'.
  - by unfold multi_same_configuration.
Qed.

End Configuration.

(** X3: a call of a chart writes to no variable but a scale that is
    undefined.  [width], [height], [dimensions], [colors], [classed] and
    [debug] are after the call what they were before it, and a scale that
    differs after the call was undefined before it; in the multi-series
    chart [yScale] never differs. *)
Theorem call_writes_undefined_scales_only `{d3.Nice} `{component.Render}
    (selection : list Node) :
  (∀ s : barChartVertical.vars,
     let s' := vars_after (barChartVertical.my selection s) in
     vertical_same_configuration s s' ∧
     (barChartVertical.xScale s' = barChartVertical.xScale s ∨
      barChartVertical.xScale s = None) ∧
     (barChartVertical.yScale s' = barChartVertical.yScale s ∨
      barChartVertical.yScale s = None) ∧
     (barChartVertical.colorScale s' = barChartVertical.colorScale s ∨
      barChartVertical.colorScale s = None)) ∧
  (∀ s : barChartMultiSeries.vars,
     let s' := vars_after (barChartMultiSeries.my selection s) in
     multi_same_configuration s s' ∧
     (barChartMultiSeries.xScale s' = barChartMultiSeries.xScale s ∨
      barChartMultiSeries.xScale s = None) ∧
     barChartMultiSeries.yScale s' = barChartMultiSeries.yScale s ∧
     (barChartMultiSeries.zScale s' = barChartMultiSeries.zScale s ∨
      barChartMultiSeries.zScale s = None) ∧
     (barChartMultiSeries.colorScale s' = barChartMultiSeries.colorScale s ∨
      barChartMultiSeries.colorScale s = None)).
Proof.
  split; intros s s'; subst s'.
  - split; [apply vertical_my_config |].
    refine (conj _ (conj _ _)).
    + destruct (barChartVertical.xScale s) as [sc|] eqn:E; [left | by right].
      apply (vertical_my_keeps (λ v, barChartVertical.xScale v = Some sc));
        [| done].
      intros data v v' Hi. apply (vertical_init_keeps _ _ _ Hi).
    + destruct (barChartVertical.yScale s) as [sc|] eqn:E; [left | by right].
      apply (vertical_my_keeps (λ v, barChartVertical.yScale v = Some sc));
        [| done].
      intros data v v' Hi. apply (vertical_init_keeps _ _ _ Hi).
    + destruct (barChartVertical.colorScale s) as [sc|] eqn:E;
        [left | by right].
      apply (vertical_my_keeps (λ v, barChartVertical.colorScale v = Some sc));
        [| done].
      intros data v v' Hi. apply (vertical_init_keeps _ _ _ Hi).
  - split; [apply multi_my_config |].
    refine (conj _ (conj _ (conj _ _))).
    + destruct (barChartMultiSeries.xScale s) as [sc|] eqn:E; [left | by right].
      apply (multi_my_keeps (λ v, barChartMultiSeries.xScale v = Some sc));
        [| done].
      intros data v v' Hi. apply (multi_init_keeps _ _ _ Hi).
    + apply (multi_my_keeps
               (λ v, barChartMultiSeries.yScale v = barChartMultiSeries.yScale s));
        [| done].
      intros data v v' Hi <-. by apply multi_init_yScale with data.
    + destruct (barChartMultiSeries.zScale s) as [sc|] eqn:E; [left | by right].
      apply (multi_my_keeps (λ v, barChartMultiSeries.zScale v = Some sc));
        [| done].
      intros data v v' Hi. apply (multi_init_keeps _ _ _ Hi).
    + destruct (barChartMultiSeries.colorScale s) as [sc|] eqn:E;
        [left | by right].
      apply (multi_my_keeps
               (λ v, barChartMultiSeries.colorScale v = Some sc)); [| done].
      intros data v v' Hi. apply (multi_init_keeps _ _ _ Hi).
Qed.

(** X4: in the multi-series chart without a y-scale of the caller, every
    sub-component that is given a y-scale during a call is given
    [undefined]. *)
Theorem multi_hands_an_undefined_yScale `{d3.Nice} `{component.Render}
    (selection : list Node) (s : barChartMultiSeries.vars) :
  barChartMultiSeries.yScale s = None →
  Forall (hands "y" "yScale" None)
         (called (barChartMultiSeries.my selection s)).
Proof.
  intros Hy.
  apply (multi_my_inv (λ v, barChartMultiSeries.yScale v = None)).
  - intros data v v' Hi Hv. by rewrite (multi_init_yScale _ _ _ Hi).
  - hands_settings.
  - intros v data Hv. unfold barChartMultiSeries.draw. rewrite Hv.
    logged_steps; hands_settings.
  - exact Hy.
Qed.

(** ** The sub-components that a call calls *)

Section Log.
Context `{component.Render} {V : Type}.

(** What the steps on the scenes add to the list of the sub-components
    that were called. *)
Lemma select_handed name (v : V) d :
  handed (select name v d).1.2 = handed d ∧ is_Some (select name v d).2.
Proof. by split; [| eexists]. Qed.

Lemma datum_handed data sub (v : V) d :
  handed (datum data sub v d).1.2 = handed d ∧
  (datum data sub v d).2 = Some sub.
Proof. done. Qed.

Lemma call_at_handed c sub (v : V) d :
  handed (call_at c sub v d).1.2 = handed d ++ [c].
Proof.
  unfold call_at, on_dom. by destruct (call_each_at c (scenes d) sub).
Qed.

Lemma call_handed c (v : V) d :
  handed (call c v d).1.2 = handed d ++ [c].
Proof. unfold call, on_dom. by destruct (call_each c (scenes d)). Qed.

Variable init : option bound_data → V → option V.
Variable draw : V → option bound_data → M V unit.
Variable components : V → list component.instance.
Hypothesis init_settles :
  ∀ data v v', init data v = Some v' → settled init v'.
Hypothesis draw_dom_only : ∀ v data, dom_only (draw v data).
Hypothesis draw_components :
  ∀ data v v', init data v = Some v' →
    ∀ data' w d, is_Some (draw v' data' w d).2 →
      handed (draw v' data' w d).1.2 = handed d ++ components v'.

Lemma scene_body_run data v d :
  scene_body init draw data v d =
  match init data v with
  | Some v' => draw v' data v' d
  | None => (v, d, None)
  end.
Proof.
  unfold scene_body, bind, on_vars, get. by destruct (init data v).
Qed.

Lemma each_from_handed idx v d :
  is_Some (each_from (scene_body init draw) idx v d).2 →
  handed (each_from (scene_body init draw) idx v d).1.2 =
  handed d ++
  mjoin (replicate (length idx)
           (components (each_from (scene_body init draw) idx v d).1.1)).
Proof.
  revert v d. induction idx as [|i idx IH]; intros v d.
  { intros _. simpl. by rewrite app_nil_r. }
  rewrite each_from_cons, scene_body_run.
  set (data := scenes d !! i ≫= bound).
  destruct (init data v) as [v'|] eqn:Hinit; [| by intros [? [=]]].
  pose proof (init_settles _ _ _ Hinit) as Hv'.
  destruct (draw_dom_only v' data v' d) as [Hvars _].
  pose proof (draw_components _ _ _ Hinit data v' d) as Hlog.
  destruct (draw v' data v' d) as [[v1 d1] [[]|]]; simpl in Hvars, Hlog;
    [| by intros [? [=]]].
  subst v1. specialize (Hlog ltac:(eauto)).
  assert ((each_from (scene_body init draw) idx v' d1).1.1 = v') as Hstay.
  { apply (keeps_each_from (λ w _, w = v') (scene_body init draw) idx);
      [| done].
    intros data'. unfold scene_body. apply keeps_bind.
    - apply keeps_on_vars. intros w w' _ Hw ->. by eapply Hv'.
    - intros _. apply keeps_bind; [apply keeps_get |].
      intros s. apply dom_only_keeps_vars, draw_dom_only. }
  intros Hsome. rewrite (IH v' d1 Hsome), Hlog, Hstay.
  simpl. by rewrite <- app_assoc.
Qed.

Lemma steps_handed (m0 : M V unit) (c0 : component.instance) v d :
  (∀ w e, handed (m0 w e).1.2 = handed e ++ [c0] ∧
          length (scenes (m0 w e).1.2) = length (scenes e)) →
  is_Some ((m0 ;; each (scene_body init draw)) v d).2 →
  handed ((m0 ;; each (scene_body init draw)) v d).1.2 =
  handed d ++ c0 ::
  mjoin (replicate (length (scenes d))
           (components ((m0 ;; each (scene_body init draw)) v d).1.1)).
Proof.
  intros Hm0. unfold bind. destruct (Hm0 v d) as [Hlog Hlen].
  destruct (m0 v d) as [[v1 d1] [[]|]]; simpl in *; [| by intros [? [=]]].
  unfold each. intros Hsome.
  rewrite (each_from_handed _ _ _ Hsome), Hlog, length_seq, Hlen.
  by rewrite <- app_assoc.
Qed.

End Log.

Section Adds.
Context `{component.Render} {V : Type}.

Lemma adds_bind {A B} cs1 cs2 (m : M V A) (k : A → M V B) :
  adds cs1 m → (∀ a, adds cs2 (k a)) → adds (cs1 ++ cs2) (bind m k).
Proof.
  intros Hm Hk v d. unfold bind. specialize (Hm v d).
  destruct (m v d) as [[v' d'] [a|]]; simpl in *; [| by intros [? [=]]].
  intros Hsome. rewrite (Hk a v' d' Hsome), Hm by eauto.
  by rewrite app_assoc.
Qed.

Lemma adds_ret {A} (a : A) : adds (V := V) [] (ret a).
Proof. intros v d _. simpl. by rewrite app_nil_r. Qed.

Lemma adds_ret_bind {A B} cs (a : A) (k : A → M V B) :
  adds cs (k a) → adds cs (bind (ret a) k).
Proof. intros Hk v d. apply Hk. Qed.

Lemma adds_throw {A} cs : adds (V := V) cs (throw (A := A)).
Proof. by intros v d [? [=]]. Qed.

Lemma adds_select name : adds (V := V) [] (select name).
Proof. intros v d _. simpl. by rewrite app_nil_r. Qed.

Lemma adds_datum data sub : adds (V := V) [] (datum data sub).
Proof. intros v d _. simpl. by rewrite app_nil_r. Qed.

Lemma adds_call_at c sub : adds (V := V) [c] (call_at c sub).
Proof. intros v d _. apply call_at_handed. Qed.

End Adds.

Section Called.
Context `{d3.Nice} `{component.Render}.

Lemma vertical_draw_adds v data :
  is_Some (barChartVertical.yScale v) →
  adds (vertical_components v) (barChartVertical.draw v data).
Proof.
  intros [ys Hys]. unfold barChartVertical.draw, vertical_components.
  rewrite Hys. simpl from_option.
  apply adds_ret_bind.
  apply (adds_bind [] _ _ _ (adds_select _)). intros sub.
  apply (adds_bind [_] [_; _] _ _ (adds_call_at _ _)). intros _.
  apply (adds_bind [] _ _ _ (adds_select _)). intros sub'.
  apply (adds_bind [_] [_] _ _ (adds_call_at _ _)). intros _.
  apply (adds_bind [] _ _ _ (adds_select _)). intros sub''.
  apply (adds_bind [] _ _ _ (adds_datum _ _)). intros sub'''.
  apply adds_call_at.
Qed.

Lemma multi_draw_adds v data :
  adds (multi_components v) (barChartMultiSeries.draw v data).
Proof.
  unfold barChartMultiSeries.draw, multi_components.
  apply (adds_bind [] _ _ _ (adds_select _)). intros sub.
  apply (adds_bind [_] [_] _ _ (adds_call_at _ _)). intros _.
  apply (adds_bind [] _ _ _ (adds_select _)). intros sub'.
  apply (adds_bind [] _ _ _ (adds_datum _ _)). intros sub''.
  apply adds_call_at.
Qed.

End Called.

Lemma finish_fields {V} (selection x3d : list Node)
    (out : V * dom * option unit) :
  called (finish selection x3d out) = handed out.1.2 ∧
  (ended (finish selection x3d out) = Normal ↔ is_Some out.2).
Proof.
  destruct out as [[v d] [[]|]]; simpl; (split; [done |]).
  - split; eauto.
  - split; [done | by intros [? [=]]].
Qed.

Section CalledByMy.
Context `{d3.Nice} `{component.Render}.

Lemma vertical_completed_called selection s :
  ended (barChartVertical.my selection s) = Normal →
  called (barChartVertical.my selection s) =
  (component.viewpoint .> component.quickView "left")
  :: mjoin (replicate (length selection)
              (vertical_components
                 (vars_after (barChartVertical.my selection s)))).
Proof.
  rewrite vertical_my_eq. cbv zeta.
  match goal with |- context [finish ?sel ?x3d (?m s ?d)] =>
    destruct (finish_fields sel x3d (m s d)) as [-> ->];
    rewrite finish_vars_after
  end.
  intros Hsome.
  change barChartVertical.each_scene
    with (scene_body barChartVertical.init barChartVertical.draw) in *.
  rewrite (steps_handed barChartVertical.init barChartVertical.draw
             vertical_components vertical_init_settles vertical_draw_dom_only)
    with (c0 := component.viewpoint .> component.quickView "left");
    try done.
  - simpl. unfold scaffold, x3d_elements. by rewrite !length_fmap.
  - intros data v v' Hinit data' w d.
    apply vertical_draw_adds, (vertical_init_defined _ _ _ Hinit).
  - intros w e. split; [apply call_handed |].
    by apply (as_many_call (length (scenes e)) _ w e).
Qed.

Lemma multi_completed_called selection s :
  ended (barChartMultiSeries.my selection s) = Normal →
  called (barChartMultiSeries.my selection s) =
  (component.viewpoint
     .> component.centerOfRotation
          [x (barChartMultiSeries.dimensions s) / 2;
           y (barChartMultiSeries.dimensions s) / 2;
           z (barChartMultiSeries.dimensions s) / 2]%Q)
  :: mjoin (replicate (length selection)
              (multi_components
                 (vars_after (barChartMultiSeries.my selection s)))).
Proof.
  rewrite multi_my_eq. cbv zeta.
  match goal with |- context [finish ?sel ?x3d (?m s ?d)] =>
    destruct (finish_fields sel x3d (m s d)) as [-> ->];
    rewrite finish_vars_after
  end.
  rewrite <- !bind_assoc. intros Hsome.
  change barChartMultiSeries.each_scene
    with (scene_body barChartMultiSeries.init barChartMultiSeries.draw) in *.
  rewrite (steps_handed barChartMultiSeries.init barChartMultiSeries.draw
             multi_components multi_init_settles multi_draw_dom_only)
    with (c0 := component.viewpoint
                  .> component.centerOfRotation
                       [x (barChartMultiSeries.dimensions s) / 2;
                        y (barChartMultiSeries.dimensions s) / 2;
                        z (barChartMultiSeries.dimensions s) / 2]%Q);
    try done.
  - simpl. unfold scaffold, x3d_elements. by rewrite !length_fmap.
  - intros data v v' Hinit data' w d. apply multi_draw_adds.
  - intros w e. unfold bind.
    pose proof (call_handed (V := barChartMultiSeries.vars)
                  (component.viewpoint
                     .> component.centerOfRotation
                          [x (barChartMultiSeries.dimensions s) / 2;
                           y (barChartMultiSeries.dimensions s) / 2;
                           z (barChartMultiSeries.dimensions s) / 2]%Q) w e)
      as Hlog.
    pose proof (as_many_call (V := barChartMultiSeries.vars)
                  (length (scenes e))
                  (component.viewpoint
                     .> component.centerOfRotation
                          [x (barChartMultiSeries.dimensions s) / 2;
                           y (barChartMultiSeries.dimensions s) / 2;
                           z (barChartMultiSeries.dimensions s) / 2]%Q)
                  w e eq_refl) as Hlen.
    destruct (call _ w e) as [[w1 e1] [[]|]]; simpl in *; [| done].
    by rewrite length_fmap.
Qed.

End CalledByMy.

(** X5: a call that returns has called the viewpoint once and then, once
    per container, the sub-components of the layers in the order of the
    source, all made from the variables that the call leaves: x axis, y
    axis (its tick size the span of the range of the y-scale) and bars in
    the vertical chart, the three-plane axis and the bars in the
    multi-series chart. *)
Theorem completed_call_has_called `{d3.Nice} `{component.Render}
    (selection : list Node) :
  (∀ s : barChartVertical.vars,
     ended (barChartVertical.my selection s) = Normal →
     called (barChartVertical.my selection s) =
     (component.viewpoint .> component.quickView "left")
     :: mjoin (replicate (length selection)
                 (vertical_components
                    (vars_after (barChartVertical.my selection s))))) ∧
  (∀ s : barChartMultiSeries.vars,
     ended (barChartMultiSeries.my selection s) = Normal →
     called (barChartMultiSeries.my selection s) =
     (component.viewpoint
        .> component.centerOfRotation
             [x (barChartMultiSeries.dimensions s) / 2;
              y (barChartMultiSeries.dimensions s) / 2;
              z (barChartMultiSeries.dimensions s) / 2]%Q)
     :: mjoin (replicate (length selection)
                 (multi_components
                    (vars_after (barChartMultiSeries.my selection s))))).
Proof.
  split; intros s Hended.
  - by apply vertical_completed_called.
  - by apply multi_completed_called.
Qed.

(** ** Calls that return *)

Section Returns.
Context `{component.Render}.
Hypothesis returns : ∀ c n, (component.render c n).2 = Normal.

Lemma select_in_bound name sc :
  bound (select_in name sc).1 = bound sc ∧ inner (select_in name sc).2.
Proof.
  unfold select_in, inner.
  destruct (find_first (has_class name) sc) as [path|] eqn:Hfind; [| done].
  destruct (find_first_Some _ _ _ Hfind) as (i & c & rest & -> & _).
  simpl. split; [| done]. by destruct (bound sc) eqn:E; simpl; rewrite ?E.
Qed.

Lemma datum_at_bound data sc w :
  inner w → bound (datum_at data sc w) = bound sc.
Proof. unfold inner. by destruct w as [[|i rest]|]. Qed.

Lemma run_at_bound c sc w :
  inner w → bound (run_at c sc w).1 = bound sc ∧ (run_at c sc w).2 = Normal.
Proof.
  unfold inner, run_at. destruct w as [[|i rest]|]; try done. intros _.
  destruct (lookup_at (i :: rest) sc) as [target|]; [| done].
  unfold component.run. specialize (returns c target).
  by destruct (component.render c target) as [target' []].
Qed.

Lemma call_each_at_data c s sub :
  Forall carries_data s → Forall inner sub →
  (call_each_at c s sub).2 = Normal ∧
  Forall carries_data (call_each_at c s sub).1.
Proof.
  intros Hs. revert sub. induction Hs as [|sc s Hsc Hs IH]; intros sub Hsub.
  { by destruct sub. }
  destruct sub as [|w sub]; [by split; [| constructor] |].
  apply Forall_cons in Hsub as [Hw Hsub]. simpl.
  destruct (run_at_bound c sc w Hw) as [Hb Hk].
  destruct (run_at c sc w) as [sc' k]. simpl in *. subst k.
  destruct (IH sub Hsub) as [Hk' Hs'].
  destruct (call_each_at c s sub) as [s' k']. simpl in *.
  split; [done |]. constructor; [| done].
  destruct Hsc as [ds Hds]. exists ds. by rewrite Hb.
Qed.

Lemma datum_each_data data s sub :
  Forall carries_data s → Forall inner sub →
  Forall carries_data (datum_each data s sub).
Proof.
  intros Hs. revert sub. induction Hs as [|sc s Hsc Hs IH]; intros sub Hsub.
  { by destruct sub. }
  destruct sub as [|w sub]; [by constructor |].
  apply Forall_cons in Hsub as [Hw Hsub]. simpl.
  constructor; [| by apply IH].
  destruct Hsc as [ds Hds]. exists ds. by rewrite datum_at_bound.
Qed.

Lemma select_data name s :
  Forall carries_data s →
  Forall carries_data ((select_in name <$> s).*1) ∧
  Forall inner ((select_in name <$> s).*2).
Proof.
  intros Hs. induction Hs as [|sc s Hsc Hs [IH1 IH2]]; [done |].
  destruct (select_in_bound name sc) as [Hb Hw]. simpl.
  split; constructor; try done.
  destruct Hsc as [ds Hds]. exists ds. by rewrite Hb.
Qed.

Context {V : Type}.

Lemma data_select n name :
  hoare (V := V) (data_scenes n) (select name)
    (λ r v d, data_scenes n v d ∧
              match r with Some sub => Forall inner sub | None => False end).
Proof.
  intros v d [Hn Hd]. destruct (select_data name _ Hd) as [H1 H2].
  split; [split |]; [| exact H1 | exact H2].
  simpl. by rewrite !length_fmap.
Qed.

Lemma data_datum n data sub :
  hoare (V := V) (λ v d, data_scenes n v d ∧ Forall inner sub)
    (datum data sub)
    (λ r v d, data_scenes n v d ∧
              match r with Some sub => Forall inner sub | None => False end).
Proof.
  intros v d [[Hn Hd] Hsub].
  split; [split |]; [| by apply datum_each_data | exact Hsub].
  simpl. by rewrite datum_each_length.
Qed.

Lemma data_call_at n c sub :
  hoare (V := V) (λ v d, data_scenes n v d ∧ Forall inner sub)
    (call_at c sub)
    (λ r v d, data_scenes n v d ∧ is_Some r).
Proof.
  intros v d [[Hn Hd] Hsub]. unfold call_at, on_dom.
  destruct (call_each_at_data c _ sub Hd Hsub) as [Hk Hd'].
  pose proof (call_each_at_length c (scenes d) sub) as Hl.
  destruct (call_each_at c (scenes d) sub) as [s' k]. simpl in *. subst k.
  split; [split |]; simpl; eauto. congruence.
Qed.

End Returns.

Section ChartsReturn.
Context `{d3.Nice} `{component.Render}.
Hypothesis returns : ∀ c n, (component.render c n).2 = Normal.

Lemma vertical_draw_returns n v data :
  is_Some (barChartVertical.yScale v) →
  hoare (data_scenes n) (barChartVertical.draw v data)
    (λ r _ d, data_scenes n v d ∧ is_Some r).
Proof.
  intros [ys Hys]. unfold barChartVertical.draw. rewrite Hys.
  eapply hoare_bind; [apply hoare_ret | intros range | by intros v0 d [[=] _]].
  eapply hoare_bind;
    [ eapply hoare_weaken; [apply (data_select n) | by intros ? ? [_ ?] | done]
    | intros sub | by intros v0 d [_ []] ].
  eapply hoare_bind;
    [ by apply data_call_at | intros [] | by intros v0 d [_ [? [=]]] ].
  eapply hoare_bind;
    [ eapply hoare_weaken; [apply (data_select n) | by intros ? ? [? _] | done]
    | intros sub' | by intros v0 d [_ []] ].
  eapply hoare_bind;
    [ by apply data_call_at | intros [] | by intros v0 d [_ [? [=]]] ].
  eapply hoare_bind;
    [ eapply hoare_weaken; [apply (data_select n) | by intros ? ? [? _] | done]
    | intros sub'' | by intros v0 d [_ []] ].
  eapply hoare_bind;
    [ apply data_datum | intros sub''' | by intros v0 d [_ []] ].
  by apply data_call_at.
Qed.

Lemma multi_draw_returns n v data :
  hoare (data_scenes n) (barChartMultiSeries.draw v data)
    (λ r _ d, data_scenes n v d ∧ is_Some r).
Proof.
  unfold barChartMultiSeries.draw.
  eapply hoare_bind;
    [ apply (data_select n) | intros sub | by intros v0 d [_ []] ].
  eapply hoare_bind;
    [ by apply data_call_at | intros [] | by intros v0 d [_ [? [=]]] ].
  eapply hoare_bind;
    [ eapply hoare_weaken; [apply (data_select n) | by intros ? ? [? _] | done]
    | intros sub' | by intros v0 d [_ []] ].
  eapply hoare_bind;
    [ apply data_datum | intros sub'' | by intros v0 d [_ []] ].
  by apply data_call_at.
Qed.

End ChartsReturn.

Section EachReturns.
Context `{component.Render} {V : Type}.
Variable init : option bound_data → V → option V.
Variable draw : V → option bound_data → M V unit.
Hypothesis init_on_data : ∀ ds v, is_Some (init (Some (Dataset ds)) v).
Hypothesis draw_returns :
  ∀ n data v v', init data v = Some v' →
    hoare (data_scenes n) (draw v' data)
      (λ r _ d, data_scenes n v' d ∧ is_Some r).

Lemma each_from_returns n idx :
  Forall (λ i, (i < n)%nat) idx →
  hoare (data_scenes n) (each_from (scene_body init draw) idx)
    (λ r (v : V) d, data_scenes n v d ∧ is_Some r).
Proof.
  induction 1 as [|i idx Hi Hidx IH]; intros v d Hd.
  { simpl. eauto. }
  rewrite each_from_cons, scene_body_run.
  destruct Hd as [Hn Hd].
  destruct (lookup_lt_is_Some_2 (scenes d) i) as [sc Hsc]; [lia |].
  destruct (proj1 (Forall_lookup _ _) Hd i sc Hsc) as [ds Hds].
  rewrite Hsc. simpl. rewrite Hds.
  destruct (init_on_data ds v) as [v' Hinit]. rewrite Hinit.
  pose proof (draw_returns n _ _ _ Hinit v' d (conj Hn Hd)) as Hdraw.
  destruct (draw v' (Some (Dataset ds)) v' d) as [[v1 d1] [[]|]];
    simpl in Hdraw.
  - apply IH. apply Hdraw.
  - by destruct Hdraw as [_ [? [=]]].
Qed.

Lemma steps_return (m0 : M V unit) n v d :
  (is_Some (m0 v d).2 ∧ data_scenes n v (m0 v d).1.2) →
  is_Some ((m0 ;; each (scene_body init draw)) v d).2.
Proof.
  intros [Hsome Hd]. unfold bind.
  destruct (m0 v d) as [[v1 d1] [[]|]]; simpl in *; [| done].
  unfold each.
  apply (each_from_returns n (seq 0 (length (scenes d1))) ltac:(
           destruct Hd as [<- _]; apply Forall_forall; intros i Hi;
           apply elem_of_seq in Hi; lia) v1 d1 Hd).
Qed.

End EachReturns.

Section MyReturns.
Context `{d3.Nice} `{component.Render}.
Hypothesis returns : ∀ c n, (component.render c n).2 = Normal.
Hypothesis keeps_datum :
  ∀ c n, component.kind c = "viewpoint" →
         bound (component.render c n).1 = bound n.

Lemma viewpoint_data_scenes {V} (vp : component.instance) cls layers w h debug
    (selection : list Node) (v : V) :
  component.kind vp = "viewpoint" →
  Forall carries_data selection →
  is_Some (call vp v (Dom (scaffold cls layers
                             (x3d_elements w h debug selection)) [])).2 ∧
  data_scenes (length selection) v
    (call vp v (Dom (scaffold cls layers
                       (x3d_elements w h debug selection)) [])).1.2.
Proof.
  intros Hvp Hsel. unfold call, on_dom.
  rewrite call_each_returns by done. simpl. split; [eauto |].
  unfold data_scenes. simpl. split.
  - unfold scaffold, x3d_elements. by rewrite !length_fmap.
  - unfold scaffold, x3d_elements. rewrite <- !list_fmap_compose.
    apply Forall_fmap. eapply Forall_impl; [exact Hsel |].
    intros c [ds Hds]. exists ds. simpl.
    unfold component.run.
    specialize (keeps_datum vp
      (Elem "scene" {[ "class" := cls ]} (bound c) (layer_group <$> layers))
      Hvp).
    destruct (component.render vp _) as [sc k]. simpl in *. congruence.
Qed.

Lemma vertical_my_returns selection s :
  Forall carries_data selection →
  ended (barChartVertical.my selection s) = Normal.
Proof.
  intros Hsel. rewrite vertical_my_eq. cbv zeta.
  match goal with |- context [finish ?sel ?x3d (?m s ?d)] =>
    apply (proj2 (finish_fields sel x3d (m s d)))
  end.
  change barChartVertical.each_scene
    with (scene_body barChartVertical.init barChartVertical.draw).
  apply (steps_return barChartVertical.init barChartVertical.draw)
    with (n := length selection).
  - intros ds v. unfold barChartVertical.init. simpl. eauto.
  - intros n data v v' Hinit. apply vertical_draw_returns; [done |].
    apply (vertical_init_defined _ _ _ Hinit).
  - by apply viewpoint_data_scenes.
Qed.

Lemma multi_my_returns selection s :
  Forall carries_data selection →
  ended (barChartMultiSeries.my selection s) = Normal.
Proof.
  intros Hsel. rewrite multi_my_eq. cbv zeta.
  match goal with |- context [finish ?sel ?x3d (?m s ?d)] =>
    apply (proj2 (finish_fields sel x3d (m s d)))
  end.
  rewrite <- !bind_assoc.
  change barChartMultiSeries.each_scene
    with (scene_body barChartMultiSeries.init barChartMultiSeries.draw).
  apply (steps_return barChartMultiSeries.init barChartMultiSeries.draw)
    with (n := length selection).
  - intros ds v. unfold barChartMultiSeries.init. simpl. eauto.
  - intros n data v v' Hinit. by apply multi_draw_returns.
  - unfold bind.
    match goal with |- context [call ?vp s ?d] =>
      destruct (viewpoint_data_scenes vp (barChartMultiSeries.classed s)
                  ["axis"; "chart"] (barChartMultiSeries.width s)
                  (barChartMultiSeries.height s) (barChartMultiSeries.debug s)
                  selection s eq_refl Hsel) as [Hsome [Hn Hd]];
      destruct (call vp s d) as [[v1 d1] [[]|]]
    end; simpl in Hsome, Hn, Hd; [| by destruct Hsome as [? [=]]].
    split; [by eexists |]. split.
    + apply (as_many_append_child (V := barChartMultiSeries.vars)
               (length selection) _ _ v1 d1 Hn).
    + unfold append_child, on_dom. cbn [fst snd scenes].
      apply Forall_fmap. eapply Forall_impl; [exact Hd |].
      intros sc [ds Hds]. by exists ds.
Qed.

End MyReturns.

(** X6: a call returns when every container of the selection is bound to
    chart data, every sub-component returns, and the viewpoint leaves the
    datum of the scene it is called on: neither [init] nor the reading of
    the range of the y-scale throws. *)
Theorem call_returns_on_bound_containers `{d3.Nice} `{component.Render}
    (selection : list Node) :
  Forall carries_data selection →
  (∀ c n, (component.render c n).2 = Normal) →
  (∀ c n, component.kind c = "viewpoint" →
          bound (component.render c n).1 = bound n) →
  (∀ s, ended (barChartVertical.my selection s) = Normal) ∧
  (∀ s, ended (barChartMultiSeries.my selection s) = Normal).
Proof.
  intros Hsel Hret Hvp. split; intros s.
  - by apply vertical_my_returns.
  - by apply multi_my_returns.
Qed.

(** ** A viewpoint that throws *)

Section ViewpointThrows.
Context `{d3.Nice} `{component.Render}.

Lemma call_throws {V} (vp : component.instance) (n : Node) (rest : list Node)
    (v : V) (l : list component.instance) :
  (component.render vp n).2 = Throw →
  ∃ n', call vp v (Dom (n :: rest) l) = (v, Dom (n' :: rest) (l ++ [vp]), None).
Proof.
  intros Hthrow. unfold call, on_dom. simpl. unfold component.run.
  destruct (component.render vp n) as [n' k]. simpl in *. subst k. eauto.
Qed.

End ViewpointThrows.

(** X7: when the viewpoint sub-component throws, the call ends there.  On a
    selection that is not empty the call throws, no sub-component but the
    viewpoint was called, and no variable has changed: [init] has not run
    and no scale is derived. *)
Theorem throwing_viewpoint_ends_the_call `{d3.Nice} `{component.Render}
    (c : Node) (rest : list Node) :
  (∀ vp n, component.kind vp = "viewpoint" →
           (component.render vp n).2 = Throw) →
  (∀ s : barChartVertical.vars,
     let r := barChartVertical.my (c :: rest) s in
     ended r = Throw ∧ vars_after r = s ∧
     called r = [component.viewpoint .> component.quickView "left"]) ∧
  (∀ s : barChartMultiSeries.vars,
     let r := barChartMultiSeries.my (c :: rest) s in
     ended r = Throw ∧ vars_after r = s ∧
     called r =
       [component.viewpoint
          .> component.centerOfRotation
               [x (barChartMultiSeries.dimensions s) / 2;
                y (barChartMultiSeries.dimensions s) / 2;
                z (barChartMultiSeries.dimensions s) / 2]%Q]).
Proof.
  intros Hthrow. split; intros s r; subst r.
  - rewrite vertical_my_eq. cbv zeta.
    unfold x3d_elements, scaffold. rewrite !fmap_cons.
    match goal with |- context [bind (call ?vp) ?k s (Dom (?n :: ?l) [])] =>
      destruct (call_throws vp n l s [] (Hthrow vp n eq_refl)) as [n' Hc];
      assert (bind (call vp) k s (Dom (n :: l) []) = (s, Dom (n' :: l) [vp], None))
        as -> by (unfold bind; rewrite Hc; done)
    end.
    done.
  - rewrite multi_my_eq. cbv zeta.
    unfold x3d_elements, scaffold. rewrite !fmap_cons.
    match goal with |- context [bind (call ?vp) ?k s (Dom (?n :: ?l) [])] =>
      destruct (call_throws vp n l s [] (Hthrow vp n eq_refl)) as [n' Hc];
      assert (bind (call vp) k s (Dom (n :: l) []) = (s, Dom (n' :: l) [vp], None))
        as -> by (unfold bind; rewrite Hc; done)
    end.
    done.
Qed.

(** ** Width, height and debug *)

Section Canvas.
Context `{d3.Nice} `{component.Render}.

Lemma scaffold_x3d (cls : string) (layers : list string)
    (w h : Z) (db : bool) (w' h' : Z) (db' : bool) (selection : list Node) :
  scaffold cls layers (x3d_elements w h db selection) =
  scaffold cls layers (x3d_elements w' h' db' selection).
Proof.
  unfold scaffold, x3d_elements. rewrite <- !list_fmap_compose.
  by apply list_fmap_ext.
Qed.

Lemma vertical_init_but_canvas data v1 v2 :
  vertical_but_canvas v1 v2 →
  match barChartVertical.init data v1, barChartVertical.init data v2 with
  | Some a, Some b => vertical_but_canvas a b
  | None, None => True
  | _, _ => False
  end.
Proof.
  unfold vertical_but_canvas, barChartVertical.init.
  destruct (dataTransform.summarize data); simpl; [| done].
  destruct v1 as [? ? ? ? ? ? [?|] [?|] [?|]],
           v2 as [? ? ? ? ? ? [?|] [?|] [?|]];
    cbn; intros [=]; subst; done.
Qed.

Lemma vertical_draw_but_canvas data v1 v2 :
  vertical_but_canvas v1 v2 →
  barChartVertical.draw v1 data = barChartVertical.draw v2 data.
Proof.
  unfold vertical_but_canvas, barChartVertical.draw.
  destruct v1, v2; cbn. intros [=]; subst. reflexivity.
Qed.

Lemma multi_init_but_canvas data v1 v2 :
  multi_but_canvas v1 v2 →
  match barChartMultiSeries.init data v1, barChartMultiSeries.init data v2 with
  | Some a, Some b => multi_but_canvas a b
  | None, None => True
  | _, _ => False
  end.
Proof.
  unfold multi_but_canvas, barChartMultiSeries.init.
  destruct (dataTransform.summarize data); simpl; [| done].
  destruct v1 as [? ? ? ? ? ? [?|] [?|] [?|] [?|]],
           v2 as [? ? ? ? ? ? [?|] [?|] [?|] [?|]];
    cbn; intros [=]; subst; done.
Qed.

Lemma multi_draw_but_canvas data v1 v2 :
  multi_but_canvas v1 v2 →
  barChartMultiSeries.draw v1 data = barChartMultiSeries.draw v2 data.
Proof.
  unfold multi_but_canvas, barChartMultiSeries.draw.
  destruct v1, v2; cbn. intros [=]; subst. reflexivity.
Qed.

Lemma vertical_steps_as_many (selection : list Node) vp s d :
  length (scenes d) = length selection →
  length (scenes ((call vp ;; each barChartVertical.each_scene) s d).1.2)
    = length selection.
Proof.
  intros Hd.
  assert (keeps (as_many (length selection))
            (call vp ;; each barChartVertical.each_scene)) as Hm.
  { apply keeps_bind; [apply as_many_call |].
    intros _. apply keeps_each. intros data.
    unfold barChartVertical.each_scene.
    apply keeps_bind; [by apply keeps_on_vars |].
    intros _ v0 d0 Hd0. apply vertical_draw_as_many, Hd0. }
  apply (Hm s d Hd).
Qed.

Lemma multi_steps_as_many (selection : list Node) vp name a s d :
  length (scenes d) = length selection →
  length
    (scenes ((call vp ;; append_child name a ;;
              each barChartMultiSeries.each_scene) s d).1.2)
    = length selection.
Proof.
  intros Hd.
  assert (keeps (as_many (length selection))
            (call vp ;; append_child name a ;;
             each barChartMultiSeries.each_scene)) as Hm.
  { apply keeps_bind; [apply as_many_call |].
    intros _. apply keeps_bind; [apply as_many_append_child |].
    intros _. apply keeps_each. intros data.
    unfold barChartMultiSeries.each_scene.
    apply keeps_bind; [by apply keeps_on_vars |].
    intros _ v0 d0 Hd0. apply multi_draw_as_many, Hd0. }
  apply (Hm s d Hd).
Qed.

Lemma scaffold_length cls layers w h db (selection : list Node) :
  length (scaffold cls layers (x3d_elements w h db selection))
    = length selection.
Proof. unfold scaffold, x3d_elements. by rewrite !length_fmap. Qed.

Lemma vertical_my_but_canvas selection v1 v2 :
  vertical_but_canvas v1 v2 →
  let r1 := barChartVertical.my selection v1 in
  let r2 := barChartVertical.my selection v2 in
  called r2 = called r1 ∧ ended r2 = ended r1 ∧
  vertical_but_canvas (vars_after r1) (vars_after r2) ∧
  ∃ scenes' : list Node,
    length scenes' = length selection ∧
    document r1 =
      zip_with
        (λ c sc,
           adopt c (Elem "x3d"
                      (x3d_attrs (barChartVertical.width v1)
                         (barChartVertical.height v1)
                         (barChartVertical.debug v1))
                      (bound c) [sc]))
        selection scenes' ∧
    document r2 =
      zip_with
        (λ c sc,
           adopt c (Elem "x3d"
                      (x3d_attrs (barChartVertical.width v2)
                         (barChartVertical.height v2)
                         (barChartVertical.debug v2))
                      (bound c) [sc]))
        selection scenes'.
Proof.
  intros HR. cbv zeta. rewrite !vertical_my_eq. cbv zeta.
  assert (barChartVertical.classed v2 = barChartVertical.classed v1) as ->.
  { destruct v1, v2. unfold vertical_but_canvas in HR. cbn in HR.
    by simplify_eq. }
  rewrite (scaffold_x3d _ _ (barChartVertical.width v2)
             (barChartVertical.height v2) (barChartVertical.debug v2)
             (barChartVertical.width v1) (barChartVertical.height v1)
             (barChartVertical.debug v1)).
  match goal with |- context [finish _ _ (?m v1 ?d)] =>
    assert (related vertical_but_canvas m) as Hm;
      [| destruct (Hm v1 v2 d HR) as (HR' & Hd & Hr);
         assert (length (scenes (m v1 d).1.2) = length selection) as Hl
           by (apply vertical_steps_as_many, scaffold_length);
         destruct (m v1 d) as [[a1 d1] r1], (m v2 d) as [[a2 d2] r2];
         simpl in HR', Hd, Hr, Hl; subst d2 r2 ]
  end.
  - apply related_bind; [apply related_dom_only, call_dom_only |].
    intros _. apply related_each. intros data.
    unfold barChartVertical.each_scene. apply related_bind.
    + apply related_on_vars. intros. by apply vertical_init_but_canvas.
    + intros _. apply related_get_then.
      * intros v. apply vertical_draw_dom_only.
      * intros. by apply vertical_draw_but_canvas.
  - unfold finish. cbn [called ended vars_after document].
    refine (conj eq_refl (conj eq_refl (conj HR' _))).
    exists (scenes d1). rewrite !attach_x3d by done. done.
Qed.

Lemma multi_my_but_canvas selection v1 v2 :
  multi_but_canvas v1 v2 →
  let r1 := barChartMultiSeries.my selection v1 in
  let r2 := barChartMultiSeries.my selection v2 in
  called r2 = called r1 ∧ ended r2 = ended r1 ∧
  multi_but_canvas (vars_after r1) (vars_after r2) ∧
  ∃ scenes' : list Node,
    length scenes' = length selection ∧
    document r1 =
      zip_with
        (λ c sc,
           adopt c (Elem "x3d"
                      (x3d_attrs (barChartMultiSeries.width v1)
                         (barChartMultiSeries.height v1)
                         (barChartMultiSeries.debug v1))
                      (bound c) [sc]))
        selection scenes' ∧
    document r2 =
      zip_with
        (λ c sc,
           adopt c (Elem "x3d"
                      (x3d_attrs (barChartMultiSeries.width v2)
                         (barChartMultiSeries.height v2)
                         (barChartMultiSeries.debug v2))
                      (bound c) [sc]))
        selection scenes'.
Proof.
  intros HR. cbv zeta. rewrite !multi_my_eq. cbv zeta.
  assert (barChartMultiSeries.classed v2 = barChartMultiSeries.classed v1 ∧
          barChartMultiSeries.dimensions v2 = barChartMultiSeries.dimensions v1)
    as [-> ->].
  { destruct v1, v2. unfold multi_but_canvas in HR. cbn in HR.
    by simplify_eq. }
  rewrite (scaffold_x3d _ _ (barChartMultiSeries.width v2)
             (barChartMultiSeries.height v2) (barChartMultiSeries.debug v2)
             (barChartMultiSeries.width v1) (barChartMultiSeries.height v1)
             (barChartMultiSeries.debug v1)).
  match goal with |- context [finish _ _ (?m v1 ?d)] =>
    assert (related multi_but_canvas m) as Hm;
      [| destruct (Hm v1 v2 d HR) as (HR' & Hd & Hr);
         assert (length (scenes (m v1 d).1.2) = length selection) as Hl
           by (apply multi_steps_as_many, scaffold_length);
         destruct (m v1 d) as [[a1 d1] r1], (m v2 d) as [[a2 d2] r2];
         simpl in HR', Hd, Hr, Hl; subst d2 r2 ]
  end.
  - apply related_bind; [apply related_dom_only, call_dom_only |].
    intros _.
    apply related_bind; [apply related_dom_only, append_child_dom_only |].
    intros _. apply related_each. intros data.
    unfold barChartMultiSeries.each_scene. apply related_bind.
    + apply related_on_vars. intros. by apply multi_init_but_canvas.
    + intros _. apply related_get_then.
      * intros v. apply multi_draw_dom_only.
      * intros. by apply multi_draw_but_canvas.
  - unfold finish. cbn [called ended vars_after document].
    refine (conj eq_refl (conj eq_refl (conj HR' _))).
    exists (scenes d1). rewrite !attach_x3d by done. done.
Qed.

End Canvas.

(** X9: [width], [height] and [debug] reach the attributes of the [x3d]
    elements and nothing else.  A call of a chart whose [width], [height]
    and [debug] have been set to other values calls the same sub-components,
    ends the same way, leaves the same scales, and leaves under every [x3d]
    element the same scene; the two documents differ in the attributes of
    the [x3d] elements only. *)
Theorem width_height_debug_reach_the_x3d_only `{d3.Nice} `{component.Render}
    (selection : list Node) (w h : Z) (db : bool) :
  (∀ s : barChartVertical.vars,
     let r := barChartVertical.my selection s in
     let r' :=
       barChartVertical.my selection
         (barChartVertical.set_width w
            (barChartVertical.set_height h
               (barChartVertical.set_debug db s))) in
     called r' = called r ∧ ended r' = ended r ∧
     barChartVertical.xScale (vars_after r')
       = barChartVertical.xScale (vars_after r) ∧
     barChartVertical.yScale (vars_after r')
       = barChartVertical.yScale (vars_after r) ∧
     barChartVertical.colorScale (vars_after r')
       = barChartVertical.colorScale (vars_after r) ∧
     ∃ scenes' : list Node,
       length scenes' = length selection ∧
       document r =
         zip_with
           (λ c sc,
              adopt c (Elem "x3d"
                         (x3d_attrs (barChartVertical.width s)
                            (barChartVertical.height s)
                            (barChartVertical.debug s))
                         (bound c) [sc]))
           selection scenes' ∧
       document r' =
         zip_with
           (λ c sc, adopt c (Elem "x3d" (x3d_attrs w h db) (bound c) [sc]))
           selection scenes') ∧
  (∀ s : barChartMultiSeries.vars,
     let r := barChartMultiSeries.my selection s in
     let r' :=
       barChartMultiSeries.my selection
         (barChartMultiSeries.set_width w
            (barChartMultiSeries.set_height h
               (barChartMultiSeries.set_debug db s))) in
     called r' = called r ∧ ended r' = ended r ∧
     barChartMultiSeries.xScale (vars_after r')
       = barChartMultiSeries.xScale (vars_after r) ∧
     barChartMultiSeries.yScale (vars_after r')
       = barChartMultiSeries.yScale (vars_after r) ∧
     barChartMultiSeries.zScale (vars_after r')
       = barChartMultiSeries.zScale (vars_after r) ∧
     barChartMultiSeries.colorScale (vars_after r')
       = barChartMultiSeries.colorScale (vars_after r) ∧
     ∃ scenes' : list Node,
       length scenes' = length selection ∧
       document r =
         zip_with
           (λ c sc,
              adopt c (Elem "x3d"
                         (x3d_attrs (barChartMultiSeries.width s)
                            (barChartMultiSeries.height s)
                            (barChartMultiSeries.debug s))
                         (bound c) [sc]))
           selection scenes' ∧
       document r' =
         zip_with
           (λ c sc, adopt c (Elem "x3d" (x3d_attrs w h db) (bound c) [sc]))
           selection scenes').
Proof.
  split; intros s.
  - destruct (vertical_my_but_canvas selection s
                (barChartVertical.set_width w
                   (barChartVertical.set_height h
                      (barChartVertical.set_debug db s))))
      as (Hc & He & HR & scenes' & Hl & Hd & Hd'); [done |].
    cbv zeta. refine (conj Hc (conj He _)).
    assert (∀ a b, vertical_but_canvas a b →
              barChartVertical.xScale b = barChartVertical.xScale a ∧
              barChartVertical.yScale b = barChartVertical.yScale a ∧
              barChartVertical.colorScale b = barChartVertical.colorScale a)
      as Hsame.
    { intros [] []. unfold vertical_but_canvas. cbn. intros [=]. by subst. }
    destruct (Hsame _ _ HR) as (Hx & Hy & Hcs).
    refine (conj Hx (conj Hy (conj Hcs _))).
    exists scenes'. done.
  - destruct (multi_my_but_canvas selection s
                (barChartMultiSeries.set_width w
                   (barChartMultiSeries.set_height h
                      (barChartMultiSeries.set_debug db s))))
      as (Hc & He & HR & scenes' & Hl & Hd & Hd'); [done |].
    cbv zeta. refine (conj Hc (conj He _)).
    assert (∀ a b, multi_but_canvas a b →
              barChartMultiSeries.xScale b = barChartMultiSeries.xScale a ∧
              barChartMultiSeries.yScale b = barChartMultiSeries.yScale a ∧
              barChartMultiSeries.zScale b = barChartMultiSeries.zScale a ∧
              barChartMultiSeries.colorScale b
                = barChartMultiSeries.colorScale a)
      as Hsame.
    { intros [] []. unfold multi_but_canvas. cbn. intros [=]. by subst. }
    destruct (Hsame _ _ HR) as (Hx & Hy & Hz & Hcs).
    refine (conj Hx (conj Hy (conj Hz (conj Hcs _)))).
    exists scenes'. done.
Qed.

(** ** The dimensions of a chart whose scales were supplied *)

Section Dimensions.
Context `{d3.Nice} `{component.Render}.

Lemma vertical_init_but_dimensions data v1 v2 :
  vertical_but_dimensions v1 v2 →
  match barChartVertical.init data v1, barChartVertical.init data v2 with
  | Some a, Some b => vertical_but_dimensions a b
  | None, None => True
  | _, _ => False
  end.
Proof.
  unfold vertical_but_dimensions, barChartVertical.init.
  destruct (dataTransform.summarize data); simpl; [| done].
  destruct v1 as [? ? ? ? ? ? [?|] [?|] [?|]],
           v2 as [? ? ? ? ? ? [?|] [?|] [?|]];
    cbn; intros ([=] & [? ?] & [? ?]); subst; done.
Qed.

Lemma vertical_draw_but_dimensions data v1 v2 :
  vertical_but_dimensions v1 v2 →
  barChartVertical.draw v1 data = barChartVertical.draw v2 data.
Proof.
  unfold vertical_but_dimensions, barChartVertical.draw.
  destruct v1, v2; cbn. intros ([=] & _); subst. reflexivity.
Qed.

Lemma vertical_my_but_dimensions selection v1 v2 :
  vertical_but_dimensions v1 v2 →
  document (barChartVertical.my selection v2) =
    document (barChartVertical.my selection v1) ∧
  called (barChartVertical.my selection v2) =
    called (barChartVertical.my selection v1) ∧
  ended (barChartVertical.my selection v2) =
    ended (barChartVertical.my selection v1) ∧
  vertical_but_dimensions (vars_after (barChartVertical.my selection v1))
    (vars_after (barChartVertical.my selection v2)).
Proof.
  intros HR. rewrite !vertical_my_eq. cbv zeta.
  assert (barChartVertical.width v2 = barChartVertical.width v1 ∧
          barChartVertical.height v2 = barChartVertical.height v1 ∧
          barChartVertical.debug v2 = barChartVertical.debug v1 ∧
          barChartVertical.classed v2 = barChartVertical.classed v1)
    as (-> & -> & -> & ->).
  { destruct v1, v2. destruct HR as [HR _]. cbn in HR. by simplify_eq. }
  match goal with |- context [finish _ _ (?m v1 ?d)] =>
    assert (related vertical_but_dimensions m) as Hm;
      [| destruct (Hm v1 v2 d HR) as (HR' & Hd & Hr);
         destruct (m v1 d) as [[a1 d1] r1], (m v2 d) as [[a2 d2] r2];
         simpl in *; by subst ]
  end.
  apply related_bind; [apply related_dom_only, call_dom_only |].
  intros _. apply related_each. intros data.
  unfold barChartVertical.each_scene. apply related_bind.
  - apply related_on_vars. intros. by apply vertical_init_but_dimensions.
  - intros _. apply related_get_then.
    + intros v. apply vertical_draw_dom_only.
    + intros. by apply vertical_draw_but_dimensions.
Qed.

End Dimensions.

(** X10: [barChartVertical] reads [dimensions] only to derive the x-scale
    and the y-scale.  With both scales supplied, a call leaves the same
    document, calls the same sub-components and ends the same way whatever
    the dimensions are, and leaves both scales as they were supplied. *)
Theorem vertical_dimensions_only_derive_scales `{d3.Nice} `{component.Render}
    (selection : list Node) (s : barChartVertical.vars) (dims : xyz) :
  is_Some (barChartVertical.xScale s) →
  is_Some (barChartVertical.yScale s) →
  let r := barChartVertical.my selection s in
  let r' :=
    barChartVertical.my selection (barChartVertical.set_dimensions dims s) in
  document r' = document r ∧ called r' = called r ∧ ended r' = ended r ∧
  barChartVertical.xScale (vars_after r') = barChartVertical.xScale s ∧
  barChartVertical.yScale (vars_after r') = barChartVertical.yScale s.
Proof.
  intros Hx Hy r r'. subst r r'.
  destruct (vertical_my_but_dimensions selection s
              (barChartVertical.set_dimensions dims s))
    as (Hd & Hc & He & _).
  { by destruct s. }
  refine (conj Hd (conj Hc (conj He _))).
  destruct Hx as [xs Hx], Hy as [ys Hy].
  rewrite Hx, Hy. split.
  - apply (vertical_my_keeps (λ v, barChartVertical.xScale v = Some xs));
      [ intros data v v' Hi; apply (vertical_init_keeps _ _ _ Hi)
      | by destruct s ].
  - apply (vertical_my_keeps (λ v, barChartVertical.yScale v = Some ys));
      [ intros data v v' Hi; apply (vertical_init_keeps _ _ _ Hi)
      | by destruct s; simpl in * ].
Qed.

(** ** The elements of the document *)

Section Tags.
Context `{component.Render} {V : Type}.

Lemma select_in_tag name s : tag (select_in name s).1 = tag s.
Proof.
  unfold select_in. destruct (find_first (has_class name) s); simpl; [| done].
  destruct (bound s); [| done]. by apply alter_at_tag.
Qed.

Lemma datum_at_tag data s w : tag (datum_at data s w) = tag s.
Proof. destruct w; simpl; [| done]. by apply alter_at_tag. Qed.

Lemma run_at_tag c s w : tag (run_at c s w).1 = tag s.
Proof.
  destruct w as [path|]; simpl; [| done].
  destruct (lookup_at path s) as [target|] eqn:E; simpl; [| done].
  pose proof (run_tag c target) as Ht.
  destruct (component.run c target) as [target' k]. simpl in *.
  by apply (alter_at_const_tag target' path s target).
Qed.

Lemma call_each_tags c s : tag <$> (call_each c s).1 = tag <$> s.
Proof.
  induction s as [|n s IH]; [done |]. cbn [call_each].
  pose proof (run_tag c n) as Ht.
  destruct (component.run c n) as [n' []]; cbn [fst] in Ht.
  - destruct (call_each c s); cbn [fst] in *.
    rewrite !fmap_cons. by rewrite Ht, IH.
  - cbn [fst]. rewrite !fmap_cons. by rewrite Ht.
Qed.

Lemma call_each_at_tags c s sub :
  tag <$> (call_each_at c s sub).1 = tag <$> s.
Proof.
  revert sub. induction s as [|n s IH]; intros [|w sub]; try done.
  cbn [call_each_at].
  pose proof (run_at_tag c n w) as Ht.
  destruct (run_at c n w) as [n' []]; cbn [fst] in Ht.
  - specialize (IH sub). destruct (call_each_at c s sub); cbn [fst] in *.
    rewrite !fmap_cons. by rewrite Ht, IH.
  - cbn [fst]. rewrite !fmap_cons. by rewrite Ht.
Qed.

Lemma datum_each_tags data s sub :
  tag <$> datum_each data s sub = tag <$> s.
Proof.
  revert sub. induction s as [|n s IH]; intros [|w sub]; try done.
  cbn [datum_each]. rewrite !fmap_cons. by rewrite datum_at_tag, IH.
Qed.

Lemma tagged_call ts c : keeps (V := V) (tagged ts) (call c).
Proof.
  intros v d Hd. unfold call, on_dom, tagged in *.
  pose proof (call_each_tags c (scenes d)) as Ht.
  destruct (call_each c (scenes d)); simpl in *. congruence.
Qed.

Lemma tagged_call_at ts c sub : keeps (V := V) (tagged ts) (call_at c sub).
Proof.
  intros v d Hd. unfold call_at, on_dom, tagged in *.
  pose proof (call_each_at_tags c (scenes d) sub) as Ht.
  destruct (call_each_at c (scenes d) sub); simpl in *. congruence.
Qed.

Lemma tagged_append_child ts name a :
  keeps (V := V) (tagged ts) (append_child name a).
Proof.
  intros v d Hd. unfold tagged, append_child, on_dom in *.
  cbn [fst snd scenes]. rewrite <- Hd, <- list_fmap_compose.
  by apply list_fmap_ext.
Qed.

Lemma tagged_select ts name : keeps (V := V) (tagged ts) (select name).
Proof.
  intros v d Hd. unfold tagged, select, on_dom in *.
  cbn [fst snd scenes]. rewrite <- Hd, <- !list_fmap_compose.
  apply list_fmap_ext. intros _ s _. apply select_in_tag.
Qed.

Lemma tagged_datum ts data sub : keeps (V := V) (tagged ts) (datum data sub).
Proof.
  intros v d Hd. unfold tagged, datum, on_dom in *.
  cbn [fst snd scenes]. by rewrite datum_each_tags.
Qed.

End Tags.

Ltac tagged_steps :=
  repeat first
    [ apply keeps_bind; [| intros ? ]
    | apply tagged_select
    | apply tagged_datum
    | apply tagged_append_child
    | apply tagged_call_at
    | apply tagged_call
    | apply keeps_ret
    | apply keeps_throw ].

Section Elements.
Context `{d3.Nice} `{component.Render}.

Lemma vertical_draw_tagged ts v data :
  keeps (tagged ts) (barChartVertical.draw v data).
Proof.
  unfold barChartVertical.draw.
  destruct (barChartVertical.yScale v); tagged_steps.
Qed.

Lemma multi_draw_tagged ts v data :
  keeps (tagged ts) (barChartMultiSeries.draw v data).
Proof. unfold barChartMultiSeries.draw. tagged_steps. Qed.

Lemma scaffold_tags cls layers w h db (selection : list Node) :
  tag <$> scaffold cls layers (x3d_elements w h db selection)
    = replicate (length selection) "scene".
Proof.
  unfold scaffold, x3d_elements. rewrite <- !list_fmap_compose.
  induction selection as [|c sel IH]; [done |].
  rewrite fmap_cons, IH. done.
Qed.

Lemma x3d_attrs_size (w h : Z) (db : bool) :
  x3d_attrs w h db !! "width" = Some (pretty w +:+ "px") ∧
  x3d_attrs w h db !! "height" = Some (pretty h +:+ "px").
Proof. unfold x3d_attrs. destruct db; split; by simplify_map_eq. Qed.

Lemma document_elements (w h : Z) (db : bool) (selection scenes' : list Node) :
  tag <$> scenes' = replicate (length selection) "scene" →
  let doc :=
    d3_selection.attach selection
      (d3_selection.attach (x3d_elements w h db selection) scenes') in
  length doc = length selection ∧
  ∀ i c, selection !! i = Some c →
    ∃ x3d sc,
      doc !! i = Some (adopt c x3d) ∧
      tag x3d = "x3d" ∧ bound x3d = bound c ∧
      attrs x3d !! "width" = Some (pretty w +:+ "px") ∧
      attrs x3d !! "height" = Some (pretty h +:+ "px") ∧
      children x3d = [sc] ∧ tag sc = "scene".
Proof.
  intros Ht doc. subst doc.
  assert (length scenes' = length selection) as Hl.
  { rewrite <- (length_fmap tag), Ht. apply length_replicate. }
  rewrite attach_x3d by done. split.
  - rewrite length_zip_with. lia.
  - intros i c Hc.
    destruct (lookup_lt_is_Some_2 scenes' i) as [sc Hsc].
    { rewrite Hl. by apply lookup_lt_is_Some_1. }
    exists (Elem "x3d" (x3d_attrs w h db) (bound c) [sc]), sc.
    rewrite lookup_zip_with, Hc. simpl. rewrite Hsc. simpl.
    destruct (x3d_attrs_size w h db) as [Hw Hh].
    refine (conj eq_refl (conj eq_refl (conj eq_refl
              (conj Hw (conj Hh (conj eq_refl _)))))).
    assert ((tag <$> scenes') !! i = Some (tag sc)) as Hi
      by (by rewrite list_lookup_fmap, Hsc).
    rewrite Ht in Hi. apply lookup_replicate in Hi. by destruct Hi.
Qed.

End Elements.

(** X11: a call of either chart leaves as many containers as the selection
    has, and appends to every one of them, after the children that it has,
    one [x3d] element: with the datum of the container, with the [width]
    and the [height] of the chart in pixels, and with one child, which is a
    [scene] element.  This holds also of a call that throws. *)
Theorem one_x3d_and_one_scene_per_container `{d3.Nice} `{component.Render}
    (selection : list Node) :
  (∀ s : barChartVertical.vars,
     let r := barChartVertical.my selection s in
     length (document r) = length selection ∧
     ∀ i c, selection !! i = Some c →
       ∃ x3d sc,
         document r !! i = Some (adopt c x3d) ∧
         tag x3d = "x3d" ∧ bound x3d = bound c ∧
         attrs x3d !! "width"
           = Some (pretty (barChartVertical.width s) +:+ "px") ∧
         attrs x3d !! "height"
           = Some (pretty (barChartVertical.height s) +:+ "px") ∧
         children x3d = [sc] ∧ tag sc = "scene") ∧
  (∀ s : barChartMultiSeries.vars,
     let r := barChartMultiSeries.my selection s in
     length (document r) = length selection ∧
     ∀ i c, selection !! i = Some c →
       ∃ x3d sc,
         document r !! i = Some (adopt c x3d) ∧
         tag x3d = "x3d" ∧ bound x3d = bound c ∧
         attrs x3d !! "width"
           = Some (pretty (barChartMultiSeries.width s) +:+ "px") ∧
         attrs x3d !! "height"
           = Some (pretty (barChartMultiSeries.height s) +:+ "px") ∧
         children x3d = [sc] ∧ tag sc = "scene").
Proof.
  split; intros s r; subst r.
  - rewrite vertical_my_eq. cbv zeta.
    match goal with |- context [finish _ _ (?m s ?d)] =>
      assert (keeps (tagged (replicate (length selection) "scene")) m) as Hm;
        [| assert (tagged (replicate (length selection) "scene") s d) as H1
             by apply scaffold_tags;
           specialize (Hm s d H1); destruct (m s d) as [[v' d'] r] ]
    end.
    + apply keeps_bind; [apply tagged_call |].
      intros _. apply keeps_each. intros data.
      unfold barChartVertical.each_scene.
      apply keeps_bind; [by apply keeps_on_vars |].
      intros _. apply keeps_bind; [apply keeps_get |].
      intros v. apply vertical_draw_tagged.
    + unfold finish. cbn [document]. by apply document_elements.
  - rewrite multi_my_eq. cbv zeta.
    match goal with |- context [finish _ _ (?m s ?d)] =>
      assert (keeps (tagged (replicate (length selection) "scene")) m) as Hm;
        [| assert (tagged (replicate (length selection) "scene") s d) as H1
             by apply scaffold_tags;
           specialize (Hm s d H1); destruct (m s d) as [[v' d'] r] ]
    end.
    + apply keeps_bind; [apply tagged_call |].
      intros _. apply keeps_bind; [apply tagged_append_child |].
      intros _. apply keeps_each. intros data.
      unfold barChartMultiSeries.each_scene.
      apply keeps_bind; [by apply keeps_on_vars |].
      intros _. apply keeps_bind; [apply keeps_get |].
      intros v. apply multi_draw_tagged.
    + unfold finish. cbn [document]. by apply document_elements.
Qed.

(** ** A scale that is set to [undefined] *)

Section Undefined.
Context `{d3.Nice} `{component.Render}.

Lemma vertical_init_xScale data v v' :
  barChartVertical.init data v = Some v' →
  barChartVertical.xScale v = None →
  ∃ summarized,
    dataTransform.summarize data = Some summarized ∧
    barChartVertical.xScale v' =
      Some (d3.OfBand
        (d3.scaleBand
           .> d3.bandDomain (dataTransform.columnKeys summarized)
           .> d3.bandRangeRound
                (Num 0, Num (x (barChartVertical.dimensions v)))
           .> d3.bandPadding 0.5)).
Proof.
  unfold barChartVertical.init.
  destruct (dataTransform.summarize data) as [summarized|]; simpl; [| done].
  intros [= <-] Hx. exists summarized. split; [done |].
  destruct v as [? ? ? ? ? ? xs [?|] [?|]]; simpl in Hx; subst xs; reflexivity.
Qed.

Lemma multi_init_xScale data v v' :
  barChartMultiSeries.init data v = Some v' →
  barChartMultiSeries.xScale v = None →
  ∃ summarized,
    dataTransform.summarize data = Some summarized ∧
    barChartMultiSeries.xScale v' =
      Some (d3.OfBand
        (d3.scaleBand
           .> d3.bandDomain (dataTransform.columnKeys summarized)
           .> d3.bandRangeRound
                (Num 0, Num (x (barChartMultiSeries.dimensions v)))
           .> d3.bandPadding 0.5)).
Proof.
  unfold barChartMultiSeries.init.
  destruct (dataTransform.summarize data) as [summarized|]; simpl; [| done].
  intros [= <-] Hx. exists summarized. split; [done |].
  destruct v as [? ? ? ? ? ? xs [?|] [?|] [?|]]; simpl in Hx; subst xs;
    reflexivity.
Qed.

Lemma multi_init_dimensions data v v' :
  barChartMultiSeries.init data v = Some v' →
  barChartMultiSeries.dimensions v' = barChartMultiSeries.dimensions v.
Proof.
  unfold barChartMultiSeries.init.
  destruct (dataTransform.summarize data); simpl; [| done].
  intros [= <-]. by destruct v as [? ? ? ? ? ? [?|] [?|] [?|] [?|]].
Qed.

End Undefined.

(** X8: a scale that [init] has derived is derived again, from the data of
    the next call, once its accessor is given [undefined]; the other scales
    stay as the first data made them.  So after [my.xScale(undefined)] the
    x-scale has the column keys of the new data, while the y-scale (of
    [barChartVertical]), the z-scale (of [barChartMultiSeries]) and the
    colour scale still are those of the old data. *)
Theorem undefined_xScale_is_derived_again `{d3.Nice} `{component.Render}
    (old new : option bound_data) :
  (∀ s s1 s2 : barChartVertical.vars,
     barChartVertical.init old s = Some s1 →
     barChartVertical.init new
       (barChartVertical.my_xScale Chart [None] s1).1 = Some s2 →
     ∃ summarized,
       dataTransform.summarize new = Some summarized ∧
       barChartVertical.xScale s2 =
         Some (d3.OfBand
           (d3.scaleBand
              .> d3.bandDomain (dataTransform.columnKeys summarized)
              .> d3.bandRangeRound
                   (Num 0, Num (x (barChartVertical.dimensions s)))
              .> d3.bandPadding 0.5)) ∧
       barChartVertical.yScale s2 = barChartVertical.yScale s1 ∧
       barChartVertical.colorScale s2 = barChartVertical.colorScale s1) ∧
  (∀ s s1 s2 : barChartMultiSeries.vars,
     barChartMultiSeries.init old s = Some s1 →
     barChartMultiSeries.init new
       (barChartMultiSeries.my_xScale Chart [None] s1).1 = Some s2 →
     ∃ summarized,
       dataTransform.summarize new = Some summarized ∧
       barChartMultiSeries.xScale s2 =
         Some (d3.OfBand
           (d3.scaleBand
              .> d3.bandDomain (dataTransform.columnKeys summarized)
              .> d3.bandRangeRound
                   (Num 0, Num (x (barChartMultiSeries.dimensions s)))
              .> d3.bandPadding 0.5)) ∧
       barChartMultiSeries.yScale s2 = barChartMultiSeries.yScale s1 ∧
       barChartMultiSeries.zScale s2 = barChartMultiSeries.zScale s1 ∧
       barChartMultiSeries.colorScale s2 = barChartMultiSeries.colorScale s1).
Proof.
  split; intros s s1 s2 H1 H2.
  - change (barChartVertical.my_xScale Chart [None] s1).1
      with (barChartVertical.set_xScale None s1) in H2.
    destruct (vertical_init_xScale _ _ _ H2 eq_refl)
      as (summarized & Hsum & Hx).
    destruct (vertical_init_config _ _ _ H1) as [Hd _].
    destruct (vertical_init_defined _ _ _ H1) as (_ & [ys Hy] & [cs Hc]).
    destruct (vertical_init_keeps _ _ _ H2) as (_ & Ky & Kc).
    exists summarized. split; [exact Hsum |].
    split; [| split].
    + rewrite Hx. cbn [barChartVertical.dimensions barChartVertical.set_xScale].
      by rewrite Hd.
    + rewrite Hy. apply Ky. exact Hy.
    + rewrite Hc. apply Kc. exact Hc.
  - change (barChartMultiSeries.my_xScale Chart [None] s1).1
      with (barChartMultiSeries.set_xScale None s1) in H2.
    destruct (multi_init_xScale _ _ _ H2 eq_refl)
      as (summarized & Hsum & Hx).
    pose proof (multi_init_dimensions _ _ _ H1) as Hd.
    destruct (multi_init_defined _ _ _ H1) as (_ & [zs Hz] & [cs Hc]).
    destruct (multi_init_keeps _ _ _ H2) as (_ & _ & Kz & Kc).
    exists summarized. split; [exact Hsum |].
    split; [| split; [| split]].
    + rewrite Hx.
      cbn [barChartMultiSeries.dimensions barChartMultiSeries.set_xScale].
      by rewrite Hd.
    + exact (multi_init_yScale _ _ _ H2).
    + rewrite Hz. apply Kz. exact Hz.
    + rewrite Hc. apply Kc. exact Hc.
Qed.

(** ** The layers of the scenes *)

Lemma layered_alter (names : list string) (sc : Node) (i : nat)
    (g : Node → Node) :
  layered names sc →
  (∀ c, children sc !! i = Some c →
        tag (g c) = tag c ∧ ∀ name, name ∈ classes c → name ∈ classes (g c)) →
  layered names (Elem (tag sc) (attrs sc) (bound sc) (alter g i (children sc))).
Proof.
  intros Hl Hg k name Hk. destruct (Hl k name Hk) as (c & Hc & Ht & Hn).
  cbn [children]. destruct (decide (i = k)) as [-> | Hne].
  - exists (g c). rewrite list_lookup_alter_eq, Hc. destruct (Hg c Hc) as [Hgt Hgn].
    split; [done |]. split; [congruence | by apply Hgn].
  - exists c. by rewrite list_lookup_alter_ne.
Qed.

Lemma alter_at_classes (f : Node → Node) path n :
  (∀ m, classes (f m) = classes m) → classes (alter_at f path n) = classes n.
Proof. intros Hf. destruct path; simpl; [apply Hf | done]. Qed.

Lemma layered_app (names : list string) (sc sc' : Node) (more : list Node) :
  children sc' = children sc ++ more → layered names sc → layered names sc'.
Proof.
  intros Hc Hl k name Hk. destruct (Hl k name Hk) as (g & Hg & Ht & Hn).
  exists g. rewrite Hc. split; [by apply lookup_app_l_Some | done].
Qed.

Section Layers.
Context `{component.Render}.
Variable names : list string.
Hypothesis keeps_classes :
  ∀ c e name, name ∈ classes e → name ∈ classes (component.render c e).1.

Lemma run_classes c e name :
  name ∈ classes e → name ∈ classes (component.run c e).1.
Proof.
  intros Hn. unfold component.run. specialize (keeps_classes c e name Hn).
  by destruct (component.render c e) as [e' k].
Qed.

Lemma run_layered c e :
  (∀ e, ∃ more, children (component.render c e).1 = children e ++ more) →
  layered names e → layered names (component.run c e).1.
Proof.
  intros Happ. destruct (Happ e) as [more Hmore]. apply layered_app with more.
  unfold component.run. by destruct (component.render c e) as [e' k].
Qed.

Lemma select_in_layered name sc :
  layered names sc →
  layered names (select_in name sc).1 ∧ inner (select_in name sc).2.
Proof.
  intros Hl. unfold select_in, inner.
  destruct (find_first (has_class name) sc) as [path|] eqn:Hfind; [| done].
  destruct (find_first_Some _ _ _ Hfind) as (i & c & rest & -> & _).
  cbn [fst snd]. split; [| done].
  destruct (bound sc) as [d|]; [| done].
  cbn [alter_at]. apply layered_alter; [done |].
  intros c' _. split; [by apply alter_at_tag |].
  intros name'. by rewrite alter_at_classes.
Qed.

Lemma datum_at_layered data sc w :
  layered names sc → layered names (datum_at data sc w).
Proof.
  intros Hl. destruct w as [[|i rest]|]; cbn [datum_at alter_at]; [done | | done].
  apply layered_alter; [done |].
  intros c' _. split; [by apply alter_at_tag |].
  intros name'. by rewrite alter_at_classes.
Qed.

Lemma run_at_layered c sc w :
  layered names sc → inner w → layered names (run_at c sc w).1.
Proof.
  intros Hl Hw. destruct w as [[|i rest]|]; [done | | done].
  unfold run_at. cbn [lookup_at].
  destruct (children sc !! i) as [ci|] eqn:Hci; cbn [mbind option_bind];
    [| done].
  destruct (lookup_at rest ci) as [target|] eqn:Htarget; [| done].
  pose proof (run_tag c target) as Htag.
  pose proof (run_classes c target) as Hcls.
  destruct (component.run c target) as [target' k]. cbn [fst] in *.
  cbn [alter_at]. apply layered_alter; [done |].
  intros c' Hc'. rewrite Hci in Hc'. injection Hc' as <-.
  destruct rest as [|j rest]; cbn [alter_at].
  - cbn [lookup_at] in Htarget. injection Htarget as <-. done.
  - done.
Qed.

Lemma call_each_layered c s :
  (∀ e, ∃ more, children (component.render c e).1 = children e ++ more) →
  Forall (λ sc, tag sc = "scene" ∧ layered names sc) s →
  Forall (λ sc, tag sc = "scene" ∧ layered names sc) (call_each c s).1.
Proof.
  intros Happ Hs. induction Hs as [|sc s [Ht Hl] Hs IH]; [done |].
  cbn [call_each].
  pose proof (run_tag c sc) as Htag.
  pose proof (run_layered c sc Happ Hl) as Hl'.
  destruct (component.run c sc) as [sc' []]; cbn [fst] in *.
  - destruct (call_each c s); cbn [fst] in *.
    constructor; [split; [congruence | done] | done].
  - constructor; [split; [congruence | done] | done].
Qed.

Lemma call_each_at_layered c s sub :
  Forall (λ sc, tag sc = "scene" ∧ layered names sc) s → Forall inner sub →
  Forall (λ sc, tag sc = "scene" ∧ layered names sc) (call_each_at c s sub).1.
Proof.
  intros Hs. revert sub. induction Hs as [|sc s [Ht Hl] Hs IH]; intros sub Hsub.
  { by destruct sub. }
  destruct sub as [|w sub]; [by constructor |].
  apply Forall_cons in Hsub as [Hw Hsub]. cbn [call_each_at].
  pose proof (run_at_tag c sc w) as Htag.
  pose proof (run_at_layered c sc w Hl Hw) as Hl'.
  destruct (run_at c sc w) as [sc' []]; cbn [fst] in *.
  - specialize (IH sub Hsub). destruct (call_each_at c s sub); cbn [fst] in *.
    constructor; [split; [congruence | done] | done].
  - constructor; [split; [congruence | done] | done].
Qed.

Lemma datum_each_layered data s sub :
  Forall (λ sc, tag sc = "scene" ∧ layered names sc) s →
  Forall (λ sc, tag sc = "scene" ∧ layered names sc) (datum_each data s sub).
Proof.
  intros Hs. revert sub. induction Hs as [|sc s [Ht Hl] Hs IH]; intros sub.
  { by destruct sub. }
  destruct sub as [|w sub]; [by constructor |]. cbn [datum_each].
  constructor; [| by apply IH].
  split; [by rewrite datum_at_tag | by apply datum_at_layered].
Qed.

Lemma select_layered name (s : list Node) :
  Forall (λ sc, tag sc = "scene" ∧ layered names sc) s →
  Forall (λ sc, tag sc = "scene" ∧ layered names sc)
    ((select_in name <$> s).*1) ∧
  Forall inner ((select_in name <$> s).*2).
Proof.
  intros Hs. induction Hs as [|sc s [Ht Hl] Hs [IH1 IH2]]; [done |].
  destruct (select_in_layered name sc Hl) as [Hl' Hw].
  rewrite !fmap_cons. split; constructor; try done.
  split; [by rewrite select_in_tag | done].
Qed.

Context {V : Type}.

Lemma layered_call c :
  (∀ e, ∃ more, children (component.render c e).1 = children e ++ more) →
  keeps (V := V) (all_layered names) (call c).
Proof.
  intros Happ v d Hd. unfold call, on_dom, all_layered in *.
  pose proof (call_each_layered c (scenes d) Happ Hd) as Hl.
  by destruct (call_each c (scenes d)).
Qed.

Lemma layered_append_child name a :
  keeps (V := V) (all_layered names) (append_child name a).
Proof.
  intros v d Hd. unfold append_child, on_dom, all_layered in *.
  cbn [fst snd scenes]. apply Forall_fmap.
  eapply Forall_impl; [exact Hd |]. intros sc [Ht Hl]. split; [done |].
  by apply (layered_app names sc _ [Elem name a (bound sc) []]).
Qed.

Lemma layered_select name :
  hoare (V := V) (all_layered names) (select name)
    (λ r v d, match r with
              | Some sub => layered_inner names sub v d
              | None => all_layered names v d
              end).
Proof. intros v d Hd. by apply select_layered. Qed.

Lemma layered_datum data sub :
  hoare (V := V) (layered_inner names sub) (datum data sub)
    (λ r v d, match r with
              | Some sub' => layered_inner names sub' v d
              | None => all_layered names v d
              end).
Proof.
  intros v d [Hd Hsub]. split; [by apply datum_each_layered | exact Hsub].
Qed.

Lemma layered_call_at c sub :
  hoare (V := V) (layered_inner names sub) (call_at c sub)
    (λ _, all_layered names).
Proof.
  intros v d [Hd Hsub]. unfold call_at, on_dom, all_layered.
  pose proof (call_each_at_layered c (scenes d) sub Hd Hsub) as Hl.
  by destruct (call_each_at c (scenes d) sub).
Qed.

End Layers.

Section LayersOfTheCharts.
Context `{d3.Nice} `{component.Render}.
Hypothesis viewpoint_appends :
  ∀ c e, component.kind c = "viewpoint" →
         ∃ more, children (component.render c e).1 = children e ++ more.
Hypothesis keeps_classes :
  ∀ c e name, name ∈ classes e → name ∈ classes (component.render c e).1.

Lemma vertical_draw_layered names v data :
  keeps (all_layered names) (barChartVertical.draw v data).
Proof.
  unfold barChartVertical.draw.
  apply keeps_bind;
    [destruct (barChartVertical.yScale v);
       [apply keeps_ret | apply keeps_throw] |].
  intros range.
  eapply hoare_bind; [by apply layered_select | intros sub | done].
  eapply hoare_bind; [by apply layered_call_at | intros [] | done].
  eapply hoare_bind; [by apply layered_select | intros sub' | done].
  eapply hoare_bind; [by apply layered_call_at | intros [] | done].
  eapply hoare_bind; [by apply layered_select | intros sub'' | done].
  eapply hoare_bind; [by apply layered_datum | intros sub3 | done].
  by apply layered_call_at.
Qed.

Lemma multi_draw_layered names v data :
  keeps (all_layered names) (barChartMultiSeries.draw v data).
Proof.
  unfold barChartMultiSeries.draw.
  eapply hoare_bind; [by apply layered_select | intros sub | done].
  eapply hoare_bind; [by apply layered_call_at | intros [] | done].
  eapply hoare_bind; [by apply layered_select | intros sub' | done].
  eapply hoare_bind; [by apply layered_datum | intros sub'' | done].
  by apply layered_call_at.
Qed.

Lemma vertical_scaffold_layered cls (x3d : list Node) :
  Forall (λ sc, tag sc = "scene" ∧ layered ["xAxis"; "yAxis"; "chart"] sc)
    (scaffold cls ["xAxis"; "yAxis"; "chart"] x3d).
Proof.
  unfold scaffold. apply Forall_fmap, Forall_forall. intros e _.
  split; [done |]. intros k name Hk.
  destruct k as [|[|[|k]]]; simpl in Hk; simplify_eq;
    (eexists; split; [reflexivity |]; split; [reflexivity |]);
    vm_compute; apply list_elem_of_singleton; reflexivity.
Qed.

Lemma multi_scaffold_layered cls (x3d : list Node) :
  Forall (λ sc, tag sc = "scene" ∧ layered ["axis"; "chart"] sc)
    (scaffold cls ["axis"; "chart"] x3d).
Proof.
  unfold scaffold. apply Forall_fmap, Forall_forall. intros e _.
  split; [done |]. intros k name Hk.
  destruct k as [|[|k]]; simpl in Hk; simplify_eq;
    (eexists; split; [reflexivity |]; split; [reflexivity |]);
    vm_compute; apply list_elem_of_singleton; reflexivity.
Qed.

(** The document after [my]: under the [x3d] element of each container a
    [scene] element with the layers. *)
Lemma document_layers names (w h : Z) (db : bool)
    (selection scenes' : list Node) (i : nat) (c : Node) :
  length scenes' = length selection →
  Forall (λ sc, tag sc = "scene" ∧ layered names sc) scenes' →
  selection !! i = Some c →
  ∃ x3d sc,
    d3_selection.attach selection
      (d3_selection.attach (x3d_elements w h db selection) scenes') !! i
      = Some (adopt c x3d) ∧
    tag x3d = "x3d" ∧ children x3d = [sc] ∧ tag sc = "scene" ∧
    layered names sc.
Proof.
  intros Hl Hs Hc. rewrite attach_x3d by done.
  destruct (lookup_lt_is_Some_2 scenes' i) as [sc Hsc].
  { rewrite Hl. by eapply lookup_lt_Some. }
  destruct (proj1 (Forall_lookup _ _) Hs i sc Hsc) as [Ht Hlay].
  exists (Elem "x3d" (x3d_attrs w h db) (bound c) [sc]), sc.
  rewrite lookup_zip_with, Hc. simpl. rewrite Hsc. done.
Qed.

Lemma vertical_document_layers (selection : list Node)
    (s : barChartVertical.vars) (i : nat) (c : Node) :
  selection !! i = Some c →
  ∃ x3d sc,
    document (barChartVertical.my selection s) !! i = Some (adopt c x3d) ∧
    tag x3d = "x3d" ∧ children x3d = [sc] ∧ tag sc = "scene" ∧
    layered ["xAxis"; "yAxis"; "chart"] sc.
Proof.
  intros Hc. rewrite vertical_my_eq. cbv zeta.
  set (names := ["xAxis"; "yAxis"; "chart"]).
  set (I := λ (v : barChartVertical.vars) d,
              as_many (length selection) v d ∧ all_layered names v d).
  match goal with |- context [finish _ _ (?m s ?d)] =>
    assert (keeps I m) as Hm;
      [| assert (I s d) as H1;
         [| specialize (Hm s d H1); destruct (m s d) as [[v' d'] r] ] ]
  end.
  - apply keeps_bind.
    { apply keeps_and; [apply as_many_call |].
      apply layered_call. intros e. by apply viewpoint_appends. }
    intros _. apply keeps_each. intros data.
    unfold barChartVertical.each_scene.
    apply keeps_bind; [by apply keeps_on_vars |].
    intros _. apply keeps_bind; [apply keeps_get |].
    intros v. apply keeps_and;
      [apply vertical_draw_as_many | apply vertical_draw_layered].
  - split; [apply scaffold_length | apply vertical_scaffold_layered].
  - destruct Hm as [Hn Hl]. unfold finish. cbn [document].
    by apply document_layers.
Qed.

Lemma multi_document_layers (selection : list Node)
    (s : barChartMultiSeries.vars) (i : nat) (c : Node) :
  selection !! i = Some c →
  ∃ x3d sc,
    document (barChartMultiSeries.my selection s) !! i = Some (adopt c x3d) ∧
    tag x3d = "x3d" ∧ children x3d = [sc] ∧ tag sc = "scene" ∧
    layered ["axis"; "chart"] sc.
Proof.
  intros Hc. rewrite multi_my_eq. cbv zeta.
  set (names := ["axis"; "chart"]).
  set (I := λ (v : barChartMultiSeries.vars) d,
              as_many (length selection) v d ∧ all_layered names v d).
  match goal with |- context [finish _ _ (?m s ?d)] =>
    assert (keeps I m) as Hm;
      [| assert (I s d) as H1;
         [| specialize (Hm s d H1); destruct (m s d) as [[v' d'] r] ] ]
  end.
  - apply keeps_bind.
    { apply keeps_and; [apply as_many_call |].
      apply layered_call. intros e. by apply viewpoint_appends. }
    intros _. apply keeps_bind.
    { apply keeps_and;
        [apply as_many_append_child | apply layered_append_child]. }
    intros _. apply keeps_each. intros data.
    unfold barChartMultiSeries.each_scene.
    apply keeps_bind; [by apply keeps_on_vars |].
    intros _. apply keeps_bind; [apply keeps_get |].
    intros v. apply keeps_and;
      [apply multi_draw_as_many | apply multi_draw_layered].
  - split; [apply scaffold_length | apply multi_scaffold_layered].
  - destruct Hm as [Hn Hl]. unfold finish. cbn [document].
    by apply document_layers.
Qed.

End LayersOfTheCharts.

(** C8: a chart that is called again and again on a selection of fresh
    containers, nothing set in between, leaves the same document every time,
    with the same groups of the same classes and the same number of
    elements, calls the same sub-components and ends the same way.  The
    document of every one of these calls holds the named groups: when the
    viewpoint sub-component keeps the children of the scene it is called on
    (it may add children after them) and no sub-component takes a class
    from the element it is called on, every container has got an [x3d]
    element with one [scene], whose first children are the groups of the
    layers, in this order: [xAxis], [yAxis] and [chart] in the vertical
    chart, [axis] and [chart] in the multi-series chart. *)
Theorem rendering_again_is_the_same `{d3.Nice} `{component.Render}
    (selection : list Node) (n : nat) :
  (∀ s : barChartVertical.vars,
     let first := barChartVertical.my selection s in
     let nth := again (barChartVertical.my selection) n s in
     (document nth = document first ∧
      group_names <$> document nth = group_names <$> document first ∧
      primitives <$> document nth = primitives <$> document first ∧
      called nth = called first ∧ ended nth = ended first) ∧
     ((∀ c e, component.kind c = "viewpoint" →
              ∃ more, children (component.render c e).1 = children e ++ more) →
      (∀ c e name, name ∈ classes e →
                   name ∈ classes (component.render c e).1) →
      ∀ i c, selection !! i = Some c →
        ∃ (x3d sc g1 g2 g3 : Node) (more : list Node),
          document nth !! i = Some (adopt c x3d) ∧
          tag x3d = "x3d" ∧ children x3d = [sc] ∧ tag sc = "scene" ∧
          children sc = g1 :: g2 :: g3 :: more ∧
          (tag g1 = "group" ∧ "xAxis" ∈ classes g1) ∧
          (tag g2 = "group" ∧ "yAxis" ∈ classes g2) ∧
          (tag g3 = "group" ∧ "chart" ∈ classes g3))) ∧
  (∀ s : barChartMultiSeries.vars,
     let first := barChartMultiSeries.my selection s in
     let nth := again (barChartMultiSeries.my selection) n s in
     (document nth = document first ∧
      group_names <$> document nth = group_names <$> document first ∧
      primitives <$> document nth = primitives <$> document first ∧
      called nth = called first ∧ ended nth = ended first) ∧
     ((∀ c e, component.kind c = "viewpoint" →
              ∃ more, children (component.render c e).1 = children e ++ more) →
      (∀ c e name, name ∈ classes e →
                   name ∈ classes (component.render c e).1) →
      ∀ i c, selection !! i = Some c →
        ∃ (x3d sc g1 g2 : Node) (more : list Node),
          document nth !! i = Some (adopt c x3d) ∧
          tag x3d = "x3d" ∧ children x3d = [sc] ∧ tag sc = "scene" ∧
          children sc = g1 :: g2 :: more ∧
          (tag g1 = "group" ∧ "axis" ∈ classes g1) ∧
          (tag g2 = "group" ∧ "chart" ∈ classes g2))).
Proof.
  split; intros s first nth; subst first nth; split.
  - by rewrite (again_same _ (vertical_my_again selection)).
  - intros Hvp Hcls i c Hc.
    rewrite (again_same _ (vertical_my_again selection)).
    destruct (vertical_document_layers Hvp Hcls selection s i c Hc)
      as (x3d & sc & Hdoc & Hx & Hsc & Ht & Hl).
    destruct (Hl 0%nat "xAxis" eq_refl) as (g1 & H1 & Hg1).
    destruct (Hl 1%nat "yAxis" eq_refl) as (g2 & H2 & Hg2).
    destruct (Hl 2%nat "chart" eq_refl) as (g3 & H3 & Hg3).
    destruct (children sc) as [|? [|? [|? more]]] eqn:Hcs; try done.
    simpl in H1, H2, H3. simplify_eq.
    by exists x3d, sc, g1, g2, g3, more.
  - by rewrite (again_same _ (multi_my_again selection)).
  - intros Hvp Hcls i c Hc.
    rewrite (again_same _ (multi_my_again selection)).
    destruct (multi_document_layers Hvp Hcls selection s i c Hc)
      as (x3d & sc & Hdoc & Hx & Hsc & Ht & Hl).
    destruct (Hl 0%nat "axis" eq_refl) as (g1 & H1 & Hg1).
    destruct (Hl 1%nat "chart" eq_refl) as (g2 & H2 & Hg2).
    destruct (children sc) as [|? [|? more]] eqn:Hcs; try done.
    simpl in H1, H2. simplify_eq.
    by exists x3d, sc, g1, g2, more.
Qed.

Lemma concrete_paint_appends (c : component.instance) (e : Node) :
  ∃ more, children (concrete.paint c e).1 = children e ++ more.
Proof. unfold concrete.paint. simpl. eexists. reflexivity. Defined.

Lemma concrete_paint_classes (c : component.instance) (e : Node)
    (name : string) :
  name ∈ classes e → name ∈ classes (concrete.paint c e).1.
Proof.
  unfold classes, concrete.paint. simpl.
  by rewrite lookup_insert_ne.
Defined.

Lemma rendering_again_is_the_same_witness :
  let c := concrete.container (Some (Dataset concrete.quarters)) in
  let my := barChartVertical.my (H := concrete.nice) (H0 := concrete.paint)
              [c] in
  let nth := again my 2 barChartVertical.barChartVertical in
  [c] !! 0%nat = Some c ∧
  document nth = document (my barChartVertical.barChartVertical) ∧
  ∃ (x3d sc g1 g2 g3 : Node) (more : list Node),
    document nth !! 0%nat = Some (adopt c x3d) ∧
    children x3d = [sc] ∧
    children sc = g1 :: g2 :: g3 :: more ∧
    "xAxis" ∈ classes g1 ∧ "yAxis" ∈ classes g2 ∧ "chart" ∈ classes g3.
Proof.
  intros c my nth. split; [reflexivity |].
  destruct (proj1 (@rendering_again_is_the_same concrete.nice concrete.paint
                     [c] 2%nat)
              barChartVertical.barChartVertical)
    as [(Hdoc & _) Hgroups].
  split; [exact Hdoc |].
  destruct (Hgroups (λ c e _, concrete_paint_appends c e)
              concrete_paint_classes 0%nat c eq_refl)
    as (x3d & sc & g1 & g2 & g3 & more & Hd & _ & Hx & _ & Hs
        & [_ H1] & [_ H2] & [_ H3]).
  exists x3d, sc, g1, g2, g3, more.
  split; [exact Hd |]. split; [exact Hx |]. split; [exact Hs |].
  split; [exact H1 |]. split; [exact H2 | exact H3].
Defined.

(** ** The further properties at the concrete call *)

Lemma scales_are_derived_once_witness :
  let c := concrete.container (Some (Dataset concrete.quarters)) in
  let other := concrete.container (Some (Dataset [Series "B" [Point "q3" 5]])) in
  ∃ s',
    barChartVertical.init (H := concrete.nice)
      (Some (Dataset concrete.quarters)) barChartVertical.barChartVertical
      = Some s' ∧
    vars_after
      (barChartVertical.my (H := concrete.nice) (H0 := concrete.paint)
         [other] s') = s' ∧
    Forall (hands "x" "xScale" (barChartVertical.xScale s'))
      (called
         (barChartVertical.my (H := concrete.nice) (H0 := concrete.paint)
            [other] s')).
Proof.
  intros c other.
  destruct (barChartVertical.init (H := concrete.nice)
              (Some (Dataset concrete.quarters))
              barChartVertical.barChartVertical) as [s'|] eqn:E;
    [| vm_compute in E; discriminate E].
  exists s'. split; [reflexivity |].
  destruct (proj1 (@scales_are_derived_once concrete.nice concrete.paint
                     [other] (Some (Dataset concrete.quarters)))
              barChartVertical.barChartVertical s' E)
    as (Hvars & _ & Hcalled).
  split; [exact Hvars | exact Hcalled].
Defined.

Lemma first_container_decides_the_scales_witness :
  let c := concrete.container (Some (Dataset concrete.quarters)) in
  let other := concrete.container (Some (Dataset [Series "B" [Point "q3" 5]])) in
  ∃ s',
    barChartVertical.init (H := concrete.nice)
      (Some (Dataset concrete.quarters)) barChartVertical.barChartVertical
      = Some s' ∧
    vars_after
      (barChartVertical.my (H := concrete.nice) (H0 := concrete.paint)
         [c; other] barChartVertical.barChartVertical) = s'.
Proof.
  intros c other.
  destruct (barChartVertical.init (H := concrete.nice)
              (Some (Dataset concrete.quarters))
              barChartVertical.barChartVertical) as [s'|] eqn:E;
    [| vm_compute in E; discriminate E].
  exists s'. split; [reflexivity |].
  exact (proj1 (@first_container_decides_the_scales concrete.nice
                  concrete.paint c [other])
           barChartVertical.barChartVertical s'
           (concrete_paint_returns _) E).
Defined.

Lemma multi_hands_an_undefined_yScale_witness :
  let c := concrete.container (Some (Dataset concrete.quarters)) in
  barChartMultiSeries.yScale barChartMultiSeries.barChartMultiSeries = None ∧
  Forall (hands "y" "yScale" None)
    (called
       (barChartMultiSeries.my (H := concrete.nice) (H0 := concrete.paint)
          [c] barChartMultiSeries.barChartMultiSeries)).
Proof.
  intros c. split; [reflexivity |].
  exact (@multi_hands_an_undefined_yScale concrete.nice concrete.paint
           [c] barChartMultiSeries.barChartMultiSeries eq_refl).
Defined.

Lemma completed_call_has_called_witness :
  let c := concrete.container (Some (Dataset concrete.quarters)) in
  let r := barChartVertical.my (H := concrete.nice) (H0 := concrete.paint)
             [c; c] barChartVertical.barChartVertical in
  ended r = Normal ∧
  called r =
    (component.viewpoint .> component.quickView "left")
    :: mjoin (replicate 2 (vertical_components (vars_after r))).
Proof.
  intros c r.
  assert (ended r = Normal) as He by (vm_compute; reflexivity).
  split; [exact He |].
  exact (proj1 (@completed_call_has_called concrete.nice concrete.paint [c; c])
           barChartVertical.barChartVertical He).
Defined.

Lemma call_returns_on_bound_containers_witness :
  let c := concrete.container (Some (Dataset concrete.quarters)) in
  Forall carries_data [c; c] ∧
  ended
    (barChartMultiSeries.my (H := concrete.nice) (H0 := concrete.paint)
       [c; c] barChartMultiSeries.barChartMultiSeries) = Normal.
Proof.
  intros c.
  assert (Forall carries_data [c; c]) as Hsel.
  { repeat constructor; exists concrete.quarters; reflexivity. }
  split; [exact Hsel |].
  exact (proj2 (@call_returns_on_bound_containers concrete.nice concrete.paint
                  [c; c] Hsel (λ _ _, eq_refl) (λ _ _ _, eq_refl))
           barChartMultiSeries.barChartMultiSeries).
Defined.

Lemma throwing_viewpoint_ends_the_call_witness :
  let c := concrete.container (Some (Dataset concrete.quarters)) in
  let r := barChartVertical.my (H := concrete.nice)
             (H0 := concrete.no_viewpoint)
             [c] barChartVertical.barChartVertical in
  ended r = Throw ∧ vars_after r = barChartVertical.barChartVertical ∧
  called r = [component.viewpoint .> component.quickView "left"].
Proof.
  intros c r.
  assert (∀ vp n, component.kind vp = "viewpoint" →
                  (concrete.no_viewpoint vp n).2 = Throw) as Hthrow.
  { intros vp n Hk. unfold concrete.no_viewpoint. rewrite Hk. reflexivity. }
  exact (proj1 (@throwing_viewpoint_ends_the_call concrete.nice
                  concrete.no_viewpoint c [] Hthrow)
           barChartVertical.barChartVertical).
Defined.

Lemma undefined_xScale_is_derived_again_witness :
  let old := Some (Dataset concrete.quarters) in
  let new := Some (Dataset [Series "B" [Point "q3" 5]]) in
  ∃ s1 s2,
    barChartVertical.init (H := concrete.nice) old
      barChartVertical.barChartVertical = Some s1 ∧
    barChartVertical.init (H := concrete.nice) new
      (barChartVertical.my_xScale Chart [None] s1).1 = Some s2 ∧
    d3.domain <$> barChartVertical.xScale s1 = Some (d3.Keys ["q1"; "q2"]) ∧
    d3.domain <$> barChartVertical.xScale s2 = Some (d3.Keys ["q3"]) ∧
    barChartVertical.yScale s2 = barChartVertical.yScale s1.
Proof.
  intros old new.
  destruct (barChartVertical.init (H := concrete.nice) old
              barChartVertical.barChartVertical) as [s1|] eqn:E1;
    [| vm_compute in E1; discriminate E1].
  destruct (barChartVertical.init (H := concrete.nice) new
              (barChartVertical.my_xScale Chart [None] s1).1) as [s2|] eqn:E2.
  - exists s1, s2.
    destruct (proj1 (@undefined_xScale_is_derived_again concrete.nice
                       concrete.paint old new)
                barChartVertical.barChartVertical s1 s2 E1 E2)
      as (summarized & Hsum & Hx & Hy & _).
    refine (conj eq_refl (conj E2 _)).
    vm_compute in E1. injection E1 as <-.
    vm_compute in Hsum. injection Hsum as <-.
    rewrite Hx. split; [vm_compute; reflexivity |].
    split; [vm_compute; reflexivity | exact Hy].
  - vm_compute in E1. injection E1 as <-. vm_compute in E2. discriminate E2.
Defined.

Lemma vertical_dimensions_only_derive_scales_witness :
  let c := concrete.container (Some (Dataset concrete.quarters)) in
  let xs := d3.OfBand (d3.scaleBand .> d3.bandDomain ["q1"; "q2"]) in
  let ys :=
    d3.OfLinear (d3.scaleLinear .> d3.linearDomain [Num 0; Num 20]) in
  let s := barChartVertical.set_xScale (Some xs)
             (barChartVertical.set_yScale (Some ys)
                barChartVertical.barChartVertical) in
  document
    (barChartVertical.my (H := concrete.nice) (H0 := concrete.paint) [c]
       (barChartVertical.set_dimensions (Xyz 1 2 3) s)) =
  document
    (barChartVertical.my (H := concrete.nice) (H0 := concrete.paint) [c] s).
Proof.
  intros c xs ys s.
  exact (proj1 (@vertical_dimensions_only_derive_scales concrete.nice
                  concrete.paint [c] s (Xyz 1 2 3)
                  (ex_intro _ xs eq_refl) (ex_intro _ ys eq_refl))).
Defined.

Lemma one_x3d_and_one_scene_per_container_witness :
  let c := concrete.container (Some (Dataset concrete.quarters)) in
  let r := barChartMultiSeries.my (H := concrete.nice) (H0 := concrete.paint)
             [c] barChartMultiSeries.barChartMultiSeries in
  [c] !! 0%nat = Some c ∧
  ∃ x3d sc : Node,
    document r !! 0%nat = Some (adopt c x3d) ∧
    attrs x3d !! "width" = Some "500px" ∧
    children x3d = [sc] ∧ tag sc = "scene".
Proof.
  intros c r.
  split; [reflexivity |].
  destruct (proj2 (proj2 (@one_x3d_and_one_scene_per_container concrete.nice
                            concrete.paint [c])
                     barChartMultiSeries.barChartMultiSeries)
              0%nat c eq_refl)
    as (x3d & sc & Hdoc & _ & _ & Hw & _ & Hc & Ht).
  exists x3d, sc.
  split; [exact Hdoc | split; [exact Hw | split; [exact Hc | exact Ht]]].
Defined.
